(** * Health-invoice XML patch engine: embedding and properties

    The development follows the two processors of the repository:
    [src/parserv2.py] (the literal-text engine, the one [src/files.py]
    runs) and [src/parser.py] (the tree-based engine).

    Python [str] values are sequences of Unicode code points; they are
    modelled as lists of [N].  The built-in string methods the engine
    calls ([in], [startswith], [replace]) are written out as list
    functions in [PyStr], with the lemmas the engine's properties rest
    on. *)

From Stdlib Require Import List NArith ZArith Arith Lia Bool.
From Stdlib Require String Ascii.
Import ListNotations.
Import String.StringSyntax.
Delimit Scope string_scope with string.

(* ===================================================================== *)
(** ** Python strings *)
(* ===================================================================== *)

Module PyStr.

Definition char := N.
Definition str := list char.

(** A literal of the source, character by character (ASCII part). *)
Definition lit (s : String.string) : str :=
  map Ascii.N_of_ascii (String.list_ascii_of_string s).
Arguments lit s%_string.

Definition nl : str := [10%N].
Definition dquote : str := [34%N].
Definition spaces (n : nat) : str := repeat 32%N n.

(** [s.startswith(p)] *)
Fixpoint startswith (s p : str) {struct p} : bool :=
  match p with
  | [] => true
  | a :: p' =>
      match s with
      | [] => false
      | b :: s' => N.eqb a b && startswith s' p'
      end
  end.

(** [s.endswith(p)] *)
Definition endswith (s p : str) : bool := startswith (rev s) (rev p).

(** [p in s] *)
Fixpoint str_in (p s : str) : bool :=
  startswith s p ||
  match s with
  | [] => false
  | _ :: t => str_in p t
  end.

(** Number of positions of [s] at which [p] starts. *)
Fixpoint occurrences (p s : str) : nat :=
  match s with
  | [] => 0
  | _ :: t => (if startswith s p then 1 else 0) + occurrences p t
  end.

(** [s.replace(old, new)] for a non-empty [old]: scan from the left; at a
    match emit [new] and jump over the match ([skip] counts the characters
    of the match still to be dropped), otherwise copy one character. *)
Fixpoint replace_scan (old new : str) (skip : nat) (s : str) : str :=
  match s with
  | [] => []
  | c :: t =>
      match skip with
      | S k => replace_scan old new k t
      | O =>
          if startswith s old
          then new ++ replace_scan old new (length old - 1) t
          else c :: replace_scan old new 0 t
      end
  end.

(** With an empty [old], Python puts [new] before every character and at
    the end. *)
Fixpoint interleave (new s : str) : str :=
  match s with
  | [] => new
  | c :: t => new ++ c :: interleave new t
  end.

Definition replace (s old new : str) : str :=
  match old with
  | [] => interleave new s
  | _ :: _ => replace_scan old new 0 s
  end.

(** [sep.join(parts)] *)
Fixpoint join (sep : str) (parts : list str) : str :=
  match parts with
  | [] => []
  | [g] => g
  | g :: rest => g ++ sep ++ join sep rest
  end.

(** *** Prefixes and suffixes *)

Lemma startswith_iff (s p : str) :
  startswith s p = true <-> exists t, s = p ++ t.
Proof.
  revert s; induction p as [|a p IH]; intros s; simpl.
  - split; [intros _; now exists s | intros _; reflexivity].
  - destruct s as [|b s].
    + split; [discriminate | intros [t Ht]; discriminate].
    + rewrite andb_true_iff, N.eqb_eq, IH. split.
      * intros [-> [t ->]]. now exists t.
      * intros [t Ht]. injection Ht as -> ->. split; [reflexivity | now exists t].
Qed.

Lemma startswith_app (p t : str) : startswith (p ++ t) p = true.
Proof. apply startswith_iff. now exists t. Qed.

Lemma startswith_nil (p : str) : startswith [] p = true -> p = [].
Proof. destruct p; [reflexivity | discriminate]. Qed.

Lemma endswith_iff (s p : str) :
  endswith s p = true <-> exists t, s = t ++ p.
Proof.
  unfold endswith. rewrite startswith_iff. split.
  - intros [t Ht]. exists (rev t).
    rewrite <- (rev_involutive s), Ht, rev_app_distr, rev_involutive. reflexivity.
  - intros [t ->]. exists (rev t). apply rev_app_distr.
Qed.

(** Two prefixes of one string are comparable. *)
Lemma app_eq_app_cases (a b c d : str) :
  a ++ b = c ++ d ->
  (exists m, c = a ++ m /\ b = m ++ d) \/ (exists m, a = c ++ m /\ d = m ++ b).
Proof.
  revert c; induction a as [|x a IH]; intros c H; simpl in *.
  - left. exists c. now split.
  - destruct c as [|y c]; simpl in *.
    + right. exists (x :: a). now split.
    + injection H as -> H. destruct (IH _ H) as [[m [-> ->]] | [m [-> ->]]].
      * left. now exists m.
      * right. now exists m.
Qed.

(** *** Membership *)

Lemma str_in_iff (p s : str) :
  str_in p s = true <-> exists a b, s = a ++ p ++ b.
Proof.
  induction s as [|c s IH]; simpl.
  - rewrite orb_false_r. split.
    + intros H. apply startswith_nil in H. subst. now exists [], [].
    + intros [a [b H]]. destruct a; [|discriminate]. destruct p; [reflexivity | discriminate].
  - rewrite orb_true_iff, IH. split.
    + intros [H | [a [b ->]]].
      * apply startswith_iff in H. destruct H as [t Ht]. exists [], t. exact Ht.
      * now exists (c :: a), b.
    + intros [a [b H]]. destruct a as [|x a]; simpl in H.
      * left. apply startswith_iff. now exists b.
      * injection H as -> ->. right. now exists a, b.
Qed.

Lemma str_in_app_mid (p a b : str) : str_in p (a ++ p ++ b) = true.
Proof. apply str_in_iff. now exists a, b. Qed.

Lemma str_in_self (p : str) : str_in p p = true.
Proof. apply str_in_iff. exists [], []. now rewrite app_nil_r. Qed.

Lemma str_in_trans (y x s : str) :
  str_in y x = true -> str_in x s = true -> str_in y s = true.
Proof.
  rewrite !str_in_iff. intros [a [b ->]] [c [d ->]].
  exists (c ++ a), (b ++ d). now rewrite <- !app_assoc.
Qed.

Lemma str_in_false_app_l (p a b : str) :
  str_in p (a ++ b) = false -> str_in p a = false.
Proof.
  intros H. destruct (str_in p a) eqn:E; [|reflexivity].
  apply str_in_iff in E. destruct E as [u [v ->]].
  rewrite <- H. symmetry. apply str_in_iff. exists u, (v ++ b).
  now rewrite <- !app_assoc.
Qed.

Lemma str_in_false_app_r (p a b : str) :
  str_in p (a ++ b) = false -> str_in p b = false.
Proof.
  intros H. destruct (str_in p b) eqn:E; [|reflexivity].
  apply str_in_iff in E. destruct E as [u [v ->]].
  rewrite <- H. symmetry. apply str_in_iff. exists (a ++ u), v.
  now rewrite <- !app_assoc.
Qed.

Lemma occurrences_pos (p s : str) :
  p <> [] -> (str_in p s = true <-> 0 < occurrences p s).
Proof.
  intros Hp. induction s as [|c s IH]; simpl.
  - rewrite orb_false_r. split; [|lia]. intros H. apply startswith_nil in H. contradiction.
  - rewrite orb_true_iff, IH. destruct p as [|a p]; [contradiction|].
    destruct (startswith (c :: s) (a :: p)); split; intros; try lia; auto.
Qed.

Lemma occurrences_zero (p s : str) :
  p <> [] -> (str_in p s = false <-> occurrences p s = 0).
Proof.
  intros Hp. pose proof (occurrences_pos p s Hp) as [H1 H2].
  destruct (str_in p s); split; intros E; try reflexivity; try discriminate.
  - specialize (H1 eq_refl). lia.
  - destruct (occurrences p s) as [|k]; [reflexivity|].
    assert (false = true) by (apply H2; lia). discriminate.
Qed.

(** *** Replacement, step by step *)

Lemma join_head (sep g : str) (rest : list str) :
  exists w, join sep (g :: rest) = g ++ w.
Proof.
  destruct rest as [|g' rest].
  - exists []. simpl. now rewrite app_nil_r.
  - now exists (sep ++ join sep (g' :: rest)).
Qed.

Lemma join_cons (sep g : str) (rest : list str) :
  rest <> [] -> join sep (g :: rest) = g ++ sep ++ join sep rest.
Proof. destruct rest; [contradiction | reflexivity]. Qed.

Lemma replace_scan_skip (old new : str) (k : nat) (s : str) :
  replace_scan old new k s = replace_scan old new 0 (skipn k s).
Proof.
  revert k; induction s as [|c s IH]; intros k.
  - now destruct k.
  - destruct k as [|k]; [reflexivity|]. simpl. apply IH.
Qed.

Lemma replace_nil (old new : str) : old <> [] -> replace [] old new = [].
Proof. destruct old; [contradiction | reflexivity]. Qed.

Lemma replace_match (s old new : str) :
  old <> [] -> replace (old ++ s) old new = new ++ replace s old new.
Proof.
  intros Hp. destruct old as [|a p]; [contradiction|].
  unfold replace. change ((a :: p) ++ s) with (a :: (p ++ s)).
  cbn [replace_scan].
  change (a :: p ++ s) with ((a :: p) ++ s). rewrite startswith_app.
  rewrite replace_scan_skip.
  replace (length (a :: p) - 1) with (length p) by (simpl; lia).
  rewrite skipn_app, skipn_all, Nat.sub_diag. reflexivity.
Qed.

Lemma replace_step (c : char) (t old new : str) :
  old <> [] -> startswith (c :: t) old = false ->
  replace (c :: t) old new = c :: replace t old new.
Proof.
  intros Hp H. destruct old as [|a p]; [contradiction|].
  unfold replace. cbn [replace_scan]. now rewrite H.
Qed.

(** [replace] as Python documents it: the occurrences of [old] found from
    the left split [s] into pieces that are joined again with [new]. *)
Lemma replace_pieces (s old : str) :
  old <> [] ->
  exists gs, gs <> [] /\ s = join old gs /\
             (forall new, replace s old new = join new gs) /\
             Forall (fun g => str_in old g = false) gs.
Proof.
  intros Hp. remember (length s) as n eqn:Hn. revert s Hn.
  induction n as [n IH] using lt_wf_ind. intros s Hn.
  destruct s as [|c t].
  - exists [[]]. repeat split; try discriminate.
    + intros new. now apply replace_nil.
    + constructor; [|constructor]. destruct old; [contradiction | reflexivity].
  - destruct (startswith (c :: t) old) eqn:E.
    + apply startswith_iff in E. destruct E as [t' Ht'].
      assert (Hlen : length t' < n).
      { subst n. rewrite Ht', length_app. destruct old; [contradiction | simpl; lia]. }
      destruct (IH _ Hlen t' eq_refl) as [gs [Hne [Hs [Hr Hall]]]].
      exists ([] :: gs). repeat split; try discriminate.
      * rewrite Ht', join_cons by exact Hne. simpl. now rewrite <- Hs.
      * intros new. rewrite Ht', replace_match by exact Hp.
        rewrite join_cons by exact Hne. simpl. now rewrite <- Hr.
      * constructor; [|exact Hall]. destruct old; [contradiction | reflexivity].
    + assert (Hlen : length t < n) by (subst n; simpl; lia).
      destruct (IH _ Hlen t eq_refl) as [gs [Hne [Hs [Hr Hall]]]].
      destruct gs as [|g rest]; [contradiction|].
      exists ((c :: g) :: rest). repeat split; try discriminate.
      * rewrite Hs. now destruct rest.
      * intros new. rewrite replace_step by assumption. rewrite Hr. now destruct rest.
      * apply Forall_cons_iff in Hall. destruct Hall as [Hg Hrest].
        constructor; [|exact Hrest].
        simpl. rewrite Hg, orb_false_r.
        destruct (startswith (c :: g) old) eqn:E'; [|reflexivity].
        apply startswith_iff in E'. destruct E' as [u Hu].
        rewrite <- E. symmetry. apply startswith_iff.
        destruct (join_head old g rest) as [w Hw].
        exists (u ++ w). rewrite Hs, Hw, app_comm_cons, Hu.
        now rewrite <- app_assoc.
Qed.

(** *** Strings that cannot touch

    [Isolated x q]: no occurrence of [x] can lie across an end of a copy of
    [q], whatever surrounds that copy. *)

Definition Isolated (x q : str) : Prop :=
  forall x1 x2, x = x1 ++ x2 -> x1 <> [] -> x2 <> [] ->
    (forall b, startswith (q ++ b) x2 = false) /\ endswith q x1 = false.

Lemma isolated_before (x q a b : str) :
  Isolated x q -> a <> [] ->
  startswith (a ++ q ++ b) x = startswith a x.
Proof.
  intros HI Ha. destruct (startswith a x) eqn:E.
  - apply startswith_iff in E. destruct E as [t ->].
    apply startswith_iff. exists (t ++ q ++ b). now rewrite <- app_assoc.
  - destruct (startswith (a ++ q ++ b) x) eqn:E'; [|reflexivity].
    apply startswith_iff in E'. destruct E' as [t Ht].
    destruct (app_eq_app_cases _ _ _ _ Ht) as [[m [Hx Hq]] | [m [Ha' _]]].
    + destruct m as [|y m].
      * rewrite app_nil_r in Hx. subst x. rewrite <- E. symmetry.
        apply startswith_iff. exists []. now rewrite app_nil_r.
      * destruct (HI a (y :: m) Hx Ha ltac:(discriminate)) as [H1 _].
        specialize (H1 b). rewrite <- H1. symmetry.
        apply startswith_iff. now exists t.
    + rewrite <- E. symmetry. apply startswith_iff. now exists m.
Qed.

Lemma isolated_inside (x q q1 q2 b : str) :
  Isolated x q -> q = q1 ++ q2 -> q2 <> [] ->
  startswith (q2 ++ b) x = startswith q2 x.
Proof.
  intros HI Hq Hq2. destruct (startswith q2 x) eqn:E.
  - apply startswith_iff in E. destruct E as [t ->].
    apply startswith_iff. exists (t ++ b). now rewrite <- app_assoc.
  - destruct (startswith (q2 ++ b) x) eqn:E'; [|reflexivity].
    apply startswith_iff in E'. destruct E' as [t Ht].
    destruct (app_eq_app_cases _ _ _ _ Ht) as [[m [Hx Hb]] | [m [Hq2' _]]].
    + destruct m as [|y m].
      * rewrite app_nil_r in Hx. subst x. rewrite <- E. symmetry.
        apply startswith_iff. exists []. now rewrite app_nil_r.
      * destruct (HI q2 (y :: m) Hx Hq2 ltac:(discriminate)) as [_ H2].
        rewrite <- H2. symmetry. apply endswith_iff. now exists q1.
    + rewrite <- E. symmetry. apply startswith_iff. now exists m.
Qed.

Lemma occurrences_isolated_tail (x q b : str) :
  Isolated x q ->
  forall q2 q1, q = q1 ++ q2 ->
  occurrences x (q2 ++ b) = occurrences x q2 + occurrences x b.
Proof.
  intros HI. induction q2 as [|c q2 IH]; intros q1 Hq; [reflexivity|].
  change ((c :: q2) ++ b) with (c :: (q2 ++ b)). cbn [occurrences].
  change (c :: q2 ++ b) with ((c :: q2) ++ b).
  rewrite (isolated_inside x q q1 (c :: q2) b HI Hq) by discriminate.
  rewrite (IH (q1 ++ [c])); [lia|]. now rewrite <- app_assoc.
Qed.

(** Occurrences add up around an isolated copy of [q]. *)
Lemma occurrences_around (x q a b : str) :
  Isolated x q ->
  occurrences x (a ++ q ++ b) = occurrences x a + occurrences x q + occurrences x b.
Proof.
  intros HI. induction a as [|c a IH].
  - simpl. exact (occurrences_isolated_tail x q b HI q [] eq_refl).
  - change ((c :: a) ++ q ++ b) with (c :: (a ++ q ++ b)). cbn [occurrences].
    change (c :: a ++ q ++ b) with ((c :: a) ++ q ++ b).
    rewrite (isolated_before x q (c :: a) b HI) by discriminate.
    rewrite IH. lia.
Qed.

Lemma replace_isolated_tail (p r q b : str) :
  p <> [] -> Isolated p q -> str_in p q = false ->
  forall q2 q1, q = q1 ++ q2 ->
  replace (q2 ++ b) p r = q2 ++ replace b p r.
Proof.
  intros Hp HI Hin. induction q2 as [|c q2 IH]; intros q1 Hq; [reflexivity|].
  change ((c :: q2) ++ b) with (c :: (q2 ++ b)).
  rewrite replace_step; [| exact Hp |].
  - rewrite (IH (q1 ++ [c])); [reflexivity|]. now rewrite <- app_assoc.
  - change (c :: q2 ++ b) with ((c :: q2) ++ b).
    rewrite (isolated_inside p q q1 (c :: q2) b HI Hq) by discriminate.
    destruct (startswith (c :: q2) p) eqn:E; [|reflexivity].
    apply startswith_iff in E. destruct E as [t Ht].
    rewrite <- Hin. symmetry. apply str_in_iff. exists q1, t. now rewrite Hq, Ht.
Qed.

(** Replacement works on each side of an isolated copy of [q] that holds no
    [p], and leaves the copy alone. *)
Lemma replace_around (p r q a b : str) :
  p <> [] -> Isolated p q -> str_in p q = false ->
  replace (a ++ q ++ b) p r = replace a p r ++ q ++ replace b p r.
Proof.
  intros Hp HI Hin. remember (length a) as n eqn:Hn. revert a Hn.
  induction n as [n IH] using lt_wf_ind. intros a Hn.
  destruct a as [|c a].
  - rewrite replace_nil by exact Hp. simpl.
    exact (replace_isolated_tail p r q b Hp HI Hin q [] eq_refl).
  - destruct (startswith (c :: a) p) eqn:E.
    + apply startswith_iff in E. destruct E as [t Ht]. rewrite Ht.
      rewrite <- app_assoc, !replace_match by exact Hp.
      rewrite <- app_assoc. f_equal.
      apply (IH (length t)); [|reflexivity].
      subst n. rewrite Ht, length_app. destruct p; [contradiction | simpl; lia].
    + change ((c :: a) ++ q ++ b) with (c :: (a ++ q ++ b)).
      rewrite !replace_step; try exact Hp; try exact E.
      * simpl. f_equal. apply (IH (length a)); [subst n; simpl; lia | reflexivity].
      * change (c :: a ++ q ++ b) with ((c :: a) ++ q ++ b).
        rewrite (isolated_before p q (c :: a) b HI) by discriminate. exact E.
Qed.

(** *** Joins of isolated separators *)

Lemma occurrences_join (x q : str) (gs : list str) :
  Isolated x q -> gs <> [] ->
  occurrences x (join q gs) =
  (length gs - 1) * occurrences x q + list_sum (map (occurrences x) gs).
Proof.
  intros HI. induction gs as [|g rest IH]; intros Hne; [contradiction|].
  destruct rest as [|g' rest'].
  - simpl. lia.
  - rewrite join_cons by discriminate.
    rewrite occurrences_around by exact HI.
    rewrite IH by discriminate. simpl. lia.
Qed.

Lemma replace_join (p r q : str) (gs : list str) :
  p <> [] -> Isolated p q -> str_in p q = false -> gs <> [] ->
  replace (join q gs) p r = join q (map (fun g => replace g p r) gs).
Proof.
  intros Hp HI Hin. induction gs as [|g rest IH]; intros Hne; [contradiction|].
  destruct rest as [|g' rest'].
  - reflexivity.
  - rewrite join_cons by discriminate.
    rewrite replace_around by assumption.
    rewrite IH by discriminate. reflexivity.
Qed.

Lemma occurrences_short (p s : str) :
  length s < length p -> occurrences p s = 0.
Proof.
  induction s as [|c s IH]; intros H; [reflexivity|].
  cbn [occurrences]. rewrite IH by (simpl in H; lia).
  destruct (startswith (c :: s) p) eqn:E; [|reflexivity].
  apply startswith_iff in E. destruct E as [t Ht].
  apply (f_equal (@length _)) in Ht. rewrite length_app in Ht. lia.
Qed.

Lemma occurrences_self (p : str) : p <> [] -> occurrences p p = 1.
Proof.
  destruct p as [|a p]; [contradiction|]. intros _.
  cbn [occurrences].
  replace (startswith (a :: p) (a :: p)) with true.
  - rewrite occurrences_short by (simpl; lia). reflexivity.
  - symmetry. apply startswith_iff. exists []. now rewrite app_nil_r.
Qed.

Lemma list_sum_zero (f : str -> nat) (gs : list str) :
  Forall (fun g => f g = 0) gs -> list_sum (map f gs) = 0.
Proof. induction 1 as [|g gs Hg _ IH]; simpl; [reflexivity | lia]. Qed.

(** A replacement that cannot touch [x] keeps the occurrences of [x]. *)
Lemma occurrences_replace_other (x s p r : str) :
  x <> [] -> p <> [] ->
  Isolated x p -> str_in x p = false ->
  Isolated x r -> str_in x r = false ->
  occurrences x (replace s p r) = occurrences x s.
Proof.
  intros Hx Hp HIp Hinp HIr Hinr.
  destruct (replace_pieces s p Hp) as [gs [Hne [Hs [Hr _]]]].
  rewrite Hr. rewrite Hs at 1.
  rewrite !occurrences_join by assumption.
  apply occurrences_zero in Hinp, Hinr; try exact Hx.
  rewrite Hinp, Hinr. reflexivity.
Qed.

(** After the replacement no occurrence of the pattern is left, when the
    new text cannot rebuild one. *)
Lemma occurrences_replace_self (s p r : str) :
  p <> [] -> Isolated p r -> str_in p r = false ->
  occurrences p (replace s p r) = 0.
Proof.
  intros Hp HI Hin.
  destruct (replace_pieces s p Hp) as [gs [Hne [_ [Hr Hall]]]].
  rewrite Hr, occurrences_join by assumption.
  apply occurrences_zero in Hin; try exact Hp. rewrite Hin.
  rewrite list_sum_zero; [lia|].
  eapply Forall_impl; [|exact Hall]. intros g Hg. now apply occurrences_zero.
Qed.

(** Every occurrence of a pattern that does not overlap itself is traded
    for a copy of the new text. *)
Lemma occurrences_replace_count (x s p r : str) :
  p <> [] -> Isolated p p -> Isolated x p -> Isolated x r ->
  occurrences x (replace s p r) + occurrences p s * occurrences x p =
  occurrences x s + occurrences p s * occurrences x r.
Proof.
  intros Hp HIpp HIp HIr.
  destruct (replace_pieces s p Hp) as [gs [Hne [Hs [Hr Hall]]]].
  assert (Hn : occurrences p s = length gs - 1).
  { rewrite Hs at 1. rewrite occurrences_join by assumption.
    rewrite occurrences_self by exact Hp.
    rewrite list_sum_zero; [lia|].
    eapply Forall_impl; [|exact Hall]. intros g Hg. now apply occurrences_zero. }
  rewrite Hr, Hn. rewrite Hs at 1.
  rewrite !occurrences_join by assumption. lia.
Qed.

(** *** Deciding isolation *)

Definition comparable_prefix (u v : str) : bool := startswith u v || startswith v u.
Definition comparable_suffix (u v : str) : bool := endswith u v || endswith v u.

(** No proper tail of [x] agrees with the head [h], no proper head of [x]
    agrees with the tail [t]. *)
Definition edges_clear (x h t : str) : bool :=
  forallb (fun k => negb (comparable_prefix (skipn k x) h) &&
                    negb (comparable_suffix (firstn k x) t))
          (seq 1 (length x - 1)).

Definition apart (x q : str) : bool := negb (str_in x q) && edges_clear x q q.

Lemma app_eq_app_cases_r (a b c d : str) :
  a ++ b = c ++ d ->
  (exists m, b = m ++ d /\ c = a ++ m) \/ (exists m, d = m ++ b /\ a = c ++ m).
Proof.
  intros H. destruct (app_eq_app_cases _ _ _ _ H) as [[m [H1 H2]] | [m [H1 H2]]].
  - left. now exists m.
  - right. now exists m.
Qed.

Lemma edges_clear_isolated (x h t q : str) :
  edges_clear x h t = true ->
  startswith q h = true -> endswith q t = true -> Isolated x q.
Proof.
  intros Hc Hh Ht x1 x2 Hx Hx1 Hx2.
  unfold edges_clear in Hc. rewrite forallb_forall in Hc.
  assert (Hk : In (length x1) (seq 1 (length x - 1))).
  { apply in_seq. subst x. rewrite length_app.
    destruct x1; [contradiction|]. destruct x2; [contradiction|]. simpl. lia. }
  specialize (Hc _ Hk). apply andb_true_iff in Hc. destruct Hc as [Hp Hs].
  assert (E2 : skipn (length x1) x = x2).
  { subst x. rewrite skipn_app, skipn_all, Nat.sub_diag. reflexivity. }
  assert (E1 : firstn (length x1) x = x1).
  { subst x. rewrite firstn_app, firstn_all, Nat.sub_diag. simpl. apply app_nil_r. }
  rewrite E2 in Hp. rewrite E1 in Hs.
  apply negb_true_iff in Hp, Hs.
  unfold comparable_prefix in Hp. unfold comparable_suffix in Hs.
  apply orb_false_iff in Hp, Hs. destruct Hp as [Hp1 Hp2]. destruct Hs as [Hs1 Hs2].
  apply startswith_iff in Hh. destruct Hh as [m Hm].
  apply endswith_iff in Ht. destruct Ht as [m' Hm'].
  split.
  - intros b. destruct (startswith (q ++ b) x2) eqn:E; [|reflexivity].
    apply startswith_iff in E. destruct E as [w Hw].
    rewrite Hm, <- app_assoc in Hw.
    destruct (app_eq_app_cases _ _ _ _ Hw) as [[u [Hu _]] | [u [Hu _]]].
    + rewrite <- Hp1. symmetry. apply startswith_iff. now exists u.
    + rewrite <- Hp2. symmetry. apply startswith_iff. now exists u.
  - destruct (endswith q x1) eqn:E; [|reflexivity].
    apply endswith_iff in E. destruct E as [w Hw].
    rewrite Hm' in Hw.
    destruct (app_eq_app_cases _ _ _ _ Hw) as [[u [_ Hu]] | [u [_ Hu]]].
    + rewrite <- Hs2. symmetry. apply endswith_iff. now exists u.
    + rewrite <- Hs1. symmetry. apply endswith_iff. now exists u.
Qed.

Lemma apart_isolated (x q : str) : apart x q = true -> Isolated x q.
Proof.
  unfold apart. rewrite andb_true_iff. intros [_ H].
  apply (edges_clear_isolated x q q q H).
  - apply startswith_iff. exists []. now rewrite app_nil_r.
  - apply endswith_iff. now exists [].
Qed.

Lemma apart_absent (x q : str) : apart x q = true -> str_in x q = false.
Proof.
  unfold apart. rewrite andb_true_iff. intros [H _]. now apply negb_true_iff.
Qed.

(** A string that shares no character with [d] and lies in [u ++ d ++ v]
    lies in [u] or in [v]. *)
Lemma str_in_around_foreign (y u d v : str) :
  d <> [] -> (forall c, In c y -> ~ In c d) ->
  str_in y (u ++ d ++ v) = true -> str_in y u = true \/ str_in y v = true.
Proof.
  intros Hd Hf H.
  destruct y as [|y0 y]; [left; now destruct u|].
  apply str_in_iff in H. destruct H as [a [b H]].
  destruct (app_eq_app_cases _ _ _ _ H) as [[m [Ha Hm]] | [m [Hu Hm]]].
  - (* the occurrence starts at or after the end of [u] *)
    right.
    destruct (app_eq_app_cases _ _ _ _ Hm) as [[m' [Hm' Hv]] | [m' [Hd' Hyb]]].
    + apply str_in_iff. exists m', b. exact Hv.
    + destruct m' as [|c m'].
      * simpl in Hyb. apply str_in_iff. exists [], b. now rewrite <- Hyb.
      * exfalso. simpl in Hyb. injection Hyb as -> _. apply (Hf c); [now left|].
        rewrite Hd'. apply in_or_app. right. now left.
  - (* the occurrence starts inside [u] *)
    left. symmetry in Hm.
    destruct (app_eq_app_cases _ _ _ _ Hm) as [[m' [Hy Hb]] | [m' [Hm' _]]].
    + destruct m' as [|c m'].
      * rewrite app_nil_r in Hy. rewrite Hy, Hu. apply str_in_iff. exists a, [].
        now rewrite app_nil_r.
      * exfalso. destruct d as [|d0 d]; [contradiction|].
        simpl in Hb. injection Hb as -> _.
        apply (Hf c); [rewrite Hy; apply in_or_app; right; now left | now left].
    + apply str_in_iff. exists a, m'. rewrite Hu, Hm'. reflexivity.
Qed.

(** *** Consequences for one replacement *)

Lemma replace_absent (s p r : str) :
  p <> [] -> str_in p s = false -> replace s p r = s.
Proof.
  intros Hp. induction s as [|c s IH]; intros H.
  - now apply replace_nil.
  - simpl in H. apply orb_false_iff in H. destruct H as [H1 H2].
    rewrite replace_step by assumption. now rewrite IH.
Qed.

(** A pattern that occurs is replaced at least once: the pieces are two
    or more. *)
Lemma replace_present (s p r : str) :
  p <> [] -> str_in p s = true ->
  exists a b, replace s p r = a ++ r ++ b.
Proof.
  intros Hp Hin.
  destruct (replace_pieces s p Hp) as [gs [Hne [Hs [Hr Hall]]]].
  destruct gs as [|g rest]; [contradiction|].
  destruct rest as [|g' rest'].
  - simpl in Hs. subst g. apply Forall_inv in Hall. congruence.
  - exists g, (join r (g' :: rest')). rewrite Hr. reflexivity.
Qed.

Definition nonemptyb (x : str) : bool :=
  match x with [] => false | _ :: _ => true end.

Lemma nonemptyb_true (x : str) : nonemptyb x = true -> x <> [].
Proof. destruct x; [discriminate | intros _; discriminate]. Qed.

(** [x] and the replacement of [p] by [r] cannot interfere. *)
Definition keeps_check (x p r : str) : bool :=
  nonemptyb x && nonemptyb p && apart x p && apart x r.

Lemma keeps_replace (x p r s : str) :
  keeps_check x p r = true ->
  occurrences x (replace s p r) = occurrences x s.
Proof.
  unfold keeps_check. rewrite !andb_true_iff. intros [[[Hx Hp] Hap] Har].
  apply occurrences_replace_other.
  - now apply nonemptyb_true.
  - now apply nonemptyb_true.
  - now apply apart_isolated.
  - now apply apart_absent.
  - now apply apart_isolated.
  - now apply apart_absent.
Qed.

(** The replacement of [p] by [r] leaves no [p]. *)
Definition clears_check (p r : str) : bool := nonemptyb p && apart p r.

Lemma clears_replace (p r s : str) :
  clears_check p r = true -> occurrences p (replace s p r) = 0.
Proof.
  unfold clears_check. rewrite andb_true_iff. intros [Hp Ha].
  apply occurrences_replace_self.
  - now apply nonemptyb_true.
  - now apply apart_isolated.
  - now apply apart_absent.
Qed.

Lemma edges_clear_self (x : str) : edges_clear x x x = true -> Isolated x x.
Proof.
  intros H. apply (edges_clear_isolated x x x x H).
  - apply startswith_iff. exists []. now rewrite app_nil_r.
  - apply endswith_iff. now exists [].
Qed.

(** Replacing [p] by [r] adds one [r] for every [p] there was. *)
Definition fills_check (p r : str) : bool :=
  nonemptyb p && nonemptyb r && edges_clear p p p && edges_clear r r r && apart r p.

Lemma fills_replace (p r s : str) :
  fills_check p r = true ->
  occurrences r (replace s p r) = occurrences r s + occurrences p s.
Proof.
  unfold fills_check. rewrite !andb_true_iff. intros [[[[Hp Hr] Hpp] Hrr] Hrp].
  pose proof (occurrences_replace_count r s p r (nonemptyb_true p Hp)
                (edges_clear_self p Hpp) (apart_isolated r p Hrp)
                (edges_clear_self r Hrr)) as H.
  rewrite (occurrences_self r (nonemptyb_true r Hr)) in H.
  assert (H0 : occurrences r p = 0).
  { apply occurrences_zero; [now apply nonemptyb_true | now apply apart_absent]. }
  rewrite H0 in H. lia.
Qed.

(** [c'] is [c] with every occurrence of [p] traded for [r]: the pieces
    between the occurrences are the same on both sides, and there is one
    piece more than there are occurrences. *)
Definition every_occurrence (p r c c' : str) : Prop :=
  exists gs, c = join p gs /\ c' = join r gs /\
             Forall (fun g => str_in p g = false) gs /\
             length gs = S (occurrences p c).

Lemma replace_every (p r c : str) :
  nonemptyb p = true -> edges_clear p p p = true ->
  every_occurrence p r c (replace c p r).
Proof.
  intros Hp Hpp. apply nonemptyb_true in Hp.
  destruct (replace_pieces c p Hp) as [gs [Hne [Hs [Hr Hall]]]].
  exists gs. repeat split; try assumption; [apply Hr|].
  rewrite Hs at 1. rewrite occurrences_join by (try assumption; now apply edges_clear_self).
  rewrite occurrences_self by exact Hp.
  rewrite list_sum_zero.
  - destruct gs; [contradiction | simpl; lia].
  - eapply Forall_impl; [|exact Hall]. intros g Hg. now apply occurrences_zero.
Qed.

Lemma occurrences_absent (p s : str) :
  nonemptyb p = true -> str_in p s = false -> occurrences p s = 0.
Proof. intros Hp. apply occurrences_zero. now apply nonemptyb_true. Qed.

Lemma absent_occurrences (p s : str) :
  nonemptyb p = true -> occurrences p s = 0 -> str_in p s = false.
Proof. intros Hp. apply occurrences_zero. now apply nonemptyb_true. Qed.

(** *** What a replacement can contain *)

Lemma Forall_join (P : char -> Prop) (sep : str) (gs : list str) :
  Forall P sep -> Forall (Forall P) gs -> Forall P (join sep gs).
Proof.
  intros Hsep. induction 1 as [|g rest Hg Hrest IH]; [constructor|].
  destruct rest as [|g' rest']; [exact Hg|].
  rewrite join_cons by discriminate.
  apply Forall_app. split; [exact Hg|]. apply Forall_app. now split.
Qed.

Lemma Forall_pieces (P : char -> Prop) (sep : str) (gs : list str) :
  Forall P (join sep gs) -> Forall (Forall P) gs.
Proof.
  induction gs as [|g rest IH]; intros H; [constructor|].
  destruct rest as [|g' rest'].
  - constructor; [exact H | constructor].
  - rewrite join_cons in H by discriminate.
    apply Forall_app in H. destruct H as [Hg H].
    apply Forall_app in H. destruct H as [_ H].
    constructor; [exact Hg | now apply IH].
Qed.

Lemma Forall_replace (P : char -> Prop) (s p r : str) :
  p <> [] -> Forall P s -> Forall P r -> Forall P (replace s p r).
Proof.
  intros Hp Hs Hr.
  destruct (replace_pieces s p Hp) as [gs [_ [Es [Er _]]]].
  rewrite Er. apply Forall_join; [exact Hr|].
  apply (Forall_pieces P p). now rewrite <- Es.
Qed.

(** *** Edits confined to spans

    [Patched R c c']: [c'] is [c] with some disjoint spans rewritten, each
    span an occurrence of some [p] turned into [r] with [R p r]; every
    character outside the spans is kept, in place and in order. *)

Inductive Patched (R : str -> str -> Prop) : str -> str -> Prop :=
| Patched_nil : Patched R [] []
| Patched_keep (ch : char) (s s' : str) :
    Patched R s s' -> Patched R (ch :: s) (ch :: s')
| Patched_span (p r s s' : str) :
    R p r -> Patched R s s' -> Patched R (p ++ s) (r ++ s').

Lemma Patched_refl (R : str -> str -> Prop) (s : str) : Patched R s s.
Proof. induction s; constructor; assumption. Qed.

Lemma Patched_app (R : str -> str -> Prop) (a a' b b' : str) :
  Patched R a a' -> Patched R b b' -> Patched R (a ++ b) (a' ++ b').
Proof.
  induction 1 as [|ch s s' _ IH|p r s s' Hr _ IH]; intros Hb; simpl.
  - exact Hb.
  - constructor. now apply IH.
  - rewrite <- !app_assoc. constructor; [exact Hr | now apply IH].
Qed.

Lemma Patched_mono (R R' : str -> str -> Prop) (c c' : str) :
  (forall p r, R p r -> R' p r) -> Patched R c c' -> Patched R' c c'.
Proof.
  intros Hsub. induction 1; constructor; auto.
Qed.

Lemma Patched_joins (R : str -> str -> Prop) (p r : str) (gs : list str) :
  R p r -> Patched R (join p gs) (join r gs).
Proof.
  intros Hr. induction gs as [|g rest IH]; [constructor|].
  destruct rest as [|g' rest']; [apply Patched_refl|].
  rewrite !join_cons by discriminate.
  apply Patched_app; [apply Patched_refl|]. now constructor.
Qed.

Lemma Patched_replace (R : str -> str -> Prop) (s p r : str) :
  p <> [] -> R p r -> Patched R s (replace s p r).
Proof.
  intros Hp Hr.
  destruct (replace_pieces s p Hp) as [gs [_ [Es [Er _]]]].
  rewrite Er. rewrite Es at 1. now apply Patched_joins.
Qed.

(** The spans of an edit, in order: pattern, new text, and the kept text
    that follows. *)
Fixpoint spans_source (l : list (str * str * str)) : str :=
  match l with
  | [] => []
  | (p, _, g) :: rest => p ++ g ++ spans_source rest
  end.

Fixpoint spans_target (l : list (str * str * str)) : str :=
  match l with
  | [] => []
  | (_, r, g) :: rest => r ++ g ++ spans_target rest
  end.

Lemma Patched_spans (R : str -> str -> Prop) (c c' : str) :
  Patched R c c' ->
  exists g0 l, c = g0 ++ spans_source l /\ c' = g0 ++ spans_target l /\
               Forall (fun x => R (fst (fst x)) (snd (fst x))) l.
Proof.
  induction 1 as [|ch s s' _ [g0 [l [E1 [E2 Hl]]]]|p r s s' Hr _ [g0 [l [E1 [E2 Hl]]]]].
  - exists [], []. repeat split; constructor.
  - exists (ch :: g0), l. subst. repeat split; assumption.
  - exists [], ((p, r, g0) :: l). subst. repeat split. now constructor.
Qed.

(** A further replacement whose pattern cannot touch the texts already put
    in works between the earlier spans only, so the edit stays an edit of
    the original. *)
Lemma Patched_then_replace (R : str -> str -> Prop) (p r c c1 : str) :
  p <> [] ->
  (forall p' r', R p' r' -> apart p r' = true) ->
  Patched R c c1 ->
  Patched (fun a b => R a b \/ (a = p /\ b = r)) c (replace c1 p r).
Proof.
  intros Hp Hap H.
  destruct (Patched_spans R c c1 H) as [g0 [l [-> [-> Hl]]]]. clear H.
  revert g0. induction l as [|[[p1 r1] g1] rest IH]; intros g0.
  - simpl. rewrite !app_nil_r. apply Patched_replace; [exact Hp | now right].
  - apply Forall_cons_iff in Hl. destruct Hl as [H1 Hrest]. cbn [fst snd] in H1.
    specialize (IH Hrest).
    cbn [spans_source spans_target].
    specialize (Hap p1 r1 H1).
    rewrite replace_around;
      [| exact Hp | now apply apart_isolated | now apply apart_absent].
    apply Patched_app.
    + apply Patched_replace; [exact Hp | now right].
    + constructor; [now left | now apply IH].
Qed.

End PyStr.

(* ===================================================================== *)
(** ** The Python run time the engines rely on *)
(* ===================================================================== *)

Module Py.
Import PyStr.

Inductive exn :=
| FileNotFoundError
| IsADirectoryError
| UnicodeDecodeError
| UnicodeEncodeError
| ValueError
| AttributeError.

Inductive outcome (A : Type) :=
| Returns (a : A)
| Raises (e : exn).
Arguments Returns {A} a.
Arguments Raises {A} e.

(** *** [pathlib]: pure POSIX paths *)

Record Path := mkPath { root : str; parts : list str }.

Definition slash : char := 47%N.
Definition dot : char := 46%N.

Definition str_eqb (a b : str) : bool :=
  if list_eq_dec N.eq_dec a b then true else false.

Definition path_eqb (p q : Path) : bool :=
  str_eqb (root p) (root q) &&
  (if list_eq_dec (list_eq_dec N.eq_dec) (parts p) (parts q) then true else false).

(** [s.split(sep)] for a one-character separator. *)
Fixpoint split_on (sep : char) (s : str) : list str :=
  match s with
  | [] => [[]]
  | c :: t =>
      if N.eqb c sep then [] :: split_on sep t
      else match split_on sep t with
           | [] => [[c]]
           | g :: rest => (c :: g) :: rest
           end
  end.

Fixpoint leading (c : char) (s : str) : nat :=
  match s with
  | x :: t => if N.eqb x c then S (leading c t) else 0
  | [] => 0
  end.

(** [Path(s)]: one leading slash or three and more make the root ["/"],
    exactly two make ["//"]; empty components and ["."] are dropped. *)
Definition make_path (s : str) : Path :=
  {| root := match leading slash s with
             | 0 => []
             | 2 => [slash; slash]
             | _ => [slash]
             end;
     parts := filter (fun g => negb (str_eqb g []) && negb (str_eqb g [dot]))
                     (split_on slash s) |}.

(** [p.name] *)
Definition name (p : Path) : str := last (parts p) [].

(** [s.rfind(".")], [-1] when there is none. *)
Fixpoint rfind_dot (s : str) : Z :=
  match s with
  | [] => (-1)%Z
  | c :: t =>
      let i := rfind_dot t in
      if Z.leb 0 i then Z.succ i
      else if N.eqb c dot then 0%Z else (-1)%Z
  end.

(** [p.suffix] and [p.stem]: the name is cut at its last dot, unless that
    dot is the first or the last character. *)
Definition suffix (p : Path) : str :=
  let nm := name p in
  let i := rfind_dot nm in
  if Z.ltb 0 i && Z.ltb i (Z.of_nat (length nm) - 1)
  then skipn (Z.to_nat i) nm else [].

Definition stem (p : Path) : str :=
  let nm := name p in
  let i := rfind_dot nm in
  if Z.ltb 0 i && Z.ltb i (Z.of_nat (length nm) - 1)
  then firstn (Z.to_nat i) nm else nm.

(** [p.with_name(new)]: a path without a name cannot be renamed, and the
    new name has to be one path component. *)
Definition with_name (p : Path) (new : str) : outcome Path :=
  match name p with
  | [] => Raises ValueError
  | _ :: _ =>
      if str_eqb new [] || existsb (N.eqb slash) new || str_eqb new [dot]
      then Raises ValueError
      else Returns {| root := root p; parts := removelast (parts p) ++ [new] |}
  end.

(** [p.with_stem(new)] *)
Definition with_stem (p : Path) (new : str) : outcome Path :=
  with_name p (new ++ suffix p).

(** *** Text files: UTF-8 and newline translation *)

Definition byte := N.

Definition cont (b : byte) : bool := (N.leb 128 b && N.leb b 191)%N.

(** Strict UTF-8, as the [utf-8] codec decodes it: shortest forms only, no
    surrogates, nothing above U+10FFFF. *)
Fixpoint utf8_decode (bs : list byte) : option str :=
  match bs with
  | [] => Some []
  | b0 :: t =>
      if N.ltb b0 128 then option_map (cons b0) (utf8_decode t)
      else if N.leb 194 b0 && N.leb b0 223 then
        match t with
        | b1 :: t1 =>
            if cont b1
            then option_map (cons ((b0 - 192) * 64 + (b1 - 128))%N) (utf8_decode t1)
            else None
        | _ => None
        end
      else if N.leb 224 b0 && N.leb b0 239 then
        match t with
        | b1 :: b2 :: t2 =>
            if cont b1 && cont b2 &&
               negb (N.eqb b0 224 && N.ltb b1 160) &&
               negb (N.eqb b0 237 && N.leb 160 b1)
            then option_map
                   (cons ((b0 - 224) * 4096 + (b1 - 128) * 64 + (b2 - 128))%N)
                   (utf8_decode t2)
            else None
        | _ => None
        end
      else if N.leb 240 b0 && N.leb b0 244 then
        match t with
        | b1 :: b2 :: b3 :: t3 =>
            if cont b1 && cont b2 && cont b3 &&
               negb (N.eqb b0 240 && N.ltb b1 144) &&
               negb (N.eqb b0 244 && N.leb 144 b1)
            then option_map
                   (cons ((b0 - 240) * 262144 + (b1 - 128) * 4096 +
                          (b2 - 128) * 64 + (b3 - 128))%N)
                   (utf8_decode t3)
            else None
        | _ => None
        end
      else None
  end.

Definition utf8_encode_char (c : char) : option (list byte) :=
  (if c <? 128 then Some [c]
   else if c <? 2048 then Some [192 + c / 64; 128 + c mod 64]
   else if c <? 65536 then
     if (55296 <=? c) && (c <=? 57343) then None
     else Some [224 + c / 4096; 128 + (c / 64) mod 64; 128 + c mod 64]
   else if c <? 1114112 then
     Some [240 + c / 262144; 128 + (c / 4096) mod 64;
           128 + (c / 64) mod 64; 128 + c mod 64]
   else None)%N.

Fixpoint utf8_encode (s : str) : option (list byte) :=
  match s with
  | [] => Some []
  | c :: t =>
      match utf8_encode_char c, utf8_encode t with
      | Some bs, Some rest => Some (bs ++ rest)
      | _, _ => None
      end
  end.

Definition CR : char := 13%N.
Definition LF : char := 10%N.

(** Reading in text mode with the default [newline=None]: ["\r\n"] and a
    lone ["\r"] both arrive as ["\n"]. *)
Fixpoint universal_newlines (s : str) : str :=
  match s with
  | [] => []
  | c :: t =>
      if N.eqb c CR then
        match t with
        | c' :: t' =>
            if N.eqb c' LF then LF :: universal_newlines t'
            else LF :: universal_newlines t
        | [] => [LF]
        end
      else c :: universal_newlines t
  end.

(** Writing in text mode with the default [newline=None]: every ["\n"]
    leaves as [os.linesep]. *)
Fixpoint write_newlines (linesep : str) (s : str) : str :=
  match s with
  | [] => []
  | c :: t =>
      if N.eqb c LF then linesep ++ write_newlines linesep t
      else c :: write_newlines linesep t
  end.

(** *** The world outside the processor *)

Inductive level := INFO | WARNING.

(** The paths are POSIX paths, and on POSIX [os.linesep] is ["\n"]. *)
Definition os_linesep : str := [LF].

Record world := mkWorld {
  files : list (Path * list byte);   (* the file system, latest entry first *)
  opened : list Path;                (* every file opened for reading, in order *)
  logged : list (level * str)        (* records handed to [log], in order *)
}.

Fixpoint lookup (p : Path) (fs : list (Path * list byte)) : option (list byte) :=
  match fs with
  | [] => None
  | (q, data) :: rest => if path_eqb p q then Some data else lookup p rest
  end.

(** [path.read_text(encoding='utf-8')]: a path without a final component
    (["/"], ["."]) is a directory and cannot be opened as a file. *)
Definition read_text (p : Path) (w : world) : outcome str * world :=
  match name p with
  | [] => (Raises IsADirectoryError, w)
  | _ :: _ =>
      match lookup p (files w) with
      | None => (Raises FileNotFoundError, w)
      | Some data =>
          let w' := {| files := files w; opened := opened w ++ [p];
                       logged := logged w |} in
          match utf8_decode data with
          | None => (Raises UnicodeDecodeError, w')
          | Some s => (Returns (universal_newlines s), w')
          end
      end
  end.

Definition set_file (p : Path) (data : list byte) (w : world) : world :=
  {| files := (p, data) :: files w; opened := opened w; logged := logged w |}.

(** [path.write_text(data, encoding='utf-8')]: the file is created or
    truncated when it is opened, then the encoded text goes in. *)
Definition write_text (p : Path) (data : str) (w : world) : outcome unit * world :=
  match utf8_encode (write_newlines os_linesep data) with
  | None => (Raises UnicodeEncodeError, set_file p [] w)
  | Some bs => (Returns tt, set_file p bs w)
  end.

Definition log_record (l : level) (msg : str) (w : world) : world :=
  {| files := files w; opened := opened w; logged := logged w ++ [(l, msg)] |}.

(** *** Methods

    A method takes the state of its object and of the world and gives an
    outcome and the state reached; a raised exception ends the method and
    keeps the state reached so far. *)

Definition method (S A : Type) : Type := S -> outcome A * S.

Definition ret {S A} (a : A) : method S A := fun st => (Returns a, st).

Definition bind {S A B} (m : method S A) (k : A -> method S B) : method S B :=
  fun st =>
    match m st with
    | (Returns a, st') => k a st'
    | (Raises e, st') => (Raises e, st')
    end.

Definition raise {S A} (e : exn) : method S A := fun st => (Raises e, st).

(** [try: m  except Exception: handler] *)
Definition try_except {S A} (m handler : method S A) : method S A :=
  fun st =>
    match m st with
    | (Returns a, st') => (Returns a, st')
    | (Raises _, st') => handler st'
    end.

Declare Scope py_scope.
Delimit Scope py_scope with py.
Notation "x <- m ;; k" := (bind m (fun x => k))
  (at level 61, m at next level, right associativity) : py_scope.
Notation "m ;; k" := (bind m (fun _ => k))
  (at level 61, right associativity) : py_scope.

(** *** Facts about paths *)

Lemma str_eqb_eq (a b : str) : str_eqb a b = true <-> a = b.
Proof. unfold str_eqb. destruct (list_eq_dec N.eq_dec a b); split; congruence. Qed.

Lemma path_eqb_refl (p : Path) : path_eqb p p = true.
Proof.
  unfold path_eqb. rewrite (proj2 (str_eqb_eq _ _) eq_refl).
  now destruct (list_eq_dec (list_eq_dec N.eq_dec) (parts p) (parts p)).
Qed.

Lemma lookup_set_file (p : Path) (data : list byte) (w : world) :
  lookup p (files (set_file p data w)) = Some data.
Proof. simpl. now rewrite path_eqb_refl. Qed.

Lemma split_on_no_sep (sep : char) (s : str) :
  Forall (fun g => ~ In sep g) (split_on sep s).
Proof.
  induction s as [|c t IH]; simpl.
  - constructor; [intros [] | constructor].
  - destruct (N.eqb c sep) eqn:E.
    + constructor; [intros [] | exact IH].
    + destruct (split_on sep t) as [|g rest].
      * constructor; [|constructor]. intros [H | []]. subst.
        now rewrite N.eqb_refl in E.
      * apply Forall_cons_iff in IH. destruct IH as [Hg Hrest].
        constructor; [|exact Hrest]. intros [H | H]; [|now apply Hg].
        subst. now rewrite N.eqb_refl in E.
Qed.

(** A component of a parsed path is a proper file or directory name. *)
Lemma make_path_parts (s g : str) :
  In g (parts (make_path s)) -> g <> [] /\ g <> [dot] /\ ~ In slash g.
Proof.
  unfold make_path. cbn [parts]. rewrite filter_In. intros [Hin Hf].
  apply andb_true_iff in Hf. destruct Hf as [H1 H2].
  apply negb_true_iff in H1, H2. repeat split.
  - intros ->. rewrite (proj2 (str_eqb_eq _ _) eq_refl) in H1. discriminate.
  - intros ->. rewrite (proj2 (str_eqb_eq _ _) eq_refl) in H2. discriminate.
  - pose proof (split_on_no_sep slash s) as H. rewrite Forall_forall in H.
    now apply H.
Qed.

Lemma stem_suffix (p : Path) : stem p ++ suffix p = name p.
Proof.
  unfold stem, suffix.
  destruct (Z.ltb 0 (rfind_dot (name p)) &&
            Z.ltb (rfind_dot (name p)) (Z.of_nat (length (name p)) - 1)).
  - apply firstn_skipn.
  - apply app_nil_r.
Qed.

Lemma name_in_parts (p : Path) : name p <> [] -> In (name p) (parts p).
Proof.
  unfold name. destruct (parts p) as [|g rest] eqn:E; [contradiction|].
  intros _. destruct (exists_last (l := g :: rest) ltac:(discriminate)) as [l' [a Ha]].
  rewrite Ha, last_last. apply in_or_app. right. now left.
Qed.

(** Renaming a parsed path to its own stem gives the path back. *)
Lemma with_stem_same (s : str) :
  name (make_path s) <> [] ->
  with_stem (make_path s) (stem (make_path s)) = Returns (make_path s).
Proof.
  intros Hn. unfold with_stem. rewrite stem_suffix. unfold with_name.
  pose proof (name_in_parts _ Hn) as Hin.
  destruct (make_path_parts s _ Hin) as [H1 [H2 H3]].
  destruct (name (make_path s)) as [|x nm] eqn:E; [contradiction|].
  replace (str_eqb (x :: nm) []) with false
    by (symmetry; destruct (str_eqb (x :: nm) []) eqn:F; [apply str_eqb_eq in F; discriminate | reflexivity]).
  replace (str_eqb (x :: nm) [dot]) with false
    by (symmetry; destruct (str_eqb (x :: nm) [dot]) eqn:F; [apply str_eqb_eq in F; contradiction | reflexivity]).
  replace (existsb (N.eqb slash) (x :: nm)) with false.
  2:{ symmetry. destruct (existsb (N.eqb slash) (x :: nm)) eqn:F; [|reflexivity].
      apply existsb_exists in F. destruct F as [y [Hy Hs]].
      apply N.eqb_eq in Hs. subst y. contradiction. }
  cbn [orb]. f_equal.
  destruct (make_path s) as [rt ps] eqn:Em. cbn [root parts] in *. f_equal.
  unfold name in E. cbn [parts] in E.
  assert (Hps : ps <> []) by (intros ->; discriminate).
  rewrite <- E. symmetry. now apply app_removelast_last.
Qed.

(** *** Facts about the codec *)

(** Unicode scalar values: code points that are not surrogates. *)
Definition scalar (c : char) : bool :=
  (c <? 55296)%N || ((57343 <? c)%N && (c <? 1114112)%N).

Definition encodable (s : str) : Prop := Forall (fun c => scalar c = true) s.

Ltac bool_to_prop :=
  repeat match goal with
  | H : _ && _ = true |- _ => apply andb_true_iff in H; destruct H
  | H : _ || _ = true |- _ => apply orb_true_iff in H
  | H : negb _ = true |- _ => apply negb_true_iff in H
  | H : _ && _ = false |- _ => apply andb_false_iff in H
  | H : (_ <? _)%N = true |- _ => apply N.ltb_lt in H
  | H : (_ <? _)%N = false |- _ => apply N.ltb_ge in H
  | H : (_ <=? _)%N = true |- _ => apply N.leb_le in H
  | H : (_ <=? _)%N = false |- _ => apply N.leb_gt in H
  | H : (_ =? _)%N = true |- _ => apply N.eqb_eq in H
  | H : (_ =? _)%N = false |- _ => apply N.eqb_neq in H
  end.

Lemma scalar_iff (c : char) :
  scalar c = true <-> (c < 55296 \/ 57343 < c < 1114112)%N.
Proof.
  unfold scalar. rewrite orb_true_iff, andb_true_iff, !N.ltb_lt. tauto.
Qed.

Lemma utf8_encode_total (s : str) :
  encodable s -> exists bs, utf8_encode s = Some bs.
Proof.
  induction 1 as [|c t Hc _ [bs IH]]; [now exists []|].
  cbn [utf8_encode]. rewrite IH.
  apply scalar_iff in Hc. unfold utf8_encode_char.
  destruct (c <? 128)%N; [eauto|].
  destruct (c <? 2048)%N; [eauto|].
  destruct (c <? 65536)%N eqn:E3.
  - destruct ((55296 <=? c)%N && (c <=? 57343)%N) eqn:E; [|eauto].
    exfalso. bool_to_prop. lia.
  - destruct (c <? 1114112)%N eqn:E4; [eauto|].
    exfalso. bool_to_prop. lia.
Qed.

Lemma utf8_decode_scalar (bs : list byte) :
  forall s, utf8_decode bs = Some s -> encodable s.
Proof.
  remember (length bs) as n eqn:Hn. revert bs Hn.
  induction n as [n IH] using lt_wf_ind. intros bs Hn s.
  destruct bs as [|b0 t]; cbn [utf8_decode].
  { intros H. injection H as <-. constructor. }
  destruct (b0 <? 128)%N eqn:E0.
  { destruct (utf8_decode t) as [s'|] eqn:Et; [|discriminate].
    intros H. injection H as <-. constructor.
    - apply scalar_iff. bool_to_prop. lia.
    - apply (IH (length t)) with (bs := t); [subst n; simpl; lia | reflexivity | exact Et]. }
  destruct ((194 <=? b0)%N && (b0 <=? 223)%N) eqn:E1.
  { destruct t as [|b1 t1]; [discriminate|].
    destruct (cont b1) eqn:C1; [|discriminate].
    destruct (utf8_decode t1) as [s'|] eqn:Et; [|discriminate].
    intros H. injection H as <-. constructor.
    - apply scalar_iff. unfold cont in C1. bool_to_prop. lia.
    - apply (IH (length t1)) with (bs := t1); [subst n; simpl; lia | reflexivity | exact Et]. }
  destruct ((224 <=? b0)%N && (b0 <=? 239)%N) eqn:E2.
  { destruct t as [|b1 [|b2 t2]]; try discriminate.
    destruct (cont b1 && cont b2 && negb ((b0 =? 224)%N && (b1 <? 160)%N) &&
              negb ((b0 =? 237)%N && (160 <=? b1)%N)) eqn:C; [|discriminate].
    destruct (utf8_decode t2) as [s'|] eqn:Et; [|discriminate].
    intros H. injection H as <-. constructor.
    - apply scalar_iff. unfold cont in C. bool_to_prop.
      repeat match goal with H : _ \/ _ |- _ => destruct H end; bool_to_prop; lia.
    - apply (IH (length t2)) with (bs := t2); [subst n; simpl; lia | reflexivity | exact Et]. }
  destruct ((240 <=? b0)%N && (b0 <=? 244)%N) eqn:E3; [|discriminate].
  destruct t as [|b1 [|b2 [|b3 t3]]]; try discriminate.
  destruct (cont b1 && cont b2 && cont b3 &&
            negb ((b0 =? 240)%N && (b1 <? 144)%N) &&
            negb ((b0 =? 244)%N && (144 <=? b1)%N)) eqn:C; [|discriminate].
  destruct (utf8_decode t3) as [s'|] eqn:Et; [|discriminate].
  intros H. injection H as <-. constructor.
  - apply scalar_iff. unfold cont in C. bool_to_prop.
    repeat match goal with H : _ \/ _ |- _ => destruct H end; bool_to_prop; lia.
  - apply (IH (length t3)) with (bs := t3); [subst n; simpl; lia | reflexivity | exact Et].
Qed.

Lemma universal_newlines_encodable (s : str) :
  encodable s -> encodable (universal_newlines s).
Proof.
  remember (length s) as n eqn:Hn. revert s Hn.
  induction n as [n IH] using lt_wf_ind. intros s Hn Hs.
  destruct s as [|c t]; [constructor|]. cbn [universal_newlines].
  apply Forall_cons_iff in Hs. destruct Hs as [Hc Ht].
  destruct (N.eqb c CR).
  - destruct t as [|c' t']; [repeat constructor|].
    apply Forall_cons_iff in Ht. destruct Ht as [Hc' Ht'].
    destruct (N.eqb c' LF).
    + constructor; [reflexivity|].
      apply (IH (length t')); [subst n; simpl; lia | reflexivity | exact Ht'].
    + constructor; [reflexivity|].
      apply (IH (length (c' :: t'))); [subst n; simpl; lia | reflexivity |].
      now constructor.
  - constructor; [exact Hc|].
    apply (IH (length t)); [subst n; simpl; lia | reflexivity | exact Ht].
Qed.

(** On POSIX the newline translation on output changes nothing. *)
Lemma write_newlines_posix (s : str) : write_newlines os_linesep s = s.
Proof.
  induction s as [|c t IH]; [reflexivity|]. cbn [write_newlines].
  rewrite IH. destruct (N.eqb c LF) eqn:E; [|reflexivity].
  apply N.eqb_eq in E. now subst.
Qed.

End Py.

(* ===================================================================== *)
(** ** The literal-text engine, [src/parserv2.py] *)
(* ===================================================================== *)

Module ParserV2.
Import PyStr Py.

(** [class TagXML]: a pattern together with the text it is looked up in. *)
Record TagXML := mkTag { original_string : str; parent : str }.

Definition is_present (t : TagXML) : bool := str_in (original_string t) (parent t).

(** An [XMLHealthInvoiceProcessor] instance and the world it runs in. *)
Record state := mkState {
  input_path : Path;
  _content : option str;
  env : world
}.

(** The methods of the class, as computations on this state. *)
Definition M (A : Type) : Type := method state A.

Local Open Scope py_scope.

Definition with_env (w : world) (st : state) : state :=
  {| input_path := input_path st; _content := _content st; env := w |}.

Definition with_content (c : str) (st : state) : state :=
  {| input_path := input_path st; _content := Some c; env := env st |}.

(** [__init__] *)
Definition init (path : str) (w : world) : state :=
  {| input_path := make_path path; _content := None; env := w |}.

(** The [content] property: the file is read on the first access only. *)
Definition content : M str :=
  fun st =>
    match _content st with
    | Some c => (Returns c, st)
    | None =>
        match read_text (input_path st) (env st) with
        | (Returns c, w) => (Returns c, with_content c (with_env w st))
        | (Raises e, w) => (Raises e, with_env w st)
        end
    end.

(** The [content] setter. *)
Definition set_content (value : str) : M unit :=
  fun st => (Returns tt, with_content value st).

Definition log_warning (msg : str) : M unit :=
  fun st => (Returns tt, with_env (log_record WARNING msg (env st)) st).

(** *** The patterns *)

Definition name_then_value (nm value : str) : str :=
  lit "<Name>" ++ nm ++ lit "</Name>" ++ nl ++ spaces 18 ++ value.

Definition value_array : str := lit "<Value>Array</Value>".

Definition scheme_value (id scheme text : str) : str :=
  lit "<Value schemeID=" ++ dquote ++ id ++ dquote ++
  lit " schemeName=" ++ dquote ++ scheme ++ dquote ++ lit ">" ++
  text ++ lit "</Value>".

Definition codigo_prestador_string : str :=
  name_then_value (lit "CODIGO_PRESTADOR") value_array.

Definition modalidad_pago_string : str :=
  name_then_value (lit "MODALIDAD_PAGO")
    (scheme_value (lit "Array") (lit "salud_modalidad_pago.gc") []).

Definition cobertura_string : str :=
  name_then_value (lit "COBERTURA_PLAN_BENEFICIOS")
    (scheme_value (lit "Array") (lit "salud_cobertura.gc") []).

Definition numero_contrato_string : str :=
  name_then_value (lit "NUMERO_CONTRATO") value_array.

Definition numero_poliza_string : str :=
  name_then_value (lit "NUMERO_POLIZA") value_array.

Definition evento_pbs_subsidiado_string : str :=
  lit "<ipt:Valor>Evento PBS Subsidiado</ipt:Valor>".
Definition evento_pbs_string : str := lit "Evento PBS".
Definition evento_no_pbs_string : str := lit "Evento NO PBS".
Definition invoice_period_open : str := lit "<cac:InvoicePeriod>".
Definition subsidiado_string : str := lit "Subsidiado".
Definition contributivo_string : str := lit "Contributivo".
Definition line_counter_numeric_string : str := lit "</cbc:LineCountNumeric>".

(** The properties that wrap a pattern and the current content. *)
Definition tag_of (pattern : str) : M TagXML :=
  c <- content ;; ret {| original_string := pattern; parent := c |}.

Definition codigo_prestador : M TagXML := tag_of codigo_prestador_string.
Definition modalidad_pago : M TagXML := tag_of modalidad_pago_string.
Definition cobertura : M TagXML := tag_of cobertura_string.
Definition numero_contrato : M TagXML := tag_of numero_contrato_string.
Definition numero_poliza : M TagXML := tag_of numero_poliza_string.
Definition evento_pbs_subsidiado : M TagXML := tag_of evento_pbs_subsidiado_string.
Definition evento_pbs : M TagXML := tag_of evento_pbs_string.
Definition evento_no_pbs : M TagXML := tag_of evento_no_pbs_string.
Definition line_counter_numeric : M TagXML := tag_of line_counter_numeric_string.

Definition is_invoice_period_present : M bool :=
  c <- content ;; ret (str_in invoice_period_open c).

Definition is_subsidiado_present : M bool :=
  c <- content ;; ret (str_in subsidiado_string c).

Definition is_contributivo_present : M bool :=
  c <- content ;; ret (str_in contributivo_string c).

(** [getattr(self, attr)] followed by [.original_string]: only the
    [TagXML] properties have that attribute. *)
Definition getattr_tag (attr : String.string) : M TagXML :=
  if String.eqb attr "codigo_prestador"%string then codigo_prestador
  else if String.eqb attr "modalidad_pago"%string then modalidad_pago
  else if String.eqb attr "cobertura"%string then cobertura
  else if String.eqb attr "numero_contrato"%string then numero_contrato
  else if String.eqb attr "numero_poliza"%string then numero_poliza
  else if String.eqb attr "evento_pbs_subsidiado"%string then evento_pbs_subsidiado
  else if String.eqb attr "evento_pbs"%string then evento_pbs
  else if String.eqb attr "evento_no_pbs"%string then evento_no_pbs
  else if String.eqb attr "line_counter_numeric"%string then line_counter_numeric
  else raise AttributeError.

Definition update_content (attr : String.string) (new_string : str) : M unit :=
  attr_obj <- getattr_tag attr ;;
  c <- content ;;
  set_content (replace c (original_string attr_obj) new_string).
Arguments update_content attr%_string new_string.

(** *** The issue date: [re.search(r'FecFac: (\d{4}-\d{2}-\d{2})', content)] *)

Section IssueDate.

(** [\d] on a [str] pattern matches the Unicode decimal digits; which code
    points those are is the interpreter's table, a parameter here. *)
Variable is_digit : char -> bool.

Definition hyphen : char := 45%N.

(** [\d{4}-\d{2}-\d{2}] at the head of [s]. *)
Definition date_at (s : str) : option str :=
  match s with
  | y1 :: y2 :: y3 :: y4 :: h1 :: m1 :: m2 :: h2 :: d1 :: d2 :: _ =>
      if is_digit y1 && is_digit y2 && is_digit y3 && is_digit y4 &&
         N.eqb h1 hyphen && is_digit m1 && is_digit m2 &&
         N.eqb h2 hyphen && is_digit d1 && is_digit d2
      then Some [y1; y2; y3; y4; h1; m1; m2; h2; d1; d2]
      else None
  | _ => None
  end.

Definition fecfac : str := lit "FecFac: ".

Definition match_at (s : str) : option str :=
  if startswith s fecfac then date_at (skipn (length fecfac) s) else None.

(** The leftmost match wins; its group 1 is returned. *)
Fixpoint re_search_fecfac (s : str) : option str :=
  match match_at s with
  | Some d => Some d
  | None =>
      match s with
      | [] => None
      | _ :: t => re_search_fecfac t
      end
  end.

Definition issue_date : M (option str) :=
  c <- content ;; ret (re_search_fecfac c).

(** Truth value of [str | None]. *)
Definition truthy (v : option str) : bool :=
  match v with
  | Some (_ :: _) => true
  | _ => false
  end.

(** *** The rules *)

Definition logic_codigo_prestador : M unit :=
  t <- codigo_prestador ;;
  if is_present t then
    t' <- codigo_prestador ;;
    let new_string :=
      replace (original_string t') (lit "<Value>Array</Value>")
              (lit "<Value>0800185010</Value>") in
    update_content "codigo_prestador" new_string
  else ret tt.

Definition logic_modalidad_pago : M unit :=
  t <- modalidad_pago ;;
  if is_present t then
    t' <- modalidad_pago ;;
    let new_string :=
      replace (original_string t')
              (scheme_value (lit "Array") (lit "salud_modalidad_pago.gc") [])
              (scheme_value (lit "04") (lit "salud_modalidad_pago.gc")
                            (lit "Pago por evento")) in
    update_content "modalidad_pago" new_string
  else ret tt.

Definition presupuesto_maximo : str := lit "Presupuesto m" ++ [225%N] ++ lit "ximo".

Definition logic_cobertura : M unit :=
  t <- cobertura ;;
  if is_present t then
    let finish (text : str) : M unit :=
      t' <- cobertura ;;
      let new_string :=
        replace (original_string t')
                (scheme_value (lit "Array") (lit "salud_cobertura.gc") []) text in
      update_content "cobertura" new_string in
    no_pbs <- evento_no_pbs ;;
    if is_present no_pbs then
      finish (scheme_value (lit "02") (lit "salud_cobertura.gc") presupuesto_maximo)
    else
      pbs <- evento_pbs ;;
      if is_present pbs then
        finish (scheme_value (lit "01") (lit "salud_cobertura.gc")
                  (lit "Plan de beneficios en salud financiado con UPC"))
      else ret tt
  else ret tt.

Definition logic_numero_contrato : M unit :=
  t <- numero_contrato ;;
  if is_present t then
    let finish (new_string : str) : M unit :=
      t' <- numero_contrato ;;
      let new_string :=
        replace (original_string t') (lit "<Value>Array</Value>") new_string in
      update_content "numero_contrato" new_string in
    subsidiado <- is_subsidiado_present ;;
    if subsidiado then finish (lit "<Value>10787</Value>")
    else
      contributivo <- is_contributivo_present ;;
      if contributivo then finish (lit "<Value>3672</Value>")
      else ret tt
  else ret tt.

Definition logic_numero_poliza : M unit :=
  t <- numero_poliza ;;
  if is_present t then
    t' <- numero_poliza ;;
    let new_string :=
      replace (original_string t') (lit "<Value>Array</Value>")
              (lit "<Value>NA</Value>") in
    update_content "numero_poliza" new_string
  else ret tt.

Definition warning_no_line_count : str :=
  lit "No fue posible complementar invoicePeriod por que no se detect" ++
  [243%N] ++ lit " el 'LineCountNumeric'".

Definition warning_no_issue_date : str :=
  lit "No fue posible complementar invoicePeriod por que no se detect" ++
  [243%N] ++ lit " el 'IssueDate'".

(** The text put in place of the anchor: the anchor itself, then the block. *)
Definition new_invoice_period (anchor date : str) : str :=
  anchor ++ nl ++
  lit "<cac:InvoicePeriod>" ++ nl ++
  lit " <cbc:StartDate>" ++ date ++ lit "</cbc:StartDate>" ++ nl ++
  lit " <cbc:StartTime>12:00:00</cbc:StartTime>" ++ nl ++
  lit " <cbc:EndDate>" ++ date ++ lit "</cbc:EndDate>" ++ nl ++
  lit " <cbc:EndTime>11:59:59</cbc:EndTime>" ++ nl ++
  lit "</cac:InvoicePeriod>".

Definition logic_invoice_period : M unit :=
  present <- is_invoice_period_present ;;
  if present then ret tt
  else
    l <- line_counter_numeric ;;
    if negb (is_present l) then log_warning warning_no_line_count
    else
      date <- issue_date ;;
      if negb (truthy date) then log_warning warning_no_issue_date
      else
        l' <- line_counter_numeric ;;
        update_content "line_counter_numeric"
          (new_invoice_period (original_string l')
             (match date with Some d => d | None => [] end)).

(** [process_all] has no [return]: the caller gets [None]. *)
Definition process_all : M unit :=
  logic_cobertura ;;
  logic_codigo_prestador ;;
  logic_modalidad_pago ;;
  logic_numero_contrato ;;
  logic_numero_poliza ;;
  logic_invoice_period.

(** [save(output_path=None)] *)
Definition save (output_path : option str) : M Path :=
  fun st =>
    let target :=
      match output_path with
      | None => with_stem (input_path st) (stem (input_path st))
      | Some o => Returns (make_path o)
      end in
    match target with
    | Raises e => (Raises e, st)
    | Returns out =>
        (c <- content ;;
         (fun st' => let (r, w) := write_text out c (env st') in
                     match r with
                     | Returns _ => (Returns out, with_env w st')
                     | Raises e => (Raises e, with_env w st')
                     end)) st
    end.

(** *** What the rules do to the text

    Each rule, read as a function of the content it finds; [process_all_runs]
    below shows that the methods compute exactly these. *)

Definition codigo_prestador_new : str :=
  replace codigo_prestador_string (lit "<Value>Array</Value>")
          (lit "<Value>0800185010</Value>").

Definition modalidad_pago_new : str :=
  replace modalidad_pago_string
          (scheme_value (lit "Array") (lit "salud_modalidad_pago.gc") [])
          (scheme_value (lit "04") (lit "salud_modalidad_pago.gc")
                        (lit "Pago por evento")).

Definition cobertura_new (text : str) : str :=
  replace cobertura_string
          (scheme_value (lit "Array") (lit "salud_cobertura.gc") []) text.

Definition cobertura_02 : str :=
  cobertura_new (scheme_value (lit "02") (lit "salud_cobertura.gc") presupuesto_maximo).

Definition cobertura_01 : str :=
  cobertura_new (scheme_value (lit "01") (lit "salud_cobertura.gc")
                   (lit "Plan de beneficios en salud financiado con UPC")).

Definition numero_contrato_new (value : str) : str :=
  replace numero_contrato_string (lit "<Value>Array</Value>") value.

Definition contrato_10787 : str := numero_contrato_new (lit "<Value>10787</Value>").
Definition contrato_3672 : str := numero_contrato_new (lit "<Value>3672</Value>").

Definition numero_poliza_new : str :=
  replace numero_poliza_string (lit "<Value>Array</Value>") (lit "<Value>NA</Value>").

Definition cobertura_text (c : str) : str :=
  if str_in cobertura_string c then
    if str_in evento_no_pbs_string c then replace c cobertura_string cobertura_02
    else if str_in evento_pbs_string c then replace c cobertura_string cobertura_01
    else c
  else c.

Definition codigo_prestador_text (c : str) : str :=
  if str_in codigo_prestador_string c
  then replace c codigo_prestador_string codigo_prestador_new else c.

Definition modalidad_pago_text (c : str) : str :=
  if str_in modalidad_pago_string c
  then replace c modalidad_pago_string modalidad_pago_new else c.

Definition numero_contrato_text (c : str) : str :=
  if str_in numero_contrato_string c then
    if str_in subsidiado_string c then replace c numero_contrato_string contrato_10787
    else if str_in contributivo_string c then replace c numero_contrato_string contrato_3672
    else c
  else c.

Definition numero_poliza_text (c : str) : str :=
  if str_in numero_poliza_string c
  then replace c numero_poliza_string numero_poliza_new else c.

Definition invoice_period_text (c : str) : str :=
  if str_in invoice_period_open c then c
  else if negb (str_in line_counter_numeric_string c) then c
  else match re_search_fecfac c with
       | Some (x :: d) =>
           replace c line_counter_numeric_string
                   (new_invoice_period line_counter_numeric_string (x :: d))
       | _ => c
       end.

Definition invoice_period_warnings (c : str) : list (level * str) :=
  if str_in invoice_period_open c then []
  else if negb (str_in line_counter_numeric_string c)
       then [(WARNING, warning_no_line_count)]
  else match re_search_fecfac c with
       | Some (_ :: _) => []
       | _ => [(WARNING, warning_no_issue_date)]
       end.

Definition field_rules_text (c : str) : str :=
  numero_poliza_text
    (numero_contrato_text
       (modalidad_pago_text
          (codigo_prestador_text
             (cobertura_text c)))).

Definition process_all_text (c : str) : str :=
  invoice_period_text (field_rules_text c).

Definition add_logs (l : list (level * str)) (w : world) : world :=
  {| files := files w; opened := opened w; logged := logged w ++ l |}.

End IssueDate.

(** *** The methods compute the text functions *)

Section Runs.

Variable is_digit : char -> bool.

Lemma add_logs_nil (w : world) : add_logs [] w = w.
Proof. destruct w. unfold add_logs. simpl. now rewrite app_nil_r. Qed.

Lemma bind_content_loaded {B} (k : str -> M B) (p : Path) (c : str) (w : world) :
  bind content k (mkState p (Some c) w) = k c (mkState p (Some c) w).
Proof. reflexivity. Qed.

Lemma bind_tag_loaded {B} (pat : str) (k : TagXML -> M B)
      (p : Path) (c : str) (w : world) :
  bind (tag_of pat) k (mkState p (Some c) w)
  = k (mkTag pat c) (mkState p (Some c) w).
Proof. reflexivity. Qed.

Lemma update_content_loaded (attr : String.string) (pat new_string : str)
      (p : Path) (c : str) (w : world) :
  getattr_tag attr = tag_of pat ->
  update_content attr new_string (mkState p (Some c) w)
  = (Returns tt, mkState p (Some (replace c pat new_string)) w).
Proof. intros H. unfold update_content. rewrite H. reflexivity. Qed.

Ltac loaded_step :=
  first [ rewrite bind_tag_loaded | rewrite bind_content_loaded ];
  cbv zeta; unfold is_present; cbn [original_string parent].

Lemma logic_cobertura_runs (p : Path) (c : str) (w : world) :
  logic_cobertura (mkState p (Some c) w)
  = (Returns tt, mkState p (Some (cobertura_text c)) w).
Proof.
  unfold logic_cobertura, cobertura_text, cobertura, evento_no_pbs, evento_pbs.
  loaded_step.
  destruct (str_in cobertura_string c); [|reflexivity].
  loaded_step.
  destruct (str_in evento_no_pbs_string c).
  { loaded_step. now apply update_content_loaded. }
  loaded_step.
  destruct (str_in evento_pbs_string c); [|reflexivity].
  loaded_step. now apply update_content_loaded.
Qed.

Lemma logic_codigo_prestador_runs (p : Path) (c : str) (w : world) :
  logic_codigo_prestador (mkState p (Some c) w)
  = (Returns tt, mkState p (Some (codigo_prestador_text c)) w).
Proof.
  unfold logic_codigo_prestador, codigo_prestador_text, codigo_prestador.
  loaded_step.
  destruct (str_in codigo_prestador_string c); [|reflexivity].
  loaded_step. now apply update_content_loaded.
Qed.

Lemma logic_modalidad_pago_runs (p : Path) (c : str) (w : world) :
  logic_modalidad_pago (mkState p (Some c) w)
  = (Returns tt, mkState p (Some (modalidad_pago_text c)) w).
Proof.
  unfold logic_modalidad_pago, modalidad_pago_text, modalidad_pago.
  loaded_step.
  destruct (str_in modalidad_pago_string c); [|reflexivity].
  loaded_step. now apply update_content_loaded.
Qed.

Lemma logic_numero_contrato_runs (p : Path) (c : str) (w : world) :
  logic_numero_contrato (mkState p (Some c) w)
  = (Returns tt, mkState p (Some (numero_contrato_text c)) w).
Proof.
  unfold logic_numero_contrato, numero_contrato_text, numero_contrato,
    is_subsidiado_present, is_contributivo_present.
  loaded_step.
  destruct (str_in numero_contrato_string c); [|reflexivity].
  unfold bind at 1. loaded_step. unfold ret at 1.
  destruct (str_in subsidiado_string c).
  { loaded_step. now apply update_content_loaded. }
  unfold bind at 1. loaded_step. unfold ret at 1.
  destruct (str_in contributivo_string c); [|reflexivity].
  loaded_step. now apply update_content_loaded.
Qed.

Lemma logic_numero_poliza_runs (p : Path) (c : str) (w : world) :
  logic_numero_poliza (mkState p (Some c) w)
  = (Returns tt, mkState p (Some (numero_poliza_text c)) w).
Proof.
  unfold logic_numero_poliza, numero_poliza_text, numero_poliza.
  loaded_step.
  destruct (str_in numero_poliza_string c); [|reflexivity].
  loaded_step. now apply update_content_loaded.
Qed.

Lemma logic_invoice_period_runs (p : Path) (c : str) (w : world) :
  logic_invoice_period is_digit (mkState p (Some c) w)
  = (Returns tt, mkState p (Some (invoice_period_text is_digit c))
                   (add_logs (invoice_period_warnings is_digit c) w)).
Proof.
  unfold logic_invoice_period, invoice_period_text, invoice_period_warnings,
    is_invoice_period_present, line_counter_numeric, issue_date.
  unfold bind at 1. loaded_step. unfold ret at 1.
  destruct (str_in invoice_period_open c).
  { unfold ret. now rewrite add_logs_nil. }
  loaded_step.
  destruct (str_in line_counter_numeric_string c); cbn [negb].
  2:{ reflexivity. }
  unfold bind at 1. loaded_step. unfold ret at 1.
  destruct (re_search_fecfac is_digit c) as [[|x d]|]; cbn [truthy negb].
  - reflexivity.
  - loaded_step. rewrite add_logs_nil. now apply update_content_loaded.
  - reflexivity.
Qed.

(** With the content loaded, [process_all] returns [None], leaves the
    patched text in the cache and touches the world only to log. *)
Lemma process_all_runs (p : Path) (c : str) (w : world) :
  process_all is_digit (mkState p (Some c) w)
  = (Returns tt,
     mkState p (Some (process_all_text is_digit c))
       (add_logs (invoice_period_warnings is_digit (field_rules_text c)) w)).
Proof.
  unfold process_all, process_all_text, field_rules_text.
  unfold bind at 1. rewrite logic_cobertura_runs.
  unfold bind at 1. rewrite logic_codigo_prestador_runs.
  unfold bind at 1. rewrite logic_modalidad_pago_runs.
  unfold bind at 1. rewrite logic_numero_contrato_runs.
  unfold bind at 1. rewrite logic_numero_poliza_runs.
  apply logic_invoice_period_runs.
Qed.

End Runs.

(** *** From a processor that has not read its file yet

    Every method starts by looking at [content]; when the cache is empty
    that first look reads the file, and the method then runs as it does on
    the loaded processor. *)

Definition Loads {A} (m : M A) : Prop :=
  forall p w,
    m (mkState p None w)
    = match read_text p w with
      | (Returns c, w') => m (mkState p (Some c) w')
      | (Raises e, w') => (Raises e, mkState p None w')
      end.

Lemma content_loads : Loads content.
Proof.
  intros p w. unfold content. cbn [_content input_path env].
  now destruct (read_text p w) as [[c|e] w'].
Qed.

Lemma bind_loads {A B} (m : M A) (k : A -> M B) : Loads m -> Loads (bind m k).
Proof.
  intros H p w. unfold bind. rewrite H.
  now destruct (read_text p w) as [[c|e] w'].
Qed.






Lemma logic_invoice_period_loads (is_digit : char -> bool) :
  Loads (logic_invoice_period is_digit).
Proof. repeat apply bind_loads. apply content_loads. Qed.

Lemma process_all_loads_content (is_digit : char -> bool) :
  Loads (process_all is_digit).
Proof. repeat apply bind_loads. apply content_loads. Qed.

(** [sees st c]: the text the processor works on is [c], cached already or
    read from its file at the first look. *)
Definition sees (st : state) (c : str) : Prop := fst (content st) = Returns c.

(** [w'] is [w] after the file at [p] was read [n] times, and nothing else. *)
Definition read_only (p : Path) (n : nat) (w w' : world) : Prop :=
  files w' = files w /\ logged w' = logged w /\
  opened w' = opened w ++ repeat p n.

Definition reads_needed (st : state) : nat :=
  match _content st with Some _ => 0 | None => 1 end.

Lemma loads_sees {A} (m : M A) (st : state) (c : str) :
  Loads m -> sees st c ->
  exists w', m st = m (mkState (input_path st) (Some c) w') /\
             read_only (input_path st) (reads_needed st) (env st) w'.
Proof.
  intros Hm Hs. destruct st as [p [c0|] w]; unfold sees, content in Hs;
    cbn [_content input_path env fst] in *.
  - injection Hs as ->. exists w. split; [reflexivity|].
    unfold read_only, reads_needed. cbn. now rewrite app_nil_r.
  - rewrite Hm. unfold reads_needed. cbn [_content].
    unfold read_text in *.
    destruct (name p); [discriminate|].
    destruct (lookup p (files w)) as [data|]; [|discriminate].
    destruct (utf8_decode data) as [txt|]; [|discriminate].
    cbn in Hs. injection Hs as <-.
    eexists. split; [reflexivity|]. unfold read_only. cbn. auto.
Qed.


Lemma codigo_prestador_text_eq (c : str) :
  codigo_prestador_text c = replace c codigo_prestador_string codigo_prestador_new.
Proof.
  unfold codigo_prestador_text.
  destruct (str_in codigo_prestador_string c) eqn:E; [reflexivity|].
  symmetry. now apply replace_absent.
Qed.

Lemma modalidad_pago_text_eq (c : str) :
  modalidad_pago_text c = replace c modalidad_pago_string modalidad_pago_new.
Proof.
  unfold modalidad_pago_text.
  destruct (str_in modalidad_pago_string c) eqn:E; [reflexivity|].
  symmetry. now apply replace_absent.
Qed.

Lemma numero_poliza_text_eq (c : str) :
  numero_poliza_text c = replace c numero_poliza_string numero_poliza_new.
Proof.
  unfold numero_poliza_text.
  destruct (str_in numero_poliza_string c) eqn:E; [reflexivity|].
  symmetry. now apply replace_absent.
Qed.

Lemma cobertura_text_eq (c : str) :
  cobertura_text c =
  if str_in evento_no_pbs_string c then replace c cobertura_string cobertura_02
  else if str_in evento_pbs_string c then replace c cobertura_string cobertura_01
  else c.
Proof.
  unfold cobertura_text.
  destruct (str_in cobertura_string c) eqn:E; [reflexivity|].
  rewrite !replace_absent by (assumption || discriminate).
  now repeat destruct (str_in _ c).
Qed.

Lemma numero_contrato_text_eq (c : str) :
  numero_contrato_text c =
  if str_in subsidiado_string c then replace c numero_contrato_string contrato_10787
  else if str_in contributivo_string c then replace c numero_contrato_string contrato_3672
  else c.
Proof.
  unfold numero_contrato_text.
  destruct (str_in numero_contrato_string c) eqn:E; [reflexivity|].
  rewrite !replace_absent by (assumption || discriminate).
  now repeat destruct (str_in _ c).
Qed.

Lemma codigo_prestador_keeps (x c : str) :
  keeps_check x codigo_prestador_string codigo_prestador_new = true ->
  occurrences x (codigo_prestador_text c) = occurrences x c.
Proof. intros H. rewrite codigo_prestador_text_eq. now apply keeps_replace. Qed.

Lemma modalidad_pago_keeps (x c : str) :
  keeps_check x modalidad_pago_string modalidad_pago_new = true ->
  occurrences x (modalidad_pago_text c) = occurrences x c.
Proof. intros H. rewrite modalidad_pago_text_eq. now apply keeps_replace. Qed.

Lemma numero_poliza_keeps (x c : str) :
  keeps_check x numero_poliza_string numero_poliza_new = true ->
  occurrences x (numero_poliza_text c) = occurrences x c.
Proof. intros H. rewrite numero_poliza_text_eq. now apply keeps_replace. Qed.

Lemma cobertura_keeps (x c : str) :
  keeps_check x cobertura_string cobertura_02 = true ->
  keeps_check x cobertura_string cobertura_01 = true ->
  occurrences x (cobertura_text c) = occurrences x c.
Proof.
  intros H2 H1. rewrite cobertura_text_eq.
  destruct (str_in evento_no_pbs_string c); [now apply keeps_replace|].
  destruct (str_in evento_pbs_string c); [now apply keeps_replace | reflexivity].
Qed.

Lemma numero_contrato_keeps (x c : str) :
  keeps_check x numero_contrato_string contrato_10787 = true ->
  keeps_check x numero_contrato_string contrato_3672 = true ->
  occurrences x (numero_contrato_text c) = occurrences x c.
Proof.
  intros H2 H1. rewrite numero_contrato_text_eq.
  destruct (str_in subsidiado_string c); [now apply keeps_replace|].
  destruct (str_in contributivo_string c); [now apply keeps_replace | reflexivity].
Qed.

(** The block, cut at the two places where the date goes. *)
Definition block_head : str :=
  nl ++ lit "<cac:InvoicePeriod>" ++ nl ++ lit " <cbc:StartDate>".
Definition block_mid : str :=
  lit "</cbc:StartDate>" ++ nl ++
  lit " <cbc:StartTime>12:00:00</cbc:StartTime>" ++ nl ++ lit " <cbc:EndDate>".
Definition block_tail : str :=
  lit "</cbc:EndDate>" ++ nl ++
  lit " <cbc:EndTime>11:59:59</cbc:EndTime>" ++ nl ++ lit "</cac:InvoicePeriod>".

Lemma new_invoice_period_cut (anchor d : str) :
  new_invoice_period anchor d
  = (anchor ++ block_head) ++ d ++ block_mid ++ d ++ block_tail.
Proof.
  unfold new_invoice_period, block_head, block_mid, block_tail.
  repeat rewrite <- app_assoc. reflexivity.
Qed.

Section Dates.

Variable is_digit : char -> bool.

(** Whatever else the interpreter's table of decimal digits holds, its
    ASCII part is [0-9]. *)
Hypothesis is_digit_ascii :
  forall ch, (ch < 128)%N -> is_digit ch = (N.leb 48 ch && N.leb ch 57)%N.

Definition date_char (ch : char) : bool := is_digit ch || N.eqb ch hyphen.

Lemma date_at_shape (s d : str) :
  date_at is_digit s = Some d ->
  length d = 10 /\ Forall (fun ch => date_char ch = true) d.
Proof.
  unfold date_at.
  destruct s as [|y1 [|y2 [|y3 [|y4 [|h1 [|m1 [|m2 [|h2 [|d1 [|d2 s]]]]]]]]]];
    try discriminate.
  destruct (is_digit y1 && is_digit y2 && is_digit y3 && is_digit y4 &&
            N.eqb h1 hyphen && is_digit m1 && is_digit m2 &&
            N.eqb h2 hyphen && is_digit d1 && is_digit d2) eqn:E; [|discriminate].
  intros H. injection H as <-. split; [reflexivity|].
  repeat (apply andb_true_iff in E; destruct E as [E ?]).
  unfold date_char. repeat constructor;
    solve [ rewrite orb_true_iff; left; assumption
          | rewrite orb_true_iff; right; assumption ].
Qed.

Lemma re_search_shape (c d : str) :
  re_search_fecfac is_digit c = Some d ->
  length d = 10 /\ Forall (fun ch => date_char ch = true) d.
Proof.
  induction c as [|x c IH]; cbn [re_search_fecfac]; unfold match_at.
  - destruct (startswith [] fecfac); [|discriminate].
    destruct (date_at is_digit (skipn (length fecfac) [])) eqn:E; [|discriminate].
    intros H. injection H as <-. now apply date_at_shape in E.
  - destruct (startswith (x :: c) fecfac).
    + destruct (date_at is_digit (skipn (length fecfac) (x :: c))) eqn:E.
      * intros H. injection H as <-. now apply date_at_shape in E.
      * exact IH.
    + exact IH.
Qed.

(** ASCII characters that are neither digits nor the hyphen. *)
Definition plain_ascii (y : str) : bool :=
  forallb (fun ch => N.ltb ch 128 && negb (N.leb 48 ch && N.leb ch 57) &&
                     negb (N.eqb ch hyphen)) y.

Lemma plain_ascii_foreign (y d : str) :
  plain_ascii y = true -> Forall (fun ch => date_char ch = true) d ->
  forall ch, In ch y -> ~ In ch d.
Proof.
  intros Hy Hd ch Hin Hind.
  unfold plain_ascii in Hy. rewrite forallb_forall in Hy.
  specialize (Hy ch Hin). rewrite Forall_forall in Hd. specialize (Hd ch Hind).
  rewrite !andb_true_iff in Hy. destruct Hy as [[Hlt Hnd] Hnh].
  apply N.ltb_lt in Hlt. unfold date_char in Hd.
  rewrite (is_digit_ascii ch Hlt) in Hd.
  apply negb_true_iff in Hnd, Hnh. rewrite Hnd, Hnh in Hd. discriminate.
Qed.

(** [x], through a piece [y] of it that holds no date character, cannot
    interfere with the insertion of the block after the anchor. *)
Definition period_check (x y : str) : bool :=
  nonemptyb x && nonemptyb y && str_in y x && plain_ascii y &&
  apart x line_counter_numeric_string &&
  edges_clear x line_counter_numeric_string block_tail &&
  negb (str_in y (line_counter_numeric_string ++ block_head)) &&
  negb (str_in y block_mid) && negb (str_in y block_tail).

Lemma new_invoice_period_isolated (x y d : str) :
  period_check x y = true ->
  d <> [] -> Forall (fun ch => date_char ch = true) d ->
  Isolated x (new_invoice_period line_counter_numeric_string d) /\
  str_in x (new_invoice_period line_counter_numeric_string d) = false.
Proof.
  unfold period_check. rewrite !andb_true_iff.
  intros [[[[[[[[Hx Hy] Hyx] Hpl] Hap] Hed] Hh] Hm] Ht] Hd Hshape.
  apply negb_true_iff in Hh, Hm, Ht.
  split.
  - apply (edges_clear_isolated x line_counter_numeric_string block_tail); [exact Hed | |].
    + unfold new_invoice_period. apply startswith_app.
    + rewrite new_invoice_period_cut. apply endswith_iff.
      exists ((line_counter_numeric_string ++ block_head) ++ d ++ block_mid ++ d).
      now repeat rewrite <- app_assoc.
  - destruct (str_in x (new_invoice_period line_counter_numeric_string d)) eqn:E;
      [exfalso | reflexivity].
    pose proof (str_in_trans _ _ _ Hyx E) as Hyin.
    rewrite new_invoice_period_cut in Hyin.
    pose proof (plain_ascii_foreign y d Hpl Hshape) as Hf.
    apply str_in_around_foreign in Hyin; [| exact Hd | exact Hf].
    destruct Hyin as [Hyin | Hyin]; [congruence|].
    apply str_in_around_foreign in Hyin; [| exact Hd | exact Hf].
    destruct Hyin as [Hyin | Hyin]; congruence.
Qed.

Lemma invoice_period_text_cases (c : str) :
  invoice_period_text is_digit c = c \/
  exists d, d <> [] /\ Forall (fun ch => date_char ch = true) d /\
            re_search_fecfac is_digit c = Some d /\
            str_in invoice_period_open c = false /\
            str_in line_counter_numeric_string c = true /\
            invoice_period_text is_digit c
            = replace c line_counter_numeric_string
                      (new_invoice_period line_counter_numeric_string d).
Proof.
  unfold invoice_period_text.
  destruct (str_in invoice_period_open c) eqn:E1; [now left|].
  destruct (str_in line_counter_numeric_string c) eqn:E2; [|now left].
  cbn [negb].
  destruct (re_search_fecfac is_digit c) as [[|x d]|] eqn:E3; [now left | | now left].
  right. exists (x :: d). repeat split; try reflexivity; try discriminate.
  now apply re_search_shape in E3.
Qed.

Lemma invoice_period_keeps (x y c : str) :
  period_check x y = true ->
  occurrences x (invoice_period_text is_digit c) = occurrences x c.
Proof.
  intros H.
  destruct (invoice_period_text_cases c) as [-> | [d [Hd [Hshape [_ [_ [_ ->]]]]]]];
    [reflexivity|].
  destruct (new_invoice_period_isolated x y d H Hd Hshape) as [HI Hin].
  unfold period_check in H. rewrite !andb_true_iff in H.
  destruct H as [[[[[[[[Hx _] _] _] Hap] _] _] _] _].
  apply occurrences_replace_other; try assumption.
  - now apply nonemptyb_true.
  - discriminate.
  - now apply apart_isolated.
  - now apply apart_absent.
Qed.

(** *** Each rule settles its own field *)

Ltac by_table := vm_compute; reflexivity.

Lemma same_occurrences (x a b : str) :
  nonemptyb x = true -> occurrences x a = occurrences x b ->
  str_in x a = str_in x b.
Proof.
  intros Hx H. apply nonemptyb_true in Hx.
  destruct (str_in x b) eqn:E.
  - apply occurrences_pos; [exact Hx|]. rewrite H. now apply occurrences_pos.
  - apply occurrences_zero; [exact Hx|]. rewrite H. now apply occurrences_zero.
Qed.

Lemma codigo_prestador_clears (c : str) :
  occurrences codigo_prestador_string (codigo_prestador_text c) = 0.
Proof. rewrite codigo_prestador_text_eq. apply clears_replace. by_table. Qed.

Lemma modalidad_pago_clears (c : str) :
  occurrences modalidad_pago_string (modalidad_pago_text c) = 0.
Proof. rewrite modalidad_pago_text_eq. apply clears_replace. by_table. Qed.

Lemma numero_poliza_clears (c : str) :
  occurrences numero_poliza_string (numero_poliza_text c) = 0.
Proof. rewrite numero_poliza_text_eq. apply clears_replace. by_table. Qed.

Lemma codigo_prestador_settled (c : str) :
  occurrences codigo_prestador_string c = 0 -> codigo_prestador_text c = c.
Proof.
  intros H. rewrite codigo_prestador_text_eq. apply replace_absent; [discriminate|].
  now apply absent_occurrences.
Qed.

Lemma modalidad_pago_settled (c : str) :
  occurrences modalidad_pago_string c = 0 -> modalidad_pago_text c = c.
Proof.
  intros H. rewrite modalidad_pago_text_eq. apply replace_absent; [discriminate|].
  now apply absent_occurrences.
Qed.

Lemma numero_poliza_settled (c : str) :
  occurrences numero_poliza_string c = 0 -> numero_poliza_text c = c.
Proof.
  intros H. rewrite numero_poliza_text_eq. apply replace_absent; [discriminate|].
  now apply absent_occurrences.
Qed.

(** A rule with a context condition is at rest when its pattern is gone or
    when neither of its markers is there. *)
Definition cobertura_rests (c : str) : Prop :=
  occurrences cobertura_string c = 0 \/
  (occurrences evento_no_pbs_string c = 0 /\ occurrences evento_pbs_string c = 0).

Definition numero_contrato_rests (c : str) : Prop :=
  occurrences numero_contrato_string c = 0 \/
  (occurrences subsidiado_string c = 0 /\ occurrences contributivo_string c = 0).

Lemma cobertura_text_rests (c : str) : cobertura_rests (cobertura_text c).
Proof.
  rewrite cobertura_text_eq. unfold cobertura_rests.
  destruct (str_in evento_no_pbs_string c) eqn:E1.
  { left. apply clears_replace. by_table. }
  destruct (str_in evento_pbs_string c) eqn:E2.
  { left. apply clears_replace. by_table. }
  right. split; now apply occurrences_absent.
Qed.

Lemma numero_contrato_text_rests (c : str) :
  numero_contrato_rests (numero_contrato_text c).
Proof.
  rewrite numero_contrato_text_eq. unfold numero_contrato_rests.
  destruct (str_in subsidiado_string c) eqn:E1.
  { left. apply clears_replace. by_table. }
  destruct (str_in contributivo_string c) eqn:E2.
  { left. apply clears_replace. by_table. }
  right. split; now apply occurrences_absent.
Qed.

Lemma cobertura_settled (c : str) : cobertura_rests c -> cobertura_text c = c.
Proof.
  intros [H | [H1 H2]].
  - unfold cobertura_text.
    now rewrite (absent_occurrences cobertura_string c eq_refl H).
  - rewrite cobertura_text_eq.
    rewrite (absent_occurrences evento_no_pbs_string c eq_refl H1).
    now rewrite (absent_occurrences evento_pbs_string c eq_refl H2).
Qed.

Lemma numero_contrato_settled (c : str) :
  numero_contrato_rests c -> numero_contrato_text c = c.
Proof.
  intros [H | [H1 H2]].
  - unfold numero_contrato_text.
    now rewrite (absent_occurrences numero_contrato_string c eq_refl H).
  - rewrite numero_contrato_text_eq.
    rewrite (absent_occurrences subsidiado_string c eq_refl H1).
    now rewrite (absent_occurrences contributivo_string c eq_refl H2).
Qed.

(** The synthesizer leaves its own output alone: where it inserted a block,
    the block's opening tag is now in the text. *)
Lemma invoice_period_text_idempotent (c : str) :
  invoice_period_text is_digit (invoice_period_text is_digit c)
  = invoice_period_text is_digit c.
Proof.
  destruct (invoice_period_text_cases c) as [H | [d [_ [_ [_ [_ [Hin ->]]]]]]];
    [now rewrite !H|].
  destruct (replace_present c line_counter_numeric_string
              (new_invoice_period line_counter_numeric_string d)
              ltac:(discriminate) Hin) as [a [b ->]].
  unfold invoice_period_text at 1.
  replace (str_in invoice_period_open
             (a ++ new_invoice_period line_counter_numeric_string d ++ b)) with true;
    [reflexivity|].
  symmetry. apply str_in_iff.
  exists (a ++ line_counter_numeric_string ++ nl).
  unfold new_invoice_period, invoice_period_open.
  eexists. repeat rewrite <- app_assoc. reflexivity.
Qed.

(** *** The pipeline applied twice *)

Lemma process_all_text_idempotent (c : str) :
  process_all_text is_digit (process_all_text is_digit c)
  = process_all_text is_digit c.
Proof.
  set (c6 := process_all_text is_digit c).
  assert (H1 : cobertura_text c6 = c6).
  { apply cobertura_settled. subst c6. unfold process_all_text, field_rules_text.
    destruct (cobertura_text_rests c) as [H | [Ha Hb]]; [left | right; split].
    - rewrite (invoice_period_keeps _ cobertura_string) by by_table.
      rewrite numero_poliza_keeps, numero_contrato_keeps,
        modalidad_pago_keeps, codigo_prestador_keeps by by_table. exact H.
    - rewrite (invoice_period_keeps _ evento_no_pbs_string) by by_table.
      rewrite numero_poliza_keeps, numero_contrato_keeps,
        modalidad_pago_keeps, codigo_prestador_keeps by by_table. exact Ha.
    - rewrite (invoice_period_keeps _ evento_pbs_string) by by_table.
      rewrite numero_poliza_keeps, numero_contrato_keeps,
        modalidad_pago_keeps, codigo_prestador_keeps by by_table. exact Hb. }
  assert (H2 : codigo_prestador_text c6 = c6).
  { apply codigo_prestador_settled. subst c6. unfold process_all_text, field_rules_text.
    rewrite (invoice_period_keeps _ codigo_prestador_string) by by_table.
    rewrite numero_poliza_keeps, numero_contrato_keeps,
      modalidad_pago_keeps by by_table.
    apply codigo_prestador_clears. }
  assert (H3 : modalidad_pago_text c6 = c6).
  { apply modalidad_pago_settled. subst c6. unfold process_all_text, field_rules_text.
    rewrite (invoice_period_keeps _ modalidad_pago_string) by by_table.
    rewrite numero_poliza_keeps, numero_contrato_keeps by by_table.
    apply modalidad_pago_clears. }
  assert (H4 : numero_contrato_text c6 = c6).
  { apply numero_contrato_settled. subst c6. unfold process_all_text, field_rules_text.
    destruct (numero_contrato_text_rests
                (modalidad_pago_text (codigo_prestador_text (cobertura_text c))))
      as [H | [Ha Hb]]; [left | right; split].
    - rewrite (invoice_period_keeps _ numero_contrato_string) by by_table.
      rewrite numero_poliza_keeps by by_table. exact H.
    - rewrite (invoice_period_keeps _ subsidiado_string) by by_table.
      rewrite numero_poliza_keeps by by_table. exact Ha.
    - rewrite (invoice_period_keeps _ contributivo_string) by by_table.
      rewrite numero_poliza_keeps by by_table. exact Hb. }
  assert (H5 : numero_poliza_text c6 = c6).
  { apply numero_poliza_settled. subst c6. unfold process_all_text, field_rules_text.
    rewrite (invoice_period_keeps _ numero_poliza_string) by by_table.
    apply numero_poliza_clears. }
  unfold process_all_text at 1. unfold field_rules_text.
  rewrite H1, H2, H3, H4, H5.
  subst c6. unfold process_all_text.
  apply invoice_period_text_idempotent.
Qed.

(** *** The contract number through the whole pipeline *)

Lemma numero_contrato_through (c : str) :
  let c' := process_all_text is_digit c in
  if str_in subsidiado_string c then
    occurrences numero_contrato_string c' = 0 /\
    occurrences contrato_10787 c'
    = occurrences contrato_10787 c + occurrences numero_contrato_string c /\
    occurrences contrato_3672 c' = occurrences contrato_3672 c
  else if str_in contributivo_string c then
    occurrences numero_contrato_string c' = 0 /\
    occurrences contrato_3672 c'
    = occurrences contrato_3672 c + occurrences numero_contrato_string c /\
    occurrences contrato_10787 c' = occurrences contrato_10787 c
  else
    occurrences numero_contrato_string c' = occurrences numero_contrato_string c /\
    occurrences contrato_10787 c' = occurrences contrato_10787 c /\
    occurrences contrato_3672 c' = occurrences contrato_3672 c.
Proof.
  cbv zeta. unfold process_all_text, field_rules_text.
  set (c3 := modalidad_pago_text (codigo_prestador_text (cobertura_text c))).
  assert (Hn : occurrences numero_contrato_string c3 = occurrences numero_contrato_string c).
  { subst c3. rewrite modalidad_pago_keeps, codigo_prestador_keeps,
      cobertura_keeps by by_table. reflexivity. }
  assert (H1 : occurrences contrato_10787 c3 = occurrences contrato_10787 c).
  { subst c3. rewrite modalidad_pago_keeps, codigo_prestador_keeps,
      cobertura_keeps by by_table. reflexivity. }
  assert (H2 : occurrences contrato_3672 c3 = occurrences contrato_3672 c).
  { subst c3. rewrite modalidad_pago_keeps, codigo_prestador_keeps,
      cobertura_keeps by by_table. reflexivity. }
  assert (Hs : str_in subsidiado_string c3 = str_in subsidiado_string c).
  { apply same_occurrences; [reflexivity|].
    subst c3. rewrite modalidad_pago_keeps, codigo_prestador_keeps,
      cobertura_keeps by by_table. reflexivity. }
  assert (Hc : str_in contributivo_string c3 = str_in contributivo_string c).
  { apply same_occurrences; [reflexivity|].
    subst c3. rewrite modalidad_pago_keeps, codigo_prestador_keeps,
      cobertura_keeps by by_table. reflexivity. }
  rewrite (invoice_period_keeps _ numero_contrato_string) by by_table.
  rewrite (invoice_period_keeps _ (lit "<Name>")) by by_table.
  rewrite (invoice_period_keeps _ (lit "<Name>")) by by_table.
  rewrite !numero_poliza_keeps by by_table.
  rewrite numero_contrato_text_eq, Hs, Hc, <- Hn, <- H1, <- H2.
  destruct (str_in subsidiado_string c).
  { split; [apply clears_replace; by_table|].
    split; [apply fills_replace; by_table | apply keeps_replace; by_table]. }
  destruct (str_in contributivo_string c).
  { split; [apply clears_replace; by_table|].
    split; [apply fills_replace; by_table | apply keeps_replace; by_table]. }
  repeat split.
Qed.

(** *** The period block *)

(** The block as the specification describes it: four fields in a fixed
    frame. *)
Definition period_block (start_date start_time end_date end_time : str) : str :=
  lit "<cac:InvoicePeriod>" ++ nl ++
  lit " <cbc:StartDate>" ++ start_date ++ lit "</cbc:StartDate>" ++ nl ++
  lit " <cbc:StartTime>" ++ start_time ++ lit "</cbc:StartTime>" ++ nl ++
  lit " <cbc:EndDate>" ++ end_date ++ lit "</cbc:EndDate>" ++ nl ++
  lit " <cbc:EndTime>" ++ end_time ++ lit "</cbc:EndTime>" ++ nl ++
  lit "</cac:InvoicePeriod>".

Lemma new_invoice_period_block (anchor d : str) :
  new_invoice_period anchor d
  = anchor ++ nl ++ period_block d (lit "12:00:00") d (lit "11:59:59").
Proof. reflexivity. Qed.

Lemma period_block_once (d : str) :
  d <> [] -> Forall (fun ch => date_char ch = true) d ->
  occurrences invoice_period_open
    (new_invoice_period line_counter_numeric_string d) = 1.
Proof.
  intros Hd Hshape.
  replace (new_invoice_period line_counter_numeric_string d)
    with ((line_counter_numeric_string ++ nl) ++ invoice_period_open ++
          (nl ++ lit " <cbc:StartDate>") ++ d ++ block_mid ++ d ++ block_tail).
  2:{ unfold new_invoice_period, invoice_period_open, block_mid, block_tail.
      repeat rewrite <- app_assoc. reflexivity. }
  rewrite occurrences_around by (apply edges_clear_self; by_table).
  rewrite occurrences_self by discriminate.
  replace (occurrences invoice_period_open (line_counter_numeric_string ++ nl))
    with 0 by by_table.
  assert (H : str_in invoice_period_open
                ((nl ++ lit " <cbc:StartDate>") ++ d ++ block_mid ++ d ++ block_tail)
              = false).
  { destruct (str_in _ _) eqn:E; [exfalso | reflexivity].
    pose proof (plain_ascii_foreign invoice_period_open d ltac:(by_table) Hshape) as Hf.
    apply str_in_around_foreign in E; [| exact Hd | exact Hf].
    destruct E as [E | E]; [vm_compute in E; discriminate|].
    apply str_in_around_foreign in E; [| exact Hd | exact Hf].
    destruct E as [E | E]; vm_compute in E; discriminate. }
  apply occurrences_absent in H; [|reflexivity]. rewrite H. reflexivity.
Qed.

(** Where the synthesizer acts, every anchor gets one block right after it,
    and the text then holds as many blocks as it has anchors. *)
Lemma invoice_period_synthesis (c d : str) :
  str_in invoice_period_open c = false ->
  str_in line_counter_numeric_string c = true ->
  re_search_fecfac is_digit c = Some d ->
  every_occurrence line_counter_numeric_string
    (line_counter_numeric_string ++ nl ++
     period_block d (lit "12:00:00") d (lit "11:59:59"))
    c (invoice_period_text is_digit c) /\
  occurrences invoice_period_open (invoice_period_text is_digit c)
  = occurrences line_counter_numeric_string c /\
  invoice_period_warnings is_digit c = [].
Proof.
  intros Hip Ha Hd.
  destruct (re_search_shape c d Hd) as [Hlen Hshape].
  assert (Hne : d <> []) by (destruct d; [discriminate | discriminate]).
  assert (Htext : invoice_period_text is_digit c
                  = replace c line_counter_numeric_string
                            (new_invoice_period line_counter_numeric_string d)).
  { unfold invoice_period_text. rewrite Hip, Ha, Hd. cbn [negb].
    destruct d; [contradiction | reflexivity]. }
  split; [| split].
  - rewrite Htext, <- new_invoice_period_block. apply replace_every; by_table.
  - rewrite Htext.
    pose proof (occurrences_replace_count invoice_period_open c
                  line_counter_numeric_string
                  (new_invoice_period line_counter_numeric_string d)
                  ltac:(discriminate)
                  (edges_clear_self line_counter_numeric_string ltac:(by_table))
                  (apart_isolated invoice_period_open line_counter_numeric_string
                     ltac:(by_table))) as H.
    assert (HI : Isolated invoice_period_open
                   (new_invoice_period line_counter_numeric_string d)).
    { apply (edges_clear_isolated _ line_counter_numeric_string block_tail);
        [by_table | apply startswith_app |].
      rewrite new_invoice_period_cut. apply endswith_iff.
      exists ((line_counter_numeric_string ++ block_head) ++ d ++ block_mid ++ d).
      now repeat rewrite <- app_assoc. }
    specialize (H HI).
    rewrite (period_block_once d Hne Hshape) in H.
    replace (occurrences invoice_period_open line_counter_numeric_string)
      with 0 in H by by_table.
    rewrite (occurrences_absent invoice_period_open c eq_refl Hip) in H. lia.
  - unfold invoice_period_warnings. rewrite Hip, Ha, Hd. cbn [negb].
    destruct d; [contradiction | reflexivity].
Qed.

(** Where the anchor or the issue date is missing, the text stays as it is
    and one warning is logged. *)
Lemma invoice_period_skipped (c : str) :
  str_in invoice_period_open c = false ->
  str_in line_counter_numeric_string c = false \/
  re_search_fecfac is_digit c = None ->
  invoice_period_text is_digit c = c /\
  exists msg, invoice_period_warnings is_digit c = [(WARNING, msg)].
Proof.
  intros Hip H. unfold invoice_period_text, invoice_period_warnings. rewrite Hip.
  destruct (str_in line_counter_numeric_string c) eqn:Ha; cbn [negb].
  - destruct H as [H | H]; [discriminate|]. rewrite H.
    split; [reflexivity | now eexists].
  - split; [reflexivity | now eexists].
Qed.


(** *** The pipeline edits spans only *)

Definition field_rules : list (str * str) :=
  [ (cobertura_string, cobertura_02);
    (cobertura_string, cobertura_01);
    (codigo_prestador_string, codigo_prestador_new);
    (modalidad_pago_string, modalidad_pago_new);
    (numero_contrato_string, contrato_10787);
    (numero_contrato_string, contrato_3672);
    (numero_poliza_string, numero_poliza_new) ].

(** The spans a run may rewrite: a placeholder pattern into one of its
    patched texts, or the anchor into the anchor followed by a block. *)
Definition rule_span (p r : str) : Prop :=
  In (p, r) field_rules \/
  (p = line_counter_numeric_string /\
   exists d, length d = 10 /\ r = new_invoice_period line_counter_numeric_string d).

Definition field_span (p r : str) : Prop := In (p, r) field_rules.

Lemma field_stage (p r c c1 : str) :
  nonemptyb p = true ->
  forallb (fun pr => apart p (snd pr)) field_rules = true ->
  In (p, r) field_rules ->
  Patched field_span c c1 -> Patched field_span c (replace c1 p r).
Proof.
  intros Hp Hap Hin H.
  apply (Patched_mono (fun a b => field_span a b \/ (a = p /\ b = r))).
  - intros a b [Hab | [-> ->]]; [exact Hab | exact Hin].
  - apply Patched_then_replace; [now apply nonemptyb_true | | exact H].
    intros p' r' Hpr. rewrite forallb_forall in Hap. exact (Hap (p', r') Hpr).
Qed.

Definition rule_inb (p r : str) : bool :=
  existsb (fun pr => str_eqb (fst pr) p && str_eqb (snd pr) r) field_rules.

Lemma rule_inb_In (p r : str) : rule_inb p r = true -> In (p, r) field_rules.
Proof.
  unfold rule_inb. rewrite existsb_exists. intros [[p' r'] [Hin H]].
  apply andb_true_iff in H. destruct H as [H1 H2].
  apply str_eqb_eq in H1, H2. cbn [fst snd] in *. now subst.
Qed.

Ltac in_field_rules := apply rule_inb_In; vm_compute; reflexivity.

Lemma field_rules_text_patched (c : str) : Patched field_span c (field_rules_text c).
Proof.
  unfold field_rules_text.
  rewrite numero_poliza_text_eq. apply field_stage; [by_table | by_table | in_field_rules |].
  rewrite numero_contrato_text_eq.
  assert (H3 : Patched field_span c
                 (modalidad_pago_text (codigo_prestador_text (cobertura_text c)))).
  { rewrite modalidad_pago_text_eq.
    apply field_stage; [by_table | by_table | in_field_rules |].
    rewrite codigo_prestador_text_eq.
    apply field_stage; [by_table | by_table | in_field_rules |].
    rewrite cobertura_text_eq.
    destruct (str_in evento_no_pbs_string c).
    { apply field_stage; [by_table | by_table | in_field_rules | apply Patched_refl]. }
    destruct (str_in evento_pbs_string c).
    { apply field_stage; [by_table | by_table | in_field_rules | apply Patched_refl]. }
    apply Patched_refl. }
  destruct (str_in subsidiado_string _).
  { apply field_stage; [by_table | by_table | in_field_rules | exact H3]. }
  destruct (str_in contributivo_string _).
  { apply field_stage; [by_table | by_table | in_field_rules | exact H3]. }
  exact H3.
Qed.

Lemma process_all_text_patched (c : str) :
  Patched rule_span c (process_all_text is_digit c).
Proof.
  unfold process_all_text.
  destruct (invoice_period_text_cases (field_rules_text c))
    as [-> | [d [_ [_ [Hd [_ [_ ->]]]]]]].
  - apply (Patched_mono field_span); [intros p r H; now left|].
    apply field_rules_text_patched.
  - apply (Patched_mono
             (fun a b => field_span a b \/
                (a = line_counter_numeric_string /\
                 b = new_invoice_period line_counter_numeric_string d))).
    + intros a b [H | [-> ->]]; [now left | right].
      split; [reflexivity|]. exists d. split; [|reflexivity].
      now apply re_search_shape in Hd.
    + apply Patched_then_replace; [discriminate | | apply field_rules_text_patched].
      intros p' r' Hpr.
      assert (Hall : forallb (fun pr => apart line_counter_numeric_string (snd pr))
                             field_rules = true) by by_table.
      rewrite forallb_forall in Hall. exact (Hall (p', r') Hpr).
Qed.

(** *** The patched text can always be written *)

Lemma encodable_check (s : str) : forallb scalar s = true -> encodable s.
Proof. intros H. apply Forall_forall. now apply forallb_forall. Qed.

Lemma date_at_prefix (s d : str) :
  date_at is_digit s = Some d -> exists t, s = d ++ t.
Proof.
  unfold date_at.
  destruct s as [|y1 [|y2 [|y3 [|y4 [|h1 [|m1 [|m2 [|h2 [|d1 [|d2 s]]]]]]]]]];
    try discriminate.
  destruct (_ && _); [|discriminate].
  intros H. injection H as <-. now exists s.
Qed.

Lemma re_search_incl (c d : str) :
  re_search_fecfac is_digit c = Some d -> incl d c.
Proof.
  assert (Hm : forall s, match_at is_digit s = Some d -> incl d s).
  { intros s. unfold match_at. destruct (startswith s fecfac); [|discriminate].
    intros H. apply date_at_prefix in H. destruct H as [t Ht].
    intros x Hx. rewrite <- (firstn_skipn (length fecfac) s), Ht.
    apply in_or_app. right. apply in_or_app. now left. }
  induction c as [|x c IH]; cbn [re_search_fecfac].
  - destruct (match_at is_digit []) eqn:E; [|discriminate].
    intros H. injection H as ->. now apply Hm.
  - destruct (match_at is_digit (x :: c)) eqn:E.
    + intros H. injection H as ->. now apply Hm.
    + intros H. apply incl_tl. now apply IH.
Qed.

Lemma field_rules_text_encodable (c : str) :
  encodable c -> encodable (field_rules_text c).
Proof.
  intros H. unfold field_rules_text.
  rewrite numero_poliza_text_eq.
  apply Forall_replace; [discriminate | | apply encodable_check; by_table].
  rewrite numero_contrato_text_eq.
  assert (H3 : encodable (modalidad_pago_text (codigo_prestador_text (cobertura_text c)))).
  { rewrite modalidad_pago_text_eq.
    apply Forall_replace; [discriminate | | apply encodable_check; by_table].
    rewrite codigo_prestador_text_eq.
    apply Forall_replace; [discriminate | | apply encodable_check; by_table].
    rewrite cobertura_text_eq.
    destruct (str_in evento_no_pbs_string c).
    { apply Forall_replace; [discriminate | exact H | apply encodable_check; by_table]. }
    destruct (str_in evento_pbs_string c); [|exact H].
    apply Forall_replace; [discriminate | exact H | apply encodable_check; by_table]. }
  destruct (str_in subsidiado_string _).
  { apply Forall_replace; [discriminate | exact H3 | apply encodable_check; by_table]. }
  destruct (str_in contributivo_string _); [|exact H3].
  apply Forall_replace; [discriminate | exact H3 | apply encodable_check; by_table].
Qed.

Lemma process_all_text_encodable (c : str) :
  encodable c -> encodable (process_all_text is_digit c).
Proof.
  intros H. apply field_rules_text_encodable in H. unfold process_all_text.
  destruct (invoice_period_text_cases (field_rules_text c))
    as [-> | [d [_ [_ [Hd [_ [_ ->]]]]]]]; [exact H|].
  apply Forall_replace; [discriminate | exact H |].
  assert (Hdd : encodable d).
  { apply Forall_forall. intros x Hx. unfold encodable in H.
    rewrite Forall_forall in H. apply H. now apply (re_search_incl _ _ Hd). }
  rewrite new_invoice_period_cut.
  repeat (apply Forall_app; split); try exact Hdd; apply encodable_check; by_table.
Qed.

(** *** Saving *)

Lemma save_sees (s : str) (st : state) (c : str) :
  input_path st = make_path s -> name (make_path s) <> [] ->
  sees st c -> encodable c ->
  exists w' bs,
    save None st
    = (Returns (make_path s),
       mkState (make_path s) (Some c) (set_file (make_path s) bs w')) /\
    utf8_encode c = Some bs /\
    read_only (make_path s) (reads_needed st) (env st) w'.
Proof.
  intros Hp Hn Hs He. unfold save. rewrite Hp, (with_stem_same s Hn).
  match goal with |- context [bind content ?k] => set (m := bind content k) end.
  destruct (loads_sees m st c (bind_loads _ _ content_loads) Hs) as [w' [Hrun Hro]].
  rewrite Hp in Hrun, Hro.
  destruct (utf8_encode_total c He) as [bs Hbs].
  exists w', bs. split; [| split; assumption].
  rewrite Hrun. subst m. rewrite bind_content_loaded.
  unfold write_text. cbn [env]. rewrite write_newlines_posix, Hbs. reflexivity.
Qed.

(** What a fresh processor sees is its file, decoded, with the line ends
    turned into ["\n"]. *)
Lemma sees_init (s : str) (w : world) (c : str) :
  sees (init s w) c ->
  name (make_path s) <> [] /\ encodable c /\
  exists data text,
    lookup (make_path s) (files w) = Some data /\
    utf8_decode data = Some text /\ c = universal_newlines text.
Proof.
  unfold sees, init, content, read_text. cbn [_content input_path env].
  destruct (name (make_path s)); [discriminate|].
  destruct (lookup (make_path s) (files w)) as [data|]; [|discriminate].
  destruct (utf8_decode data) as [text|] eqn:E; [|discriminate].
  cbn. intros H. injection H as <-.
  split; [discriminate|]. split.
  - apply universal_newlines_encodable. now apply (utf8_decode_scalar data).
  - now exists data, text.
Qed.

(** [File.update_invoice] of [src/files.py]: build the processor, run the
    pipeline, save with no output path. *)
Definition update_invoice (file_path : str) (w : world) : outcome Path * world :=
  match process_all is_digit (init file_path w) with
  | (Returns _, st1) => let (r, st2) := save None st1 in (r, env st2)
  | (Raises e, st1) => (Raises e, env st1)
  end.

Lemma update_invoice_runs (s : str) (w : world) (c : str) :
  sees (init s w) c ->
  exists bs msgs,
    utf8_encode (process_all_text is_digit c) = Some bs /\
    process_all is_digit (init s w)
    = (Returns tt,
       mkState (make_path s) (Some (process_all_text is_digit c))
         {| files := files w; opened := opened w ++ [make_path s];
            logged := logged w ++ msgs |}) /\
    update_invoice s w
    = (Returns (make_path s),
       {| files := (make_path s, bs) :: files w;
          opened := opened w ++ [make_path s];
          logged := logged w ++ msgs |}).
Proof.
  intros Hs. destruct (sees_init s w c Hs) as [Hn [He _]].
  destruct (loads_sees (process_all is_digit) (init s w) c
              (process_all_loads_content is_digit) Hs) as [w' [Hrun [Hf [Hl Ho]]]].
  cbn [input_path init env reads_needed _content repeat] in *.
  rewrite process_all_runs in Hrun.
  pose proof (process_all_text_encodable c He) as He'.
  destruct (save_sees s
              (mkState (make_path s) (Some (process_all_text is_digit c))
                 (add_logs (invoice_period_warnings is_digit (field_rules_text c)) w'))
              (process_all_text is_digit c) eq_refl Hn eq_refl He')
    as [w'' [bs [Hsave [Hbs [Hf' [Hl' Ho']]]]]].
  cbn [env reads_needed _content repeat] in *. rewrite app_nil_r in Ho'.
  assert (Ew : w'' = add_logs (invoice_period_warnings is_digit (field_rules_text c)) w').
  { destruct w''. unfold add_logs in *. cbn in *. congruence. }
  subst w''.
  exists bs, (invoice_period_warnings is_digit (field_rules_text c)).
  split; [exact Hbs|].
  assert (Ew' : add_logs (invoice_period_warnings is_digit (field_rules_text c)) w'
                = {| files := files w; opened := opened w ++ [make_path s];
                     logged := logged w ++
                               invoice_period_warnings is_digit (field_rules_text c) |}).
  { unfold add_logs. now rewrite Hf, Hl, Ho. }
  split.
  - rewrite Hrun, Ew'. reflexivity.
  - unfold update_invoice. rewrite Hrun, Hsave. cbn [env].
    rewrite Ew'. reflexivity.
Qed.

(** *** The replacement texts, written out *)

Lemma contrato_10787_eq :
  contrato_10787 = name_then_value (lit "NUMERO_CONTRATO") (lit "<Value>10787</Value>").
Proof. reflexivity. Qed.

Lemma contrato_3672_eq :
  contrato_3672 = name_then_value (lit "NUMERO_CONTRATO") (lit "<Value>3672</Value>").
Proof. reflexivity. Qed.

Lemma codigo_prestador_new_eq :
  codigo_prestador_new
  = name_then_value (lit "CODIGO_PRESTADOR") (lit "<Value>0800185010</Value>").
Proof. reflexivity. Qed.

Lemma modalidad_pago_new_eq :
  modalidad_pago_new
  = name_then_value (lit "MODALIDAD_PAGO")
      (scheme_value (lit "04") (lit "salud_modalidad_pago.gc") (lit "Pago por evento")).
Proof. reflexivity. Qed.

Lemma cobertura_02_eq :
  cobertura_02
  = name_then_value (lit "COBERTURA_PLAN_BENEFICIOS")
      (scheme_value (lit "02") (lit "salud_cobertura.gc") presupuesto_maximo).
Proof. reflexivity. Qed.

Lemma cobertura_01_eq :
  cobertura_01
  = name_then_value (lit "COBERTURA_PLAN_BENEFICIOS")
      (scheme_value (lit "01") (lit "salud_cobertura.gc")
         (lit "Plan de beneficios en salud financiado con UPC")).
Proof. reflexivity. Qed.

Lemma numero_poliza_new_eq :
  numero_poliza_new = name_then_value (lit "NUMERO_POLIZA") (lit "<Value>NA</Value>").
Proof. reflexivity. Qed.

(** [leaves m st c']: the method returns normally and the content is then
    [c']. *)
Definition leaves (m : M unit) (st : state) (c' : str) : Prop :=
  exists st', m st = (Returns tt, st') /\ _content st' = Some c'.


Lemma leaves_fun (m : M unit) (st : state) (c1 c2 : str) :
  leaves m st c1 -> leaves m st c2 -> c1 = c2.
Proof.
  intros [s1 [H1 E1]] [s2 [H2 E2]]. rewrite H1 in H2. injection H2 as <-.
  rewrite E1 in E2. now injection E2.
Qed.

(** *** The engine's properties *)

(** C1. In a document that holds the contract-number placeholder, after
    [process_all] every placeholder slot reads 10787 when the document holds
    "Subsidiado" (also when it holds "Contributivo" as well), 3672 when it
    holds "Contributivo" only, and is left as the placeholder when it holds
    neither marker. *)
Theorem numero_contrato_pipeline (st : state) (c : str) :
  sees st c ->
  str_in numero_contrato_string c = true ->
  exists st' c',
    process_all is_digit st = (Returns tt, st') /\
    _content st' = Some c' /\
    (if str_in subsidiado_string c then
       str_in numero_contrato_string c' = false /\
       str_in contrato_10787 c' = true /\
       occurrences contrato_10787 c'
       = occurrences contrato_10787 c + occurrences numero_contrato_string c /\
       occurrences contrato_3672 c' = occurrences contrato_3672 c
     else if str_in contributivo_string c then
       str_in numero_contrato_string c' = false /\
       str_in contrato_3672 c' = true /\
       occurrences contrato_3672 c'
       = occurrences contrato_3672 c + occurrences numero_contrato_string c /\
       occurrences contrato_10787 c' = occurrences contrato_10787 c
     else
       str_in numero_contrato_string c' = true /\
       occurrences numero_contrato_string c' = occurrences numero_contrato_string c /\
       occurrences contrato_10787 c' = occurrences contrato_10787 c /\
       occurrences contrato_3672 c' = occurrences contrato_3672 c).
Proof.
  intros Hs Hp.
  destruct (loads_sees (process_all is_digit) st c
              (process_all_loads_content is_digit) Hs) as [w' [Hrun _]].
  rewrite process_all_runs in Hrun.
  eexists. exists (process_all_text is_digit c).
  split; [exact Hrun|]. split; [reflexivity|].
  pose proof (numero_contrato_through c) as H. cbv zeta in H.
  assert (Hpos : 0 < occurrences numero_contrato_string c).
  { apply occurrences_pos; [discriminate | exact Hp]. }
  destruct (str_in subsidiado_string c).
  { destruct H as [H0 [H1 H2]]. repeat split; try assumption.
    - now apply absent_occurrences.
    - apply occurrences_pos; [discriminate|]. lia. }
  destruct (str_in contributivo_string c).
  { destruct H as [H0 [H1 H2]]. repeat split; try assumption.
    - now apply absent_occurrences.
    - apply occurrences_pos; [discriminate|]. lia. }
  destruct H as [H0 [H1 H2]]. repeat split; try assumption.
  apply occurrences_pos; [discriminate|]. lia.
Qed.

(** C2. Running [process_all] a second time leaves the content exactly as
    the first run left it. *)
Theorem process_all_twice (st : state) (c : str) :
  sees st c ->
  exists st1 st2 c1,
    process_all is_digit st = (Returns tt, st1) /\
    process_all is_digit st1 = (Returns tt, st2) /\
    _content st1 = Some c1 /\ _content st2 = Some c1 /\
    files (env st2) = files (env st).
Proof.
  intros Hs.
  destruct (loads_sees (process_all is_digit) st c
              (process_all_loads_content is_digit) Hs) as [w' [Hrun [Hf _]]].
  rewrite process_all_runs in Hrun.
  eexists. eexists. exists (process_all_text is_digit c).
  split; [exact Hrun|]. split; [apply process_all_runs|].
  split; [reflexivity|]. split.
  - cbn [_content]. now rewrite process_all_text_idempotent.
  - cbn [env]. unfold add_logs. cbn [files]. exact Hf.
Qed.

(** C3. With no period block in the document, the synthesizer puts, right
    after every anchor, a block whose start and end date are the issue date
    found by the pattern, with start time 12:00:00 and end time 11:59:59, and
    logs nothing; when the anchor or the issue date is missing it returns
    normally, leaves the content as it is and logs one warning. *)
Theorem logic_invoice_period_synthesis (st : state) (c : str) :
  sees st c ->
  str_in invoice_period_open c = false ->
  exists st' c',
    logic_invoice_period is_digit st = (Returns tt, st') /\
    _content st' = Some c' /\
    files (env st') = files (env st) /\
    (forall d,
       str_in line_counter_numeric_string c = true ->
       re_search_fecfac is_digit c = Some d ->
       every_occurrence line_counter_numeric_string
         (line_counter_numeric_string ++ nl ++
          period_block d (lit "12:00:00") d (lit "11:59:59")) c c' /\
       occurrences invoice_period_open c' = occurrences line_counter_numeric_string c /\
       logged (env st') = logged (env st)) /\
    (str_in line_counter_numeric_string c = false \/
     re_search_fecfac is_digit c = None ->
     c' = c /\
     exists msg, logged (env st') = logged (env st) ++ [(WARNING, msg)]).
Proof.
  intros Hs Hip.
  destruct (loads_sees (logic_invoice_period is_digit) st c
              (logic_invoice_period_loads is_digit) Hs) as [w' [Hrun [Hf [Hl _]]]].
  rewrite logic_invoice_period_runs in Hrun.
  eexists. exists (invoice_period_text is_digit c).
  split; [exact Hrun|]. split; [reflexivity|].
  cbn [env]. unfold add_logs. cbn [files logged].
  split; [exact Hf|]. split.
  - intros d Ha Hd.
    destruct (invoice_period_synthesis c d Hip Ha Hd) as [H1 [H2 H3]].
    rewrite H3, app_nil_r. auto.
  - intros H.
    destruct (invoice_period_skipped c Hip H) as [H1 [msg H2]].
    rewrite H2, Hl. split; [exact H1 | now exists msg].
Qed.



(** C5, as amended. The pipeline rewrites only spans of the text: each
    one an occurrence of a placeholder pattern turned into its patched text,
    or an anchor turned into the anchor followed by a period block; every
    character outside those spans is kept.  The text is the file's UTF-8
    decoding with its line ends read as ["\n"], and it is that text, patched,
    that is encoded and written back. *)
Theorem pipeline_edits_spans_only (s : str) (w : world) (data : list byte) (text : str) :
  name (make_path s) <> [] ->
  lookup (make_path s) (files w) = Some data ->
  utf8_decode data = Some text ->
  exists c1 bs w',
    Patched rule_span (universal_newlines text) c1 /\
    utf8_encode c1 = Some bs /\
    update_invoice s w = (Returns (make_path s), w') /\
    files w' = (make_path s, bs) :: files w.
Proof.
  intros Hn Hl Hd.
  assert (Hs : sees (init s w) (universal_newlines text)).
  { unfold sees, init, content, read_text. cbn [_content input_path env].
    destruct (name (make_path s)); [contradiction|]. now rewrite Hl, Hd. }
  destruct (update_invoice_runs s w _ Hs) as [bs [msgs [Hbs [_ Hrun]]]].
  exists (process_all_text is_digit (universal_newlines text)), bs.
  eexists. split; [apply process_all_text_patched|].
  split; [exact Hbs|]. split; [exact Hrun | reflexivity].
Qed.

(** C10. For an input path whose file can be read, [save] with no output
    path derives the input path itself (same stem, same suffix), writes the
    content there, so that the input file is replaced by the encoded patched
    content, and returns that path. *)
Theorem save_overwrites_input (s : str) (w : world) (c : str) :
  sees (init s w) c ->
  with_stem (make_path s) (stem (make_path s)) = Returns (make_path s) /\
  (exists st' bs,
     save None (init s w) = (Returns (make_path s), st') /\
     utf8_encode c = Some bs /\
     files (env st') = (make_path s, bs) :: files w) /\
  (exists st1 st2 c1 bs,
     process_all is_digit (init s w) = (Returns tt, st1) /\
     _content st1 = Some c1 /\
     save None st1 = (Returns (make_path s), st2) /\
     utf8_encode c1 = Some bs /\
     files (env st2) = (make_path s, bs) :: files w).
Proof.
  intros Hs. destruct (sees_init s w c Hs) as [Hn [He _]].
  split; [now apply with_stem_same|]. split.
  - destruct (save_sees s (init s w) c eq_refl Hn Hs He)
      as [w' [bs [Hsave [Hbs [Hf _]]]]].
    eexists. exists bs. split; [exact Hsave|]. split; [exact Hbs|].
    cbn [env set_file files]. cbn [init env] in Hf. now rewrite Hf.
  - destruct (loads_sees (process_all is_digit) (init s w) c
                (process_all_loads_content is_digit) Hs) as [w' [Hrun [Hf _]]].
    cbn [input_path init env] in *. rewrite process_all_runs in Hrun.
    pose proof (process_all_text_encodable c He) as He'.
    destruct (save_sees s
                (mkState (make_path s) (Some (process_all_text is_digit c))
                   (add_logs (invoice_period_warnings is_digit (field_rules_text c)) w'))
                (process_all_text is_digit c) eq_refl Hn eq_refl He')
      as [w'' [bs [Hsave [Hbs [Hf' _]]]]].
    eexists. eexists. exists (process_all_text is_digit c), bs.
    split; [exact Hrun|]. split; [reflexivity|]. split; [exact Hsave|].
    split; [exact Hbs|].
    cbn [env set_file files] in *. unfold add_logs in Hf'. cbn [files] in Hf'.
    now rewrite Hf', Hf.
Qed.

End Dates.

(** The literal-text engine reads its file once: a look at [content] that
    returns leaves the text in the cache, and the next look returns it from
    there without touching the world. *)
Lemma content_cached (st st1 : state) (c : str) :
  content st = (Returns c, st1) ->
  content st1 = (Returns c, st1) /\
  opened (env st1) = opened (env st) ++ repeat (input_path st) (reads_needed st).
Proof.
  unfold content, reads_needed. destruct st as [p [c0|] w]; cbn [_content input_path env].
  - intros H. injection H as <- <-. cbn. now rewrite app_nil_r.
  - unfold read_text. destruct (name p); [discriminate|].
    destruct (lookup p (files w)); [|discriminate].
    destruct (utf8_decode l); [|discriminate].
    cbn. intros H. injection H as <- <-. now cbn.
Qed.

(** *** Sample documents *)

Definition ascii_digit (ch : char) : bool := (N.leb 48 ch && N.leb ch 57)%N.

Lemma ascii_digit_ascii :
  forall ch, (ch < 128)%N -> ascii_digit ch = (N.leb 48 ch && N.leb ch 57)%N.
Proof. reflexivity. Qed.

Definition posix_world (fs : list (Path * list byte)) : world :=
  {| files := fs; opened := []; logged := [] |}.

Definition sample_path : str := lit "/tmp/LGFM1538339_ad09000732230162500177923.xml".

Definition loaded (c : str) : state :=
  {| input_path := make_path sample_path; _content := Some c;
     env := posix_world [] |}.

(** Two contract-number placeholders, both regime markers, one anchor, an
    issue date and no period block. *)
Definition sample_both_markers : str :=
  lit "<cbc:LineCountNumeric>2</cbc:LineCountNumeric>" ++ nl ++
  numero_contrato_string ++ nl ++ numero_contrato_string ++ nl ++
  lit "Regimen Contributivo / Subsidiado" ++ nl ++
  lit "FecFac: 2025-07-29".


Lemma numero_contrato_pipeline_witness :
  sees (loaded sample_both_markers) sample_both_markers /\
  str_in numero_contrato_string sample_both_markers = true /\
  exists st' c',
    process_all ascii_digit (loaded sample_both_markers) = (Returns tt, st') /\
    _content st' = Some c' /\
    str_in numero_contrato_string c' = false /\
    str_in contrato_10787 c' = true /\
    occurrences contrato_10787 c'
    = occurrences contrato_10787 sample_both_markers
      + occurrences numero_contrato_string sample_both_markers /\
    occurrences contrato_3672 c' = occurrences contrato_3672 sample_both_markers.
Proof.
  split; [reflexivity|]. split; [vm_compute; reflexivity|].
  apply (numero_contrato_pipeline ascii_digit ascii_digit_ascii
           (loaded sample_both_markers) sample_both_markers).
  - reflexivity.
  - vm_compute; reflexivity.
Defined.

Lemma process_all_twice_witness :
  sees (loaded sample_both_markers) sample_both_markers /\
  exists st1 st2 c1,
    process_all ascii_digit (loaded sample_both_markers) = (Returns tt, st1) /\
    process_all ascii_digit st1 = (Returns tt, st2) /\
    _content st1 = Some c1 /\ _content st2 = Some c1 /\
    files (env st2) = files (env (loaded sample_both_markers)).
Proof.
  split; [reflexivity|].
  apply (process_all_twice ascii_digit ascii_digit_ascii
           (loaded sample_both_markers) sample_both_markers).
  reflexivity.
Defined.

(** A file with Windows line ends and no pattern of any rule in it. *)
Definition crlf_file : list byte := [97; 13; 10; 98]%N.

Definition crlf_world : world := posix_world [(make_path sample_path, crlf_file)].

(** C5, as stated, fails: no rule applies to this file, and still the bytes
    written back are not the bytes read, the carriage return is gone. *)
Lemma crlf_not_preserved :
  forallb (fun pr => negb (str_in (fst pr) crlf_file)) field_rules = true /\
  str_in line_counter_numeric_string crlf_file = false /\
  crlf_file <> [97; 10; 98]%N /\
  exists w',
    update_invoice ascii_digit sample_path crlf_world
    = (Returns (make_path sample_path), w') /\
    lookup (make_path sample_path) (files w') = Some [97; 10; 98]%N.
Proof.
  split; [vm_compute; reflexivity|]. split; [vm_compute; reflexivity|].
  split; [discriminate|].
  eexists. split; vm_compute; reflexivity.
Qed.

Lemma pipeline_edits_spans_only_witness :
  name (make_path sample_path) <> [] /\
  lookup (make_path sample_path) (files crlf_world) = Some crlf_file /\
  utf8_decode crlf_file = Some [97; 13; 10; 98]%N /\
  exists c1 bs w',
    Patched rule_span (universal_newlines [97; 13; 10; 98]%N) c1 /\
    utf8_encode c1 = Some bs /\
    update_invoice ascii_digit sample_path crlf_world
    = (Returns (make_path sample_path), w') /\
    files w' = (make_path sample_path, bs) :: files crlf_world.
Proof.
  split; [vm_compute; discriminate|]. split; [vm_compute; reflexivity|].
  split; [vm_compute; reflexivity|].
  apply (pipeline_edits_spans_only ascii_digit sample_path crlf_world crlf_file).
  - vm_compute; discriminate.
  - vm_compute; reflexivity.
  - vm_compute; reflexivity.
Defined.

Lemma save_overwrites_input_witness :
  sees (init sample_path crlf_world) [97; 10; 98]%N /\
  with_stem (make_path sample_path) (stem (make_path sample_path))
  = Returns (make_path sample_path) /\
  (exists st' bs,
     save None (init sample_path crlf_world) = (Returns (make_path sample_path), st') /\
     utf8_encode [97; 10; 98]%N = Some bs /\
     files (env st') = (make_path sample_path, bs) :: files crlf_world) /\
  (exists st1 st2 c1 bs,
     process_all ascii_digit (init sample_path crlf_world) = (Returns tt, st1) /\
     _content st1 = Some c1 /\
     save None st1 = (Returns (make_path sample_path), st2) /\
     utf8_encode c1 = Some bs /\
     files (env st2) = (make_path sample_path, bs) :: files crlf_world).
Proof.
  split; [vm_compute; reflexivity|].
  apply (save_overwrites_input ascii_digit sample_path crlf_world).
  vm_compute; reflexivity.
Defined.

Lemma logic_invoice_period_synthesis_witness :
  sees (loaded sample_both_markers) sample_both_markers /\
  str_in invoice_period_open sample_both_markers = false /\
  exists st' c',
    logic_invoice_period ascii_digit (loaded sample_both_markers) = (Returns tt, st') /\
    _content st' = Some c' /\
    files (env st') = files (env (loaded sample_both_markers)) /\
    (forall d,
       str_in line_counter_numeric_string sample_both_markers = true ->
       re_search_fecfac ascii_digit sample_both_markers = Some d ->
       every_occurrence line_counter_numeric_string
         (line_counter_numeric_string ++ nl ++
          period_block d (lit "12:00:00") d (lit "11:59:59"))
         sample_both_markers c' /\
       occurrences invoice_period_open c'
       = occurrences line_counter_numeric_string sample_both_markers /\
       logged (env st') = logged (env (loaded sample_both_markers))) /\
    (str_in line_counter_numeric_string sample_both_markers = false \/
     re_search_fecfac ascii_digit sample_both_markers = None ->
     c' = sample_both_markers /\
     exists msg,
       logged (env st')
       = logged (env (loaded sample_both_markers)) ++ [(WARNING, msg)]).
Proof.
  split; [reflexivity|]. split; [vm_compute; reflexivity|].
  apply (logic_invoice_period_synthesis ascii_digit ascii_digit_ascii
           (loaded sample_both_markers) sample_both_markers).
  - reflexivity.
  - vm_compute; reflexivity.
Defined.









End ParserV2.

(* ===================================================================== *)
(** ** The tree-based engine, [src/parser.py] *)
(* ===================================================================== *)

Module ParserTree.
Import PyStr Py.
Local Open Scope py_scope.

(** The parser given to [BeautifulSoup(markup, features)]. *)
Inductive features := LxmlXml | Lxml.

(** BeautifulSoup, as far as the engine uses it.  The objects live in a
    store [Dom] that the calls read and change in place; what the calls
    compute is the library's business and stays abstract. *)
Class BeautifulSoupAPI := {
  Dom : Type;
  Soup : Type;                                   (* a BeautifulSoup object *)
  Tag : Type;                                    (* a Tag *)
  bs_new : features -> str -> Dom -> outcome Soup * Dom;
  bs_find_all : Soup -> str -> Dom -> list Tag;  (* x.find_all(name) *)
  bs_find : Soup -> str -> Dom -> option Tag;    (* x.find(name) *)
  bs_find_string : Soup -> str -> str -> Dom -> option Tag;
                                                 (* x.find(name, string=text) *)
  tag_find_next_sibling : Tag -> str -> Dom -> option Tag;
  tag_name : Tag -> Dom -> str;
  tag_string : Tag -> Dom -> option str;         (* t.string *)
  tag_set_string : Tag -> str -> Dom -> Dom;     (* t.string = text *)
  tag_set_cdata : Tag -> str -> Dom -> Dom;      (* t.string = CData(text) *)
  tag_get : Tag -> str -> Dom -> option str;     (* t.get(attr) *)
  tag_set : Tag -> str -> str -> Dom -> Dom;     (* t[attr] = value *)
  tag_append : Tag -> Tag -> Dom -> Dom;
  tag_insert_after : Tag -> Tag -> Dom -> Dom;
  tag_replace_with : Tag -> Tag -> Dom -> Dom;
  bs_new_tag : Soup -> str -> Dom -> Tag * Dom;  (* x.new_tag(name) *)
  bs_text : Soup -> Dom -> str;                  (* x.text *)
  bs_str : Soup -> Dom -> str;                   (* str(x) *)
  bs_prettify : Soup -> Dom -> str               (* x.prettify(formatter="minimal") *)
}.

Section Engine.

Context {api : BeautifulSoupAPI}.

(** An instance: [_content] is set to [None] by [__init__] and assigned
    nowhere else; [_soup] exists once [soup()] has stored a tree. *)
Record state := mkState {
  input_path : Path;
  _content : option str;
  _soup : option Soup;
  store : Dom;
  env : world
}.

Definition M (A : Type) : Type := method state A.

Definition init (path : str) (d : Dom) (w : world) : state :=
  {| input_path := make_path path; _content := None; _soup := None;
     store := d; env := w |}.

Definition with_env (w : world) (st : state) : state :=
  {| input_path := input_path st; _content := _content st; _soup := _soup st;
     store := store st; env := w |}.

Definition with_store (d : Dom) (st : state) : state :=
  {| input_path := input_path st; _content := _content st; _soup := _soup st;
     store := d; env := env st |}.

Definition with_soup (x : Soup) (st : state) : state :=
  {| input_path := input_path st; _content := _content st; _soup := Some x;
     store := store st; env := env st |}.

Definition read {A} (f : Dom -> A) : M A := fun st => (Returns (f (store st)), st).

Definition change (f : Dom -> Dom) : M unit :=
  fun st => (Returns tt, with_store (f (store st)) st).

Definition log_info (msg : str) : M unit :=
  fun st => (Returns tt, with_env (log_record INFO msg (env st)) st).

(** [BeautifulSoup(markup, features)] on a string. *)
Definition BeautifulSoup (markup : str) (f : features) : M Soup :=
  fun st => let (r, d) := bs_new f markup (store st) in (r, with_store d st).

(** [with open(self.input_path, 'r', encoding='utf-8') as f:
       self._soup = BeautifulSoup(f, features)] *)
Definition open_and_parse (f : features) : M unit :=
  fun st =>
    match read_text (input_path st) (env st) with
    | (Returns text, w) =>
        (x <- BeautifulSoup text f ;; (fun st' => (Returns tt, with_soup x st')))
          (with_env w st)
    | (Raises e, w) => (Raises e, with_env w st)
    end.

(** [def soup(self)]: the cache test looks at [_content]; the tree goes
    into [_soup]. *)
Definition soup : M Soup :=
  fun st =>
    (match _content st with
     | None => try_except (open_and_parse LxmlXml) (open_and_parse Lxml)
     | Some _ => ret tt
     end ;;
     (fun st' => match _soup st' with
                 | Some x => (Returns x, st')
                 | None => (Raises AttributeError, st')
                 end)) st.

(** What [self.soup] evaluates to.  [soup] is declared with [def] and no
    [@property], so the attribute is the bound method; it is not called. *)
Inductive pyobj :=
| BoundMethod (name : String.string)
| SoupObject (x : Soup).

Definition self_soup : M pyobj := ret (BoundMethod "soup"%string).

(** Looking up [find_all], [find], [new_tag] or [prettify] on that value:
    a BeautifulSoup object has them, a bound method does not. *)
Definition soup_attribute (o : pyobj) : M Soup :=
  match o with
  | SoupObject x => ret x
  | BoundMethod _ => raise AttributeError
  end.

Definition nonempty (v : option str) : bool :=
  match v with
  | Some (_ :: _) => true
  | _ => false
  end.

(** [l[1:2]] *)
Definition slice_1_2 {A} (l : list A) : list A := skipn 1 (firstn 2 l).

(** The loop of [_get_all_description_xmls]. *)
Fixpoint description_loop (tags : list Tag) (results : list (Tag * Soup))
  : M (list (Tag * Soup)) :=
  match tags with
  | [] => ret results
  | description_tag :: rest =>
      content <- read (tag_string description_tag) ;;
      if nonempty content then
        fun st =>
          match BeautifulSoup (match content with Some c => c | None => [] end)
                              LxmlXml st with
          | (Returns parsed_xml, st') =>
              description_loop rest (results ++ [(description_tag, parsed_xml)]) st'
          | (Raises _, st') => description_loop rest results st'
          end
      else description_loop rest results
  end.

Definition _get_all_description_xmls : M (list (Tag * Soup)) :=
  o <- self_soup ;;
  x <- soup_attribute o ;;
  description_tags <- read (bs_find_all x (lit "Description")) ;;
  description_loop (slice_1_2 description_tags) [].

Definition _find_next_value_in_xml (xml : Soup) (name_text : str) : M (option Tag) :=
  name_tag <- read (bs_find_string xml (lit "Name") name_text) ;;
  match name_tag with
  | Some t => read (tag_find_next_sibling t (lit "Value"))
  | None => ret None
  end.

Definition _find_text_in_xml (xml : Soup) (text : str) : M bool :=
  t <- read (bs_text xml) ;; ret (str_in text t).

Definition string_is (v : option str) (s : str) : bool :=
  match v with
  | Some x => str_eqb x s
  | None => false
  end.

Definition _process_codigo_prestador_in_xml (xml : Soup) : M unit :=
  value <- _find_next_value_in_xml xml (lit "CODIGO_PRESTADOR") ;;
  match value with
  | Some v =>
      s <- read (tag_string v) ;;
      if string_is s (lit "Array") then change (tag_set_string v (lit "0800185010"))
      else ret tt
  | None => ret tt
  end.

Definition _process_modalidad_pago_in_xml (xml : Soup) : M unit :=
  value <- _find_next_value_in_xml xml (lit "MODALIDAD_PAGO") ;;
  match value with
  | Some v =>
      a <- read (tag_get v (lit "schemeID")) ;;
      if string_is a (lit "Array") then
        change (tag_set v (lit "schemeID") (lit "04")) ;;
        change (tag_set_string v (lit "Pago por evento"))
      else ret tt
  | None => ret tt
  end.

Definition _process_cobertura_plan_in_xml (xml : Soup) : M unit :=
  value <- _find_next_value_in_xml xml (lit "COBERTURA_PLAN_BENEFICIOS") ;;
  match value with
  | Some v =>
      a <- read (tag_get v (lit "schemeID")) ;;
      if string_is a (lit "Array") then
        no_pbs <- _find_text_in_xml xml (lit "Evento NO PBS") ;;
        if no_pbs then
          change (tag_set v (lit "schemeID") (lit "02")) ;;
          change (tag_set_string v ParserV2.presupuesto_maximo)
        else
          pbs <- _find_text_in_xml xml (lit "Evento PBS") ;;
          if pbs then
            change (tag_set v (lit "schemeID") (lit "01")) ;;
            change (tag_set_string v
                      (lit "Plan de beneficios en salud financiado con UPC"))
          else ret tt
      else ret tt
  | None => ret tt
  end.

Definition _process_numero_contrato_in_xml (xml : Soup) : M unit :=
  value <- _find_next_value_in_xml xml (lit "NUMERO_CONTRATO") ;;
  match value with
  | Some v =>
      s <- read (tag_string v) ;;
      if string_is s (lit "Array") then
        subsidiado <- _find_text_in_xml xml (lit "Subsidiado") ;;
        if subsidiado then change (tag_set_string v (lit "10787"))
        else
          contributivo <- _find_text_in_xml xml (lit "Contributivo") ;;
          if contributivo then change (tag_set_string v (lit "3672"))
          else ret tt
      else ret tt
  | None => ret tt
  end.

Definition _process_numero_poliza_in_xml (xml : Soup) : M unit :=
  value <- _find_next_value_in_xml xml (lit "NUMERO_POLIZA") ;;
  match value with
  | Some v =>
      s <- read (tag_string v) ;;
      if string_is s (lit "Array") then change (tag_set_string v (lit "NA"))
      else ret tt
  | None => ret tt
  end.

(** [xml_string.split('\n', 1)] then [lines[1]]: what follows the first
    newline, when there is one. *)
Fixpoint after_first_newline (s : str) : option str :=
  match s with
  | [] => None
  | c :: t => if N.eqb c LF then Some t else after_first_newline t
  end.

Definition strip_declaration (xml_string : str) : str :=
  if startswith xml_string (lit "<?xml") then
    match after_first_newline xml_string with
    | Some rest => rest
    | None => xml_string
    end
  else xml_string.

Fixpoint patch_loop (description_xmls : list (Tag * Soup)) : M unit :=
  match description_xmls with
  | [] => ret tt
  | (description_tag, nested_xml) :: rest =>
      _process_codigo_prestador_in_xml nested_xml ;;
      _process_modalidad_pago_in_xml nested_xml ;;
      _process_cobertura_plan_in_xml nested_xml ;;
      _process_numero_contrato_in_xml nested_xml ;;
      _process_numero_poliza_in_xml nested_xml ;;
      xml_string <- read (bs_str nested_xml) ;;
      o <- self_soup ;;
      x <- soup_attribute o ;;
      nm <- read (tag_name description_tag) ;;
      new_description <- (fun st => let (t, d) := bs_new_tag x nm (store st) in
                                    (Returns t, with_store d st)) ;;
      change (tag_set_cdata new_description (strip_declaration xml_string)) ;;
      change (tag_replace_with description_tag new_description) ;;
      patch_loop rest
  end.

Definition process_all_description_xmls : M (list (Tag * Soup)) :=
  description_xmls <- _get_all_description_xmls ;;
  patch_loop description_xmls ;;
  ret description_xmls.

Definition info_not_found : str :=
  dquote ++ lit "InvoicePeriod" ++ dquote ++ lit " no encontrado, procediendo a modificar".

Definition new_tag_with_string (xml : Soup) (nm text : str) : M Tag :=
  t <- (fun st => let (t, d) := bs_new_tag xml nm (store st) in
                  (Returns t, with_store d st)) ;;
  change (tag_set_string t text) ;;
  ret t.

Fixpoint process_invoice_period (descriptions : list (Tag * Soup)) : M unit :=
  match descriptions with
  | [] => ret tt
  | (description, nested_xml) :: rest =>
      present <- read (bs_find nested_xml (lit "InvoicePeriod")) ;;
      match present with
      | Some _ => process_invoice_period rest
      | None =>
          log_info info_not_found ;;
          line_count <- read (bs_find nested_xml (lit "LineCountNumeric")) ;;
          match line_count with
          | None => process_invoice_period rest
          | Some lc =>
              issue_date_tag <- read (bs_find nested_xml (lit "IssueDate")) ;;
              match issue_date_tag with
              | None => process_invoice_period rest
              | Some idt =>
                  issue_date <- read (tag_string idt) ;;
                  if negb (nonempty issue_date) then process_invoice_period rest
                  else
                    let d := match issue_date with Some d => d | None => [] end in
                    invoice_period <-
                      (fun st => let (t, dm) := bs_new_tag nested_xml
                                                  (lit "cac:InvoicePeriod") (store st) in
                                 (Returns t, with_store dm st)) ;;
                    start_date <- new_tag_with_string nested_xml (lit "cbc:StartDate") d ;;
                    change (tag_append invoice_period start_date) ;;
                    start_time <- new_tag_with_string nested_xml (lit "cbc:StartTime")
                                    (lit "12:00:00") ;;
                    change (tag_append invoice_period start_time) ;;
                    end_date <- new_tag_with_string nested_xml (lit "cbc:EndDate") d ;;
                    change (tag_append invoice_period end_date) ;;
                    end_time <- new_tag_with_string nested_xml (lit "cbc:EndTime")
                                  (lit "11:59:59") ;;
                    change (tag_append invoice_period end_time) ;;
                    change (tag_insert_after lc invoice_period) ;;
                    pretty <- read (bs_prettify nested_xml) ;;
                    change (tag_set_string description pretty) ;;
                    process_invoice_period rest
              end
          end
      end
  end.

(** The statistics dictionary of [process_all]. *)
Record stats := mkStats {
  description_xmls_processed : nat;
  invoice_period_added : bool
}.

Definition is_some {A} (v : option A) : bool :=
  match v with Some _ => true | None => false end.

Definition process_all : M stats :=
  descriptions <- process_all_description_xmls ;;
  o <- self_soup ;;
  x <- soup_attribute o ;;
  before <- read (bs_find x (lit "InvoicePeriod")) ;;
  let invoice_period_exists := is_some before in
  process_invoice_period descriptions ;;
  o' <- self_soup ;;
  x' <- soup_attribute o' ;;
  after <- read (bs_find x' (lit "InvoicePeriod")) ;;
  ret {| description_xmls_processed := length descriptions;
         invoice_period_added := negb invoice_period_exists && is_some after |}.

Definition save (output_path : option str) : M Path :=
  fun st =>
    let target :=
      match output_path with
      | None => with_stem (input_path st)
                  (stem (input_path st) ++ lit "-modificado")
      | Some o => Returns (make_path o)
      end in
    match target with
    | Raises e => (Raises e, st)
    | Returns out =>
        (o <- self_soup ;;
         x <- soup_attribute o ;;
         xml_content <- read (bs_prettify x) ;;
         (fun st' => let (r, w) := write_text out xml_content (env st') in
                     match r with
                     | Returns _ => (Returns out, with_env w st')
                     | Raises e => (Raises e, with_env w st')
                     end)) st
    end.

(** *** What the tree-based engine does *)

Lemma slice_1_2_second {A} (l : list A) :
  slice_1_2 l = match l with _ :: x :: _ => [x] | _ => [] end.
Proof. now destruct l as [|a [|b l]]. Qed.

(** The loop visits its tags in order and files results only for them. *)
Lemma description_loop_results (tags : list Tag) :
  forall acc st results st',
    description_loop tags acc st = (Returns results, st') ->
    exists new, results = acc ++ new /\ length new <= length tags /\
                forall t x, In (t, x) new -> In t tags.
Proof.
  induction tags as [|t rest IH]; intros acc st results st' H.
  - cbn in H. injection H as <- <-. exists []. rewrite app_nil_r. repeat split.
    + cbn. lia.
    + intros ? ? [].
  - cbn [description_loop] in H. unfold bind at 1 in H. unfold read at 1 in H.
    destruct (nonempty (tag_string t (store st))).
    + destruct (BeautifulSoup _ LxmlXml st) as [[parsed|e] st1].
      * destruct (IH _ _ _ _ H) as [new [E [Hlen Hin]]].
        exists ((t, parsed) :: new). rewrite E, <- app_assoc. repeat split.
        -- cbn. lia.
        -- intros t0 x [Heq | Hx]; [injection Heq as <- <-; now left|].
           right. now apply (Hin t0 x).
      * destruct (IH _ _ _ _ H) as [new [E [Hlen Hin]]].
        exists new. repeat split; [exact E | cbn; lia |].
        intros t0 x Hx. right. now apply (Hin t0 x).
    + destruct (IH _ _ _ _ H) as [new [E [Hlen Hin]]].
      exists new. repeat split; [exact E | cbn; lia |].
      intros t0 x Hx. right. now apply (Hin t0 x).
Qed.

(** The contract-number rule of this engine: with the placeholder in the
    value slot, "Subsidiado" is looked for first, "Contributivo" only when
    the first is missing, and with neither the slot is left alone. *)
Lemma tree_numero_contrato_rule (xml : Soup) (name_tag value : Tag) (st : state) :
  bs_find_string xml (lit "Name") (lit "NUMERO_CONTRATO") (store st) = Some name_tag ->
  tag_find_next_sibling name_tag (lit "Value") (store st) = Some value ->
  tag_string value (store st) = Some (lit "Array") ->
  _process_numero_contrato_in_xml xml st
  = (Returns tt,
     if str_in (lit "Subsidiado") (bs_text xml (store st))
     then with_store (tag_set_string value (lit "10787") (store st)) st
     else if str_in (lit "Contributivo") (bs_text xml (store st))
          then with_store (tag_set_string value (lit "3672") (store st)) st
          else st).
Proof.
  intros H1 H2 H3.
  unfold _process_numero_contrato_in_xml, _find_next_value_in_xml, _find_text_in_xml,
    bind, read, ret, change.
  rewrite H1, H2, H3.
  replace (string_is (Some (lit "Array")) (lit "Array")) with true by (vm_compute; reflexivity).
  destruct (str_in (lit "Subsidiado") (bs_text xml (store st))); [reflexivity|].
  destruct (str_in (lit "Contributivo") (bs_text xml (store st))); reflexivity.
Qed.

(** A nested document that already has a period block is passed over. *)
Lemma process_invoice_period_passes (descriptions : list (Tag * Soup)) (st : state) :
  Forall (fun dx => is_some (bs_find (snd dx) (lit "InvoicePeriod") (store st)) = true)
         descriptions ->
  process_invoice_period descriptions st = (Returns tt, st).
Proof.
  induction 1 as [|[d x] rest Hx _ IH]; [reflexivity|].
  cbn [process_invoice_period]. unfold bind at 1. unfold read at 1.
  cbn [snd] in Hx. destruct (bs_find x (lit "InvoicePeriod") (store st)); [exact IH|].
  discriminate.
Qed.

Lemma read_text_returns (p : Path) (w w' : world) (c : str) :
  read_text p w = (Returns c, w') ->
  files w' = files w /\ opened w' = opened w ++ [p] /\ logged w' = logged w.
Proof.
  unfold read_text. destruct (name p); [discriminate|].
  destruct (lookup p (files w)); [|discriminate].
  destruct (utf8_decode l); [|discriminate].
  intros H. injection H as _ <-. now cbn.
Qed.

Lemma read_text_raises_again (p : Path) (w w' w2 : world) (e : exn) :
  read_text p w = (Raises e, w') -> files w2 = files w ->
  exists e' w3, read_text p w2 = (Raises e', w3).
Proof.
  unfold read_text. intros H Hf. rewrite Hf. destruct (name p); [eauto|].
  destruct (lookup p (files w)); [|eauto].
  destruct (utf8_decode l); [discriminate | eauto].
Qed.

Lemma open_and_parse_returns (f : features) (st st1 : state) :
  open_and_parse f st = (Returns tt, st1) ->
  _content st1 = _content st /\ input_path st1 = input_path st /\
  opened (env st1) = opened (env st) ++ [input_path st] /\
  files (env st1) = files (env st) /\ exists x, _soup st1 = Some x.
Proof.
  unfold open_and_parse.
  destruct (read_text (input_path st) (env st)) as [[text|e] w] eqn:E; [|discriminate].
  apply read_text_returns in E. destruct E as [Hf [Ho _]].
  unfold bind, BeautifulSoup. cbn [store with_env].
  destruct (bs_new f text (store st)) as [[x|e] d]; [|discriminate].
  intros H. injection H as <-. cbn. eauto 6.
Qed.

Lemma open_and_parse_raises (f : features) (st st1 : state) (e : exn) :
  open_and_parse f st = (Raises e, st1) ->
  _content st1 = _content st /\ input_path st1 = input_path st /\
  files (env st1) = files (env st) /\
  exists n, opened (env st1) = opened (env st) ++ repeat (input_path st) n.
Proof.
  unfold open_and_parse.
  destruct (read_text (input_path st) (env st)) as [[text|e0] w] eqn:E.
  - apply read_text_returns in E. destruct E as [Hf [Ho _]].
    unfold bind, BeautifulSoup. cbn [store with_env].
    destruct (bs_new f text (store st)) as [[x|e1] d]; [discriminate|].
    intros H. injection H as _ <-. cbn. repeat split; try assumption.
    exists 1. exact Ho.
  - intros H. injection H as _ <-. cbn. repeat split.
    + unfold read_text in E. destruct (name (input_path st)); [now injection E as _ <-|].
      destruct (lookup (input_path st) (files (env st))); [|now injection E as _ <-].
      destruct (utf8_decode l); [discriminate | now injection E as _ <-].
    + unfold read_text in E. destruct (name (input_path st)).
      { injection E as _ <-. exists 0. cbn. now rewrite app_nil_r. }
      destruct (lookup (input_path st) (files (env st))).
      2:{ injection E as _ <-. exists 0. cbn. now rewrite app_nil_r. }
      destruct (utf8_decode l); [discriminate|].
      injection E as _ <-. now exists 1.
Qed.

(** C7 on the tree-based engine: a call of [soup()] that returns has opened
    the file, and has left [_content], the field its cache test looks at, as
    it was; so the next call opens the file again. *)
Theorem soup_reads_the_file_again (st st1 : state) (x : Soup) :
  _content st = None ->
  soup st = (Returns x, st1) ->
  _content st1 = None /\
  exists n, 1 <= n /\
            opened (env st1) = opened (env st) ++ repeat (input_path st) n.
Proof.
  intros Hc. unfold soup. rewrite Hc. unfold bind, try_except.
  destruct (open_and_parse LxmlXml st) as [[[]|e] s1] eqn:E1.
  - apply open_and_parse_returns in E1. destruct E1 as [H1 [_ [H2 [_ [y Hy]]]]].
    rewrite Hy. intros H. injection H as _ <-. split; [congruence|].
    exists 1. split; [lia | exact H2].
  - apply open_and_parse_raises in E1. destruct E1 as [H1 [Hp [_ [n Hn]]]].
    destruct (open_and_parse Lxml s1) as [[[]|e'] s2] eqn:E2; [|discriminate].
    apply open_and_parse_returns in E2. destruct E2 as [H3 [_ [H4 [_ [y Hy]]]]].
    rewrite Hy. intros H. injection H as _ <-. split; [congruence|].
    exists (n + 1). split; [lia|].
    rewrite H4, Hn, Hp, repeat_app, app_assoc. reflexivity.
Qed.

(** C8 on the code as written: [self.soup] is the bound method, its
    [find_all] does not exist, and the method ends there; the loop it never
    reaches would take the second match only. *)
Theorem get_all_description_xmls_raises (st : state) :
  _get_all_description_xmls st = (Raises AttributeError, st) /\
  forall tags : list Tag,
    slice_1_2 tags = match tags with _ :: second :: _ => [second] | _ => [] end.
Proof.
  split; [reflexivity | intros tags; apply slice_1_2_second].
Qed.

(** C6 on the code as written: [process_all] raises before it has counted
    anything; no statistics record is returned. *)
Theorem tree_process_all_raises (st : state) :
  process_all st = (Raises AttributeError, st) /\
  process_all_description_xmls st = (Raises AttributeError, st) /\
  forall out, save (Some out) st = (Raises AttributeError, st).
Proof. repeat split. Qed.

End Engine.

(** A stand-in library for examples: the tree of a text is the text. *)
Definition text_api : BeautifulSoupAPI :=
  {| Dom := unit; Soup := str; Tag := str;
     bs_new := fun _ markup d => (Returns markup, d);
     bs_find_all := fun _ _ _ => [];
     bs_find := fun _ _ _ => None;
     bs_find_string := fun _ _ _ _ => None;
     tag_find_next_sibling := fun _ _ _ => None;
     tag_name := fun t _ => t;
     tag_string := fun t _ => Some t;
     tag_set_string := fun _ _ d => d;
     tag_set_cdata := fun _ _ d => d;
     tag_get := fun _ _ _ => None;
     tag_set := fun _ _ _ d => d;
     tag_append := fun _ _ d => d;
     tag_insert_after := fun _ _ d => d;
     tag_replace_with := fun _ _ d => d;
     bs_new_tag := fun _ nm d => (nm, d);
     bs_text := fun x _ => x;
     bs_str := fun x _ => x;
     bs_prettify := fun x _ => x |}.

Definition sample_tree_state : @state text_api :=
  @init text_api ParserV2.sample_path tt
    (ParserV2.posix_world [(make_path ParserV2.sample_path, [97; 10; 98]%N)]).

(** Two calls of [soup()], two reads of the file. *)
Lemma soup_reads_the_file_again_witness :
  @_content text_api sample_tree_state = None /\
  exists x1 st1 x2 st2,
    @soup text_api sample_tree_state = (Returns x1, st1) /\
    @soup text_api st1 = (Returns x2, st2) /\
    opened (@env text_api st2)
    = [make_path ParserV2.sample_path; make_path ParserV2.sample_path].
Proof.
  split; [reflexivity|].
  destruct (@soup text_api sample_tree_state) as [[x1|e1] st1] eqn:E1;
    [|vm_compute in E1; discriminate].
  destruct (@soup_reads_the_file_again text_api sample_tree_state st1 x1 eq_refl E1)
    as [Hc1 _].
  destruct (@soup text_api st1) as [[x2|e2] st2] eqn:E2.
  - exists x1, st1, x2, st2. split; [reflexivity|]. split; [exact E2|].
    vm_compute in E1. injection E1 as <- <-. vm_compute in E2.
    injection E2 as <- <-. reflexivity.
  - exfalso. vm_compute in E1. injection E1 as <- <-. vm_compute in E2. discriminate.
Defined.

End ParserTree.

(* ===================================================================== *)
(** ** [TagXML]: position and value of a pattern *)
(* ===================================================================== *)

Module Tags.
Import PyStr Py ParserV2.

(** [s.find(p)]: where [p] first starts in [s], [-1] when it does not. *)
Fixpoint find (s p : str) : Z :=
  if startswith s p then 0%Z
  else match s with
       | [] => (-1)%Z
       | _ :: t =>
           let i := find t p in
           if Z.leb 0 i then Z.succ i else (-1)%Z
       end.

(** A slice bound on a string of length [n]: a negative bound counts from
    the end, and every bound is clamped to [0, n]. *)
Definition bound (n : nat) (i : Z) : nat :=
  if Z.ltb i 0 then Z.to_nat (Z.of_nat n + i) else Nat.min n (Z.to_nat i).

(** [s[a:]] *)
Definition slice_from (s : str) (a : Z) : str := skipn (bound (length s) a) s.

(** [s[a:b]] *)
Definition slice (s : str) (a b : Z) : str :=
  let lo := bound (length s) a in
  let hi := bound (length s) b in
  firstn (hi - lo) (skipn lo s).

(** The characters [str.strip()] removes. *)
Definition isspace (c : char) : bool :=
  ((9 <=? c) && (c <=? 13) || (28 <=? c) && (c <=? 32) ||
   (c =? 133) || (c =? 160) || (c =? 5760) ||
   (8192 <=? c) && (c <=? 8202) ||
   (c =? 8232) || (c =? 8233) || (c =? 8239) || (c =? 8287) || (c =? 12288))%N.

Fixpoint lstrip (s : str) : str :=
  match s with
  | c :: t => if isspace c then lstrip t else s
  | [] => []
  end.

Definition rstrip (s : str) : str := rev (lstrip (rev s)).

(** [s.strip()] *)
Definition strip (s : str) : str := rstrip (lstrip s).

(** The [idx] property. *)
Definition idx (t : TagXML) : Z := find (parent t) (original_string t).

(** The [value] property.  [not start_value_tag] holds for index [0] only:
    a pattern without ["<Value"] goes on with [-1]. *)
Definition value (t : TagXML) : option str :=
  let start_value_tag := find (original_string t) (lit "<Value") in
  if Z.eqb start_value_tag 0 then None
  else
    let rest := slice_from (original_string t) start_value_tag in
    let end_value_tag := find rest (lit ">") in
    let end_ := find rest (lit "</Value>") in
    match strip (slice rest (end_value_tag + 1) end_) with
    | [] => None
    | v => Some v
    end.

(** *** Facts about [find] *)

Lemma find_startswith (s p : str) : startswith s p = true -> find s p = 0%Z.
Proof. intros H. destruct s; cbn [find]; now rewrite H. Qed.

Lemma find_spec (s p : str) :
  if str_in p s then
    exists a b, s = a ++ p ++ b /\ find s p = Z.of_nat (length a) /\
                forall a' b', s = a' ++ p ++ b' -> length a <= length a'
  else find s p = (-1)%Z.
Proof.
  induction s as [|c t IH].
  - cbn [str_in find]. rewrite orb_false_r.
    destruct (startswith [] p) eqn:E; [|reflexivity].
    apply startswith_nil in E. subst p. exists [], []. repeat split.
    intros a' b' _. cbn. lia.
  - cbn [str_in find]. destruct (startswith (c :: t) p) eqn:E; cbn [orb].
    + apply startswith_iff in E. destruct E as [b Hb].
      exists [], b. repeat split; [exact Hb|]. intros a' b' _. cbn. lia.
    + destruct (str_in p t).
      * destruct IH as [a [b [Ht [Hf Hmin]]]]. exists (c :: a), b.
        split; [now rewrite Ht|]. split.
        -- rewrite Hf. replace (Z.leb 0 (Z.of_nat (length a))) with true
             by (symmetry; apply Z.leb_le; lia).
           cbn [length]. lia.
        -- intros a' b' H. destruct a' as [|x a'].
           ++ exfalso. cbn [app] in H.
              assert (startswith (c :: t) p = true)
                by (apply startswith_iff; now exists b').
              congruence.
           ++ cbn [app] in H. injection H as _ H. cbn [length].
              specialize (Hmin a' b' H). lia.
      * now rewrite IH.
Qed.

Lemma startswith_within (u v p : str) :
  startswith (u ++ v) p = true -> length p <= length u -> startswith u p = true.
Proof.
  rewrite !startswith_iff. intros [t Ht] Hlen.
  destruct (app_eq_app_cases _ _ _ _ Ht) as [[m [Hp Hv]] | [m [Hu Ht']]].
  - assert (m = []) as ->.
    { apply (f_equal (@length _)) in Hp. rewrite length_app in Hp.
      destruct m; [reflexivity | cbn in Hp; lia]. }
    exists []. rewrite app_nil_r in Hp. subst p. now rewrite app_nil_r.
  - now exists m.
Qed.

(** An occurrence with no earlier one is the one [find] reports. *)
Lemma find_first_at (a p b : str) :
  str_in p (a ++ removelast p) = false ->
  find (a ++ p ++ b) p = Z.of_nat (length a).
Proof.
  intros H. induction a as [|c a IH].
  - cbn [app length]. apply find_startswith, startswith_app.
  - cbn [app str_in] in H. apply orb_false_iff in H. destruct H as [Hs Hin].
    cbn [app find].
    replace (startswith (c :: a ++ p ++ b) p) with false.
    + rewrite (IH Hin).
      replace (Z.leb 0 (Z.of_nat (length a))) with true
        by (symmetry; apply Z.leb_le; lia).
      cbn [length]. lia.
    + symmetry. destruct (startswith (c :: a ++ p ++ b) p) eqn:E; [|reflexivity].
      rewrite <- Hs. symmetry.
      assert (Hp : p <> []) by (intros ->; discriminate).
      pose proof (@app_removelast_last char p 0%N Hp) as Hcut.
      apply (startswith_within _ ([last p 0%N] ++ b)).
      * rewrite <- E. f_equal.
        rewrite <- app_comm_cons, <- app_assoc, (app_assoc (removelast p)).
        do 3 f_equal. symmetry. exact Hcut.
      * apply (f_equal (@length _)) in Hcut. rewrite length_app in Hcut.
        cbn [length] in *. rewrite length_app. lia.
Qed.

(** *** The position of a pattern *)

(** X1. [idx] is [-1] exactly when the pattern is not present; otherwise it
    is the length of the text before the first occurrence of the pattern. *)
Theorem idx_first_occurrence (t : TagXML) :
  if is_present t then
    exists a b,
      parent t = a ++ original_string t ++ b /\
      idx t = Z.of_nat (length a) /\
      forall a' b', parent t = a' ++ original_string t ++ b' -> length a <= length a'
  else idx t = (-1)%Z.
Proof. unfold is_present, idx. apply find_spec. Qed.

(** *** The value of a pattern *)

Lemma find_absent (s p : str) : str_in p s = false -> find s p = (-1)%Z.
Proof. intros H. pose proof (find_spec s p) as F. now rewrite H in F. Qed.

Lemma str_in_length (p s : str) : str_in p s = true -> length p <= length s.
Proof.
  intros H. apply str_in_iff in H. destruct H as [a [b ->]].
  rewrite !length_app. lia.
Qed.

(** X2. A pattern that holds no ["<Value"], or that starts with it, has no
    value: [find] answers [-1] in the first case and [0] in the second, and
    [not] takes only the [0] for a miss; with [-1] the method goes on, on the
    last character of the pattern, and ends with an empty slice. *)
Theorem value_none_without_slot (t : TagXML) :
  str_in (lit "<Value") (original_string t) = false \/
  startswith (original_string t) (lit "<Value") = true ->
  value t = None.
Proof.
  intros [H | H]; unfold value; cbv zeta.
  - rewrite (find_absent _ _ H). cbn [Z.eqb].
    set (rest := slice_from (original_string t) (-1)).
    assert (Hlen : length rest <= 1).
    { subst rest. unfold slice_from, bound. cbn [Z.ltb Z.compare].
      rewrite length_skipn. lia. }
    clearbody rest.
    assert (Hend : find rest (lit "</Value>") = (-1)%Z).
    { apply find_absent. destruct (str_in (lit "</Value>") rest) eqn:E; [|reflexivity].
      apply str_in_length in E.
      replace (length (lit "</Value>")) with 8 in E by reflexivity. lia. }
    rewrite Hend. unfold slice, bound. cbn [Z.ltb Z.compare].
    replace (Z.to_nat (Z.of_nat (length rest) + -1)) with 0 by lia.
    reflexivity.
  - now rewrite (find_startswith _ _ H).
Qed.

(** X3. A pattern made of a non-empty lead, an opening ["<Value ...>"], an
    inner text and the closing tag has the inner text, stripped, for value,
    and no value when nothing is left of it. *)
Theorem value_of_slot (pre attrs inner post par : str) :
  pre <> [] ->
  str_in (lit "<Value") (pre ++ lit "<Valu") = false ->
  str_in (lit ">") (lit "<Value" ++ attrs) = false ->
  str_in (lit "</Value>") (lit "<Value" ++ attrs ++ lit ">" ++ inner ++ lit "</Value")
  = false ->
  value {| original_string :=
             pre ++ lit "<Value" ++ attrs ++ lit ">" ++ inner ++ lit "</Value>" ++ post;
           parent := par |}
  = match strip inner with
    | [] => None
    | v => Some v
    end.
Proof.
  intros Hpre H1 H2 H3. unfold value. cbn [original_string]. cbv zeta.
  set (tail := lit "<Value" ++ attrs ++ lit ">" ++ inner ++ lit "</Value>" ++ post).
  assert (Hfind : find (pre ++ tail) (lit "<Value") = Z.of_nat (length pre)).
  { subst tail. now apply find_first_at. }
  rewrite Hfind.
  replace (Z.eqb (Z.of_nat (length pre)) 0) with false.
  2:{ symmetry. apply Z.eqb_neq. destruct pre; [contradiction | cbn; lia]. }
  assert (Hrest : slice_from (pre ++ tail) (Z.of_nat (length pre)) = tail).
  { unfold slice_from, bound.
    replace (Z.ltb (Z.of_nat (length pre)) 0) with false
      by (symmetry; apply Z.ltb_ge; lia).
    rewrite Nat2Z.id, length_app, Nat.min_r by lia.
    rewrite skipn_app, skipn_all, Nat.sub_diag. reflexivity. }
  rewrite Hrest.
  assert (Hgt : find tail (lit ">") = Z.of_nat (length (lit "<Value" ++ attrs))).
  { subst tail. rewrite (app_assoc (lit "<Value") attrs).
    apply find_first_at. cbn [removelast lit]. now rewrite app_nil_r. }
  assert (Hclose : find tail (lit "</Value>")
                   = Z.of_nat (length (lit "<Value" ++ attrs ++ lit ">" ++ inner))).
  { subst tail.
    replace (lit "<Value" ++ attrs ++ lit ">" ++ inner ++ lit "</Value>" ++ post)
      with ((lit "<Value" ++ attrs ++ lit ">" ++ inner) ++ lit "</Value>" ++ post)
      by (now rewrite <- !app_assoc).
    apply find_first_at.
    replace ((lit "<Value" ++ attrs ++ lit ">" ++ inner) ++ removelast (lit "</Value>"))
      with (lit "<Value" ++ attrs ++ lit ">" ++ inner ++ lit "</Value"); [exact H3|].
    repeat rewrite <- app_assoc. reflexivity. }
  rewrite Hgt, Hclose.
  assert (Hslice : slice tail (Z.of_nat (length (lit "<Value" ++ attrs)) + 1)
                     (Z.of_nat (length (lit "<Value" ++ attrs ++ lit ">" ++ inner)))
                   = inner).
  { unfold slice, bound. cbv zeta.
    replace (Z.ltb (Z.of_nat (length (lit "<Value" ++ attrs)) + 1) 0) with false
      by (symmetry; apply Z.ltb_ge; lia).
    replace (Z.ltb (Z.of_nat (length (lit "<Value" ++ attrs ++ lit ">" ++ inner))) 0)
      with false by (symmetry; apply Z.ltb_ge; lia).
    rewrite Nat2Z.id.
    replace (Z.to_nat (Z.of_nat (length (lit "<Value" ++ attrs)) + 1))
      with (length ((lit "<Value" ++ attrs) ++ lit ">"))
      by (rewrite (length_app _ (lit ">")); change (length (lit ">")) with 1; lia).
    assert (Hl1 : length ((lit "<Value" ++ attrs) ++ lit ">") <= length tail).
    { subst tail. rewrite !length_app. lia. }
    assert (Hl2 : length (lit "<Value" ++ attrs ++ lit ">" ++ inner) <= length tail).
    { subst tail. rewrite !length_app. lia. }
    rewrite !Nat.min_r by assumption.
    replace tail with (((lit "<Value" ++ attrs) ++ lit ">") ++ inner ++ lit "</Value>" ++ post)
      by (subst tail; now rewrite <- !app_assoc).
    rewrite skipn_app, skipn_all, Nat.sub_diag. cbn [skipn app].
    replace (length (lit "<Value" ++ attrs ++ lit ">" ++ inner) -
             length ((lit "<Value" ++ attrs) ++ lit ">")) with (length inner)
      by (rewrite !length_app; lia).
    rewrite firstn_app, firstn_all, Nat.sub_diag. cbn [firstn]. apply app_nil_r. }
  now rewrite Hslice.
Qed.

(** The provider-code pattern, seen as lead, slot and value. *)
Lemma value_of_slot_witness :
  name_then_value (lit "CODIGO_PRESTADOR") [] <> [] /\
  str_in (lit "<Value") (name_then_value (lit "CODIGO_PRESTADOR") [] ++ lit "<Valu") = false /\
  str_in (lit ">") (lit "<Value" ++ []) = false /\
  str_in (lit "</Value>") (lit "<Value" ++ [] ++ lit ">" ++ lit "Array" ++ lit "</Value")
  = false /\
  value {| original_string :=
             name_then_value (lit "CODIGO_PRESTADOR") [] ++
             lit "<Value" ++ [] ++ lit ">" ++ lit "Array" ++ lit "</Value>" ++ [];
           parent := [] |}
  = Some (lit "Array").
Proof.
  split; [discriminate|]. split; [vm_compute; reflexivity|].
  split; [vm_compute; reflexivity|]. split; [vm_compute; reflexivity|].
  apply (value_of_slot (name_then_value (lit "CODIGO_PRESTADOR") []) [] (lit "Array") [] []).
  - discriminate.
  - vm_compute; reflexivity.
  - vm_compute; reflexivity.
  - vm_compute; reflexivity.
Defined.

(** The marker patterns hold no value slot. *)
Lemma value_none_without_slot_witness :
  (str_in (lit "<Value") evento_no_pbs_string = false \/
   startswith evento_no_pbs_string (lit "<Value") = true) /\
  value {| original_string := evento_no_pbs_string; parent := [] |} = None.
Proof.
  split; [left; vm_compute; reflexivity|].
  apply (value_none_without_slot {| original_string := evento_no_pbs_string; parent := [] |}).
  left. vm_compute; reflexivity.
Defined.

End Tags.

(* ===================================================================== *)
(** ** The literal-text engine: the other rules, failures, and the file *)
(* ===================================================================== *)

Module Pipeline.
Import PyStr Py ParserV2.
Local Open Scope py_scope.

(** *** The codec, there and back *)

Lemma div_4096 (c : N) : (c / 4096 = c / 64 / 64)%N.
Proof. now rewrite N.Div0.div_div. Qed.

Lemma div_262144 (c : N) : (c / 262144 = c / 64 / 64 / 64)%N.
Proof. now rewrite !N.Div0.div_div. Qed.

Ltac split_64 c :=
  pose proof (N.Div0.div_mod c 64);
  pose proof (N.mod_lt c 64 ltac:(discriminate));
  pose proof (N.Div0.div_mod (c / 64) 64);
  pose proof (N.mod_lt (c / 64) 64 ltac:(discriminate));
  pose proof (N.Div0.div_mod (c / 64 / 64) 64);
  pose proof (N.mod_lt (c / 64 / 64) 64 ltac:(discriminate));
  let q1 := fresh "q" in let E1 := fresh "Eq" in
  remember (c / 64)%N as q1 eqn:E1 in *; clear E1;
  let q2 := fresh "q" in let E2 := fresh "Eq" in
  remember (q1 / 64)%N as q2 eqn:E2 in *; clear E2;
  let q3 := fresh "q" in let E3 := fresh "Eq" in
  remember (q2 / 64)%N as q3 eqn:E3 in *; clear E3;
  let r1 := fresh "r" in let F1 := fresh "Er" in
  remember (c mod 64)%N as r1 eqn:F1 in *; clear F1;
  let r2 := fresh "r" in let F2 := fresh "Er" in
  remember (q1 mod 64)%N as r2 eqn:F2 in *; clear F2;
  let r3 := fresh "r" in let F3 := fresh "Er" in
  remember (q2 mod 64)%N as r3 eqn:F3 in *; clear F3.

Ltac bools :=
  repeat match goal with
  | H : _ /\ _ |- _ => destruct H
  | H : _ \/ _ |- _ => destruct H
  | H : _ && _ = true |- _ => apply andb_true_iff in H
  | H : _ && _ = false |- _ => apply andb_false_iff in H
  | H : negb _ = true |- _ => apply negb_true_iff in H
  | H : negb _ = false |- _ => apply negb_false_iff in H
  | H : (_ <? _)%N = true |- _ => apply N.ltb_lt in H
  | H : (_ <? _)%N = false |- _ => apply N.ltb_ge in H
  | H : (_ <=? _)%N = true |- _ => apply N.leb_le in H
  | H : (_ <=? _)%N = false |- _ => apply N.leb_gt in H
  | H : (_ =? _)%N = true |- _ => apply N.eqb_eq in H
  | H : (_ =? _)%N = false |- _ => apply N.eqb_neq in H
  end.

Ltac take_branch :=
  match goal with
  | |- (if ?b then _ else _) = _ =>
      let E := fresh "E" in
      destruct b eqn:E; [| exfalso; unfold cont in *; bools; lia]
  end.

Ltac skip_branch :=
  match goal with
  | |- (if ?b then _ else _) = _ =>
      let E := fresh "E" in
      destruct b eqn:E; [exfalso; unfold cont in *; bools; lia |]
  end.

Lemma utf8_decode_encode_char (c : char) (rest : list byte) :
  match utf8_encode_char c with
  | Some bs => utf8_decode (bs ++ rest) = option_map (cons c) (utf8_decode rest)
  | None => True
  end.
Proof.
  unfold utf8_encode_char.
  destruct (c <? 128)%N eqn:E1.
  { cbn [app utf8_decode]. now rewrite E1. }
  destruct (c <? 2048)%N eqn:E2.
  { remember (192 + c / 64)%N as b0 eqn:Hb0.
    remember (128 + c mod 64)%N as b1 eqn:Hb1.
    cbn [app utf8_decode]. split_64 c.
    skip_branch. take_branch. take_branch.
    do 2 f_equal. bools; lia. }
  destruct (c <? 65536)%N eqn:E3.
  { destruct ((55296 <=? c) && (c <=? 57343))%N eqn:E4; [exact I|].
    rewrite div_4096.
    remember (224 + c / 64 / 64)%N as b0 eqn:Hb0.
    remember (128 + (c / 64) mod 64)%N as b1 eqn:Hb1.
    remember (128 + c mod 64)%N as b2 eqn:Hb2.
    cbn [app utf8_decode]. split_64 c.
    skip_branch. skip_branch. take_branch. take_branch.
    do 2 f_equal. bools; lia. }
  destruct (c <? 1114112)%N eqn:E4; [|exact I].
  rewrite div_262144, div_4096.
  remember (240 + c / 64 / 64 / 64)%N as b0 eqn:Hb0.
  remember (128 + (c / 64 / 64) mod 64)%N as b1 eqn:Hb1.
  remember (128 + (c / 64) mod 64)%N as b2 eqn:Hb2.
  remember (128 + c mod 64)%N as b3 eqn:Hb3.
  cbn [app utf8_decode]. split_64 c.
  skip_branch. skip_branch. skip_branch. take_branch. take_branch.
  do 2 f_equal. bools; lia.
Qed.

(** What [utf8_encode] writes, [utf8_decode] reads back. *)
Lemma utf8_decode_encode (s : str) (bs : list byte) :
  utf8_encode s = Some bs -> utf8_decode bs = Some s.
Proof.
  revert bs. induction s as [|c t IH]; intros bs; cbn [utf8_encode].
  - intros H. now injection H as <-.
  - destruct (utf8_encode_char c) as [b|] eqn:Ec; [|discriminate].
    destruct (utf8_encode t) as [rest|]; [|discriminate].
    intros H. injection H as <-.
    pose proof (utf8_decode_encode_char c rest) as Hc. rewrite Ec in Hc.
    rewrite Hc, (IH rest eq_refl). reflexivity.
Qed.

(** *** Carriage returns *)

Definition no_cr (s : str) : Prop := Forall (fun ch => N.eqb ch CR = false) s.

Lemma universal_newlines_no_cr (s : str) : no_cr (universal_newlines s).
Proof.
  remember (length s) as n eqn:Hn. revert s Hn.
  induction n as [n IH] using lt_wf_ind. intros s Hn.
  destruct s as [|c t]; [constructor|]. cbn [universal_newlines].
  destruct (N.eqb c CR) eqn:E.
  - destruct t as [|c' t']; [repeat constructor|].
    destruct (N.eqb c' LF).
    + constructor; [reflexivity|].
      apply (IH (length t')); [subst n; simpl; lia | reflexivity].
    + constructor; [reflexivity|].
      apply (IH (length (c' :: t'))); [subst n; simpl; lia | reflexivity].
  - constructor; [exact E|].
    apply (IH (length t)); [subst n; simpl; lia | reflexivity].
Qed.

Lemma universal_newlines_fixed (s : str) : no_cr s -> universal_newlines s = s.
Proof.
  induction 1 as [|c t Hc _ IH]; [reflexivity|].
  cbn [universal_newlines]. now rewrite Hc, IH.
Qed.

Lemma no_cr_check (s : str) :
  forallb (fun ch => negb (N.eqb ch CR)) s = true -> no_cr s.
Proof.
  intros H. apply Forall_forall. intros x Hx.
  rewrite forallb_forall in H. apply negb_true_iff. now apply H.
Qed.

Section Rules.

Variable is_digit : char -> bool.

Hypothesis is_digit_ascii :
  forall ch, (ch < 128)%N -> is_digit ch = (N.leb 48 ch && N.leb ch 57)%N.

Ltac by_table := vm_compute; reflexivity.

(** The rules put no carriage return into the text. *)
Lemma process_all_text_no_cr (c : str) :
  no_cr c -> no_cr (process_all_text is_digit c).
Proof.
  intros H.
  assert (H5 : no_cr (field_rules_text c)).
  { unfold field_rules_text.
    rewrite numero_poliza_text_eq.
    apply Forall_replace; [discriminate | | apply no_cr_check; by_table].
    rewrite numero_contrato_text_eq.
    assert (H3 : no_cr (modalidad_pago_text (codigo_prestador_text (cobertura_text c)))).
    { rewrite modalidad_pago_text_eq.
      apply Forall_replace; [discriminate | | apply no_cr_check; by_table].
      rewrite codigo_prestador_text_eq.
      apply Forall_replace; [discriminate | | apply no_cr_check; by_table].
      rewrite cobertura_text_eq.
      destruct (str_in evento_no_pbs_string c).
      { apply Forall_replace; [discriminate | exact H | apply no_cr_check; by_table]. }
      destruct (str_in evento_pbs_string c); [|exact H].
      apply Forall_replace; [discriminate | exact H | apply no_cr_check; by_table]. }
    destruct (str_in subsidiado_string _).
    { apply Forall_replace; [discriminate | exact H3 | apply no_cr_check; by_table]. }
    destruct (str_in contributivo_string _); [|exact H3].
    apply Forall_replace; [discriminate | exact H3 | apply no_cr_check; by_table]. }
  unfold process_all_text.
  destruct (invoice_period_text_cases is_digit (field_rules_text c))
    as [-> | [d [_ [_ [Hd [_ [_ ->]]]]]]]; [exact H5|].
  apply Forall_replace; [discriminate | exact H5 |].
  assert (Hdd : no_cr d).
  { apply Forall_forall. intros x Hx. unfold no_cr in H5.
    rewrite Forall_forall in H5. apply H5. now apply (re_search_incl is_digit _ _ Hd). }
  rewrite new_invoice_period_cut.
  repeat (apply Forall_app; split); try exact Hdd; apply no_cr_check; by_table.
Qed.

(** *** The rules that come later keep what an earlier rule wrote *)

Lemma after_codigo_prestador (x c1 : str) :
  period_check x (lit "<Name>") = true ->
  keeps_check x numero_poliza_string numero_poliza_new = true ->
  keeps_check x numero_contrato_string contrato_10787 = true ->
  keeps_check x numero_contrato_string contrato_3672 = true ->
  keeps_check x modalidad_pago_string modalidad_pago_new = true ->
  occurrences x
    (invoice_period_text is_digit
       (numero_poliza_text (numero_contrato_text (modalidad_pago_text c1))))
  = occurrences x c1.
Proof.
  intros Hip Hpo H1 H2 Hmo.
  rewrite (invoice_period_keeps is_digit is_digit_ascii x (lit "<Name>")) by exact Hip.
  rewrite numero_poliza_keeps by exact Hpo.
  rewrite numero_contrato_keeps by assumption.
  now rewrite modalidad_pago_keeps by exact Hmo.
Qed.

Lemma after_cobertura (x c1 : str) :
  period_check x (lit "<Name>") = true ->
  keeps_check x numero_poliza_string numero_poliza_new = true ->
  keeps_check x numero_contrato_string contrato_10787 = true ->
  keeps_check x numero_contrato_string contrato_3672 = true ->
  keeps_check x modalidad_pago_string modalidad_pago_new = true ->
  keeps_check x codigo_prestador_string codigo_prestador_new = true ->
  occurrences x
    (invoice_period_text is_digit
       (numero_poliza_text
          (numero_contrato_text (modalidad_pago_text (codigo_prestador_text c1)))))
  = occurrences x c1.
Proof.
  intros Hip Hpo H1 H2 Hmo Hco.
  rewrite after_codigo_prestador by assumption.
  now rewrite codigo_prestador_keeps by exact Hco.
Qed.

(** *** The coverage rule through the whole pipeline *)

Lemma cobertura_through (c : str) :
  let c' := process_all_text is_digit c in
  if str_in evento_no_pbs_string c then
    occurrences cobertura_string c' = 0 /\
    occurrences cobertura_02 c'
    = occurrences cobertura_02 c + occurrences cobertura_string c /\
    occurrences cobertura_01 c' = occurrences cobertura_01 c
  else if str_in evento_pbs_string c then
    occurrences cobertura_string c' = 0 /\
    occurrences cobertura_01 c'
    = occurrences cobertura_01 c + occurrences cobertura_string c /\
    occurrences cobertura_02 c' = occurrences cobertura_02 c
  else
    occurrences cobertura_string c' = occurrences cobertura_string c /\
    occurrences cobertura_02 c' = occurrences cobertura_02 c /\
    occurrences cobertura_01 c' = occurrences cobertura_01 c.
Proof.
  cbv zeta. unfold process_all_text, field_rules_text.
  destruct (str_in evento_no_pbs_string c) eqn:E1;
    [| destruct (str_in evento_pbs_string c) eqn:E2];
    (split; [| split]); rewrite after_cobertura by by_table;
    rewrite cobertura_text_eq, E1; try rewrite E2; try reflexivity.
  - apply clears_replace. by_table.
  - apply fills_replace. by_table.
  - apply keeps_replace. by_table.
  - apply clears_replace. by_table.
  - apply fills_replace. by_table.
  - apply keeps_replace. by_table.
Qed.

(** *** The three rules without a context condition *)

Lemma codigo_prestador_through (c : str) :
  let c' := process_all_text is_digit c in
  occurrences codigo_prestador_string c' = 0 /\
  occurrences codigo_prestador_new c'
  = occurrences codigo_prestador_new c + occurrences codigo_prestador_string c.
Proof.
  cbv zeta. unfold process_all_text, field_rules_text.
  split; rewrite after_codigo_prestador by by_table; rewrite codigo_prestador_text_eq.
  - apply clears_replace. by_table.
  - rewrite fills_replace by by_table.
    f_equal; apply cobertura_keeps; by_table.
Qed.

Lemma modalidad_pago_through (c : str) :
  let c' := process_all_text is_digit c in
  occurrences modalidad_pago_string c' = 0 /\
  occurrences modalidad_pago_new c'
  = occurrences modalidad_pago_new c + occurrences modalidad_pago_string c.
Proof.
  cbv zeta. unfold process_all_text, field_rules_text.
  split;
    rewrite (invoice_period_keeps is_digit is_digit_ascii _ (lit "<Name>")) by by_table;
    rewrite numero_poliza_keeps by by_table;
    rewrite numero_contrato_keeps by by_table;
    rewrite modalidad_pago_text_eq.
  - apply clears_replace. by_table.
  - rewrite fills_replace by by_table.
    f_equal.
    + rewrite codigo_prestador_keeps by by_table. apply cobertura_keeps; by_table.
    + rewrite codigo_prestador_keeps by by_table. apply cobertura_keeps; by_table.
Qed.

Lemma numero_poliza_through (c : str) :
  let c' := process_all_text is_digit c in
  occurrences numero_poliza_string c' = 0 /\
  occurrences numero_poliza_new c'
  = occurrences numero_poliza_new c + occurrences numero_poliza_string c.
Proof.
  cbv zeta. unfold process_all_text, field_rules_text.
  split;
    rewrite (invoice_period_keeps is_digit is_digit_ascii _ (lit "<Name>")) by by_table;
    rewrite numero_poliza_text_eq.
  - apply clears_replace. by_table.
  - rewrite fills_replace by by_table.
    f_equal.
    + rewrite numero_contrato_keeps, modalidad_pago_keeps,
        codigo_prestador_keeps by by_table. apply cobertura_keeps; by_table.
    + rewrite numero_contrato_keeps, modalidad_pago_keeps,
        codigo_prestador_keeps by by_table. apply cobertura_keeps; by_table.
Qed.

(** *** The pipeline, rule by rule *)

(** X4. In a document that holds the coverage placeholder, after
    [process_all] every placeholder slot reads 02 "Presupuesto máximo" when
    the document holds "Evento NO PBS" (whether or not it holds "Evento PBS"
    as well), 01 when it holds "Evento PBS" only, and is left as it was when
    it holds neither; the rules that run after the coverage rule do not
    touch what it wrote. *)
Theorem cobertura_pipeline (st : state) (c : str) :
  sees st c ->
  str_in cobertura_string c = true ->
  exists st' c',
    process_all is_digit st = (Returns tt, st') /\
    _content st' = Some c' /\
    (if str_in evento_no_pbs_string c then
       str_in cobertura_string c' = false /\
       str_in cobertura_02 c' = true /\
       occurrences cobertura_02 c'
       = occurrences cobertura_02 c + occurrences cobertura_string c /\
       occurrences cobertura_01 c' = occurrences cobertura_01 c
     else if str_in evento_pbs_string c then
       str_in cobertura_string c' = false /\
       str_in cobertura_01 c' = true /\
       occurrences cobertura_01 c'
       = occurrences cobertura_01 c + occurrences cobertura_string c /\
       occurrences cobertura_02 c' = occurrences cobertura_02 c
     else
       str_in cobertura_string c' = true /\
       occurrences cobertura_string c' = occurrences cobertura_string c /\
       occurrences cobertura_02 c' = occurrences cobertura_02 c /\
       occurrences cobertura_01 c' = occurrences cobertura_01 c).
Proof.
  intros Hs Hp.
  destruct (loads_sees (process_all is_digit) st c
              (process_all_loads_content is_digit) Hs) as [w' [Hrun _]].
  rewrite process_all_runs in Hrun.
  eexists. exists (process_all_text is_digit c).
  split; [exact Hrun|]. split; [reflexivity|].
  pose proof (cobertura_through c) as H. cbv zeta in H.
  assert (Hpos : 0 < occurrences cobertura_string c).
  { apply occurrences_pos; [discriminate | exact Hp]. }
  destruct (str_in evento_no_pbs_string c).
  { destruct H as [H0 [H1 H2]]. repeat split; try assumption.
    - apply absent_occurrences; [by_table | exact H0].
    - apply occurrences_pos; [discriminate|]. lia. }
  destruct (str_in evento_pbs_string c).
  { destruct H as [H0 [H1 H2]]. repeat split; try assumption.
    - apply absent_occurrences; [by_table | exact H0].
    - apply occurrences_pos; [discriminate|]. lia. }
  destruct H as [H0 [H1 H2]]. repeat split; try assumption.
  apply occurrences_pos; [discriminate|]. lia.
Qed.

(** X5. The three rules without a context condition, through the whole
    pipeline: after [process_all] no provider-code, payment-modality or
    policy-number placeholder is left, and each patched text occurs once more
    for every placeholder there was. *)
Theorem fixed_rules_pipeline (st : state) (c : str) :
  sees st c ->
  exists st' c',
    process_all is_digit st = (Returns tt, st') /\
    _content st' = Some c' /\
    (str_in codigo_prestador_string c' = false /\
     occurrences codigo_prestador_new c'
     = occurrences codigo_prestador_new c + occurrences codigo_prestador_string c) /\
    (str_in modalidad_pago_string c' = false /\
     occurrences modalidad_pago_new c'
     = occurrences modalidad_pago_new c + occurrences modalidad_pago_string c) /\
    (str_in numero_poliza_string c' = false /\
     occurrences numero_poliza_new c'
     = occurrences numero_poliza_new c + occurrences numero_poliza_string c).
Proof.
  intros Hs.
  destruct (loads_sees (process_all is_digit) st c
              (process_all_loads_content is_digit) Hs) as [w' [Hrun _]].
  rewrite process_all_runs in Hrun.
  eexists. exists (process_all_text is_digit c).
  split; [exact Hrun|]. split; [reflexivity|].
  destruct (codigo_prestador_through c) as [A0 A1].
  destruct (modalidad_pago_through c) as [B0 B1].
  destruct (numero_poliza_through c) as [C0 C1].
  repeat split; try assumption; apply absent_occurrences; try assumption; by_table.
Qed.

Lemma tag_of_sees (pat : str) (st : state) (c : str) :
  sees st c ->
  exists st', tag_of pat st = (Returns {| original_string := pat; parent := c |}, st').
Proof.
  intros Hs.
  destruct (loads_sees (tag_of pat) st c (bind_loads _ _ content_loads) Hs)
    as [w' [Hrun _]].
  rewrite Hrun. now eexists.
Qed.

(** X6. The pattern of [evento_pbs_subsidiado] carries both the marker of
    the coverage rule and the first marker of the contract rule: in a
    document where it is present no coverage or contract placeholder survives
    [process_all], every contract slot gets 10787 and none 3672, and the
    coverage slots get 01 unless "Evento NO PBS" is there too. *)
Theorem evento_pbs_subsidiado_decides (st : state) (c : str) :
  sees st c ->
  str_in evento_pbs_subsidiado_string c = true ->
  (exists t st0, evento_pbs_subsidiado st = (Returns t, st0) /\ is_present t = true) /\
  exists st' c',
    process_all is_digit st = (Returns tt, st') /\
    _content st' = Some c' /\
    str_in cobertura_string c' = false /\
    str_in numero_contrato_string c' = false /\
    occurrences contrato_10787 c'
    = occurrences contrato_10787 c + occurrences numero_contrato_string c /\
    occurrences contrato_3672 c' = occurrences contrato_3672 c /\
    (if str_in evento_no_pbs_string c
     then occurrences cobertura_02 c'
          = occurrences cobertura_02 c + occurrences cobertura_string c
     else occurrences cobertura_01 c'
          = occurrences cobertura_01 c + occurrences cobertura_string c).
Proof.
  intros Hs Hp. split.
  - destruct (tag_of_sees evento_pbs_subsidiado_string st c Hs) as [st0 H].
    eexists. exists st0. split; [exact H | exact Hp].
  - destruct (loads_sees (process_all is_digit) st c
                (process_all_loads_content is_digit) Hs) as [w' [Hrun _]].
    rewrite process_all_runs in Hrun.
    eexists. exists (process_all_text is_digit c).
    split; [exact Hrun|]. split; [reflexivity|].
    assert (Hpbs : str_in evento_pbs_string c = true).
    { apply (str_in_trans _ evento_pbs_subsidiado_string); [by_table | exact Hp]. }
    assert (Hsub : str_in subsidiado_string c = true).
    { apply (str_in_trans _ evento_pbs_subsidiado_string); [by_table | exact Hp]. }
    pose proof (cobertura_through c) as Hc. cbv zeta in Hc.
    pose proof (numero_contrato_through is_digit is_digit_ascii c) as Hn.
    cbv zeta in Hn. rewrite Hsub in Hn. rewrite Hpbs in Hc.
    destruct Hn as [N0 [N1 N2]].
    destruct (str_in evento_no_pbs_string c); destruct Hc as [C0 [C1 C2]];
      repeat split; try assumption; apply absent_occurrences; try assumption; by_table.
Qed.

(** *** Failures *)

Lemma read_text_raises (p : Path) (w w1 : world) (e : exn) :
  read_text p w = (Raises e, w1) ->
  files w1 = files w /\ logged w1 = logged w /\
  (e = FileNotFoundError \/ e = IsADirectoryError \/ e = UnicodeDecodeError).
Proof.
  unfold read_text. destruct (name p).
  { intros H. injection H as <- <-. auto. }
  destruct (lookup p (files w)) as [data|].
  2:{ intros H. injection H as <- <-. auto. }
  destruct (utf8_decode data); [discriminate|].
  intros H. injection H as <- <-. cbn. auto.
Qed.

(** X7. [File.update_invoice] handles no exception of the read: when
    reading the input file fails, the exception of the read is the one that
    leaves [process_all], at the first rule's first look at the content and
    with the cache still empty, and so the one that leaves [update_invoice];
    no rule has run, nothing is written and nothing is logged. *)
Theorem update_invoice_read_raises (s : str) (w w1 : world) (e : exn) :
  read_text (make_path s) w = (Raises e, w1) ->
  process_all is_digit (init s w) = (Raises e, with_env w1 (init s w)) /\
  update_invoice is_digit s w = (Raises e, w1) /\
  files w1 = files w /\ logged w1 = logged w.
Proof.
  intros R. destruct (read_text_raises _ _ _ _ R) as [Hf [Hl _]].
  assert (Hp : process_all is_digit (init s w) = (Raises e, with_env w1 (init s w))).
  { unfold init. rewrite (process_all_loads_content is_digit (make_path s) w), R.
    reflexivity. }
  split; [exact Hp|]. split; [| split; assumption].
  unfold update_invoice. rewrite Hp. reflexivity.
Qed.

(** Path strings whose components are all empty or ["."]. *)
Definition nameless (s : str) : bool :=
  forallb (fun g => str_eqb g [] || str_eqb g [dot]) (split_on slash s).

Lemma nameless_name (s : str) : nameless s = true -> name (make_path s) = [].
Proof.
  unfold nameless, name, make_path. cbn [parts].
  induction (split_on slash s) as [|g rest IH]; [reflexivity|].
  cbn [forallb filter]. intros H. apply andb_true_iff in H. destruct H as [Hg Hrest].
  replace (negb (str_eqb g []) && negb (str_eqb g [dot])) with false.
  - now apply IH.
  - symmetry. rewrite <- negb_orb. now rewrite Hg.
Qed.

(** X8. A path string without a final component (["/"], ["."], the empty
    string, ["./"], ...) names no file: [save] without an output path raises
    [ValueError] when it derives the name, before it looks at the content,
    and [update_invoice] raises [IsADirectoryError] at the read. *)
Theorem path_without_name (s : str) (w : world) :
  nameless s = true ->
  save None (init s w) = (Raises ValueError, init s w) /\
  update_invoice is_digit s w = (Raises IsADirectoryError, w).
Proof.
  intros H. apply nameless_name in H. split.
  - unfold save, with_stem, with_name, init. cbn [input_path]. now rewrite H.
  - unfold update_invoice, init.
    rewrite (process_all_loads_content is_digit (make_path s) w).
    unfold read_text. now rewrite H.
Qed.

(** *** What a run does to the world *)

Lemma invoice_period_warnings_cases (c1 : str) :
  invoice_period_warnings is_digit c1 = [] \/
  invoice_period_warnings is_digit c1 = [(WARNING, warning_no_line_count)] \/
  invoice_period_warnings is_digit c1 = [(WARNING, warning_no_issue_date)].
Proof.
  unfold invoice_period_warnings.
  destruct (str_in invoice_period_open c1); [now left|].
  destruct (str_in line_counter_numeric_string c1); cbn [negb]; [|now right; left].
  destruct (re_search_fecfac is_digit c1) as [[|x d]|]; auto.
Qed.

(** X10. A run of [update_invoice] on a readable file opens the file for
    reading once, logs nothing or one warning (the anchor or the issue date
    was not found), and changes no file but the one it was given. *)
Theorem update_invoice_effects (s : str) (w : world) (c : str) :
  sees (init s w) c ->
  exists w',
    update_invoice is_digit s w = (Returns (make_path s), w') /\
    opened w' = opened w ++ [make_path s] /\
    (logged w' = logged w \/
     logged w' = logged w ++ [(WARNING, warning_no_line_count)] \/
     logged w' = logged w ++ [(WARNING, warning_no_issue_date)]) /\
    forall q, path_eqb q (make_path s) = false ->
              lookup q (files w') = lookup q (files w).
Proof.
  intros Hs.
  destruct (update_invoice_runs is_digit s w c Hs) as [bs [msgs [_ [Hp Hrun]]]].
  destruct (loads_sees (process_all is_digit) (init s w) c
              (process_all_loads_content is_digit) Hs) as [w1 [Hrun1 [_ [Hl _]]]].
  rewrite process_all_runs, Hp in Hrun1.
  apply (f_equal (fun r => logged (env (snd r)))) in Hrun1.
  unfold add_logs in Hrun1. cbn [snd env logged init] in Hrun1, Hl.
  rewrite Hl in Hrun1. apply app_inv_head in Hrun1. subst msgs.
  eexists. split; [exact Hrun|]. cbn [opened logged files lookup].
  split; [reflexivity|]. split.
  - destruct (invoice_period_warnings_cases (field_rules_text c)) as [-> | [-> | ->]];
      [left; apply app_nil_r | right; left; reflexivity | right; right; reflexivity].
  - intros q Hq. now rewrite Hq.
Qed.

(** X11. Running [update_invoice] a second time on the file it has just
    written writes the same bytes again: what was saved decodes to the
    patched text, with no line end left to normalize, and the rules find
    nothing more to do in it. *)
Theorem update_invoice_twice (s : str) (w : world) (c : str) :
  sees (init s w) c ->
  exists bs w1 w2,
    update_invoice is_digit s w = (Returns (make_path s), w1) /\
    update_invoice is_digit s w1 = (Returns (make_path s), w2) /\
    lookup (make_path s) (files w1) = Some bs /\
    lookup (make_path s) (files w2) = Some bs /\
    utf8_decode bs = Some (process_all_text is_digit c).
Proof.
  intros Hs.
  destruct (sees_init s w c Hs) as [Hn [_ [data [text [_ [_ Hc]]]]]].
  destruct (update_invoice_runs is_digit s w c Hs) as [bs [msgs [Hbs [_ Hrun]]]].
  remember (process_all_text is_digit c) as c1 eqn:Ec1.
  assert (Hback : utf8_decode bs = Some c1) by now apply utf8_decode_encode.
  assert (Hcr : no_cr c1).
  { subst c1. apply process_all_text_no_cr. rewrite Hc. apply universal_newlines_no_cr. }
  remember {| files := (make_path s, bs) :: files w;
              opened := opened w ++ [make_path s];
              logged := logged w ++ msgs |} as w1 eqn:Ew1.
  assert (Hf1 : lookup (make_path s) (files w1) = Some bs).
  { subst w1. cbn [files lookup]. now rewrite path_eqb_refl. }
  assert (Hs1 : sees (init s w1) c1).
  { unfold sees, init, content, read_text. cbn [_content input_path env].
    destruct (name (make_path s)); [now contradiction Hn|].
    rewrite Hf1, Hback. cbn [fst]. now rewrite universal_newlines_fixed. }
  destruct (update_invoice_runs is_digit s w1 c1 Hs1) as [bs2 [msgs2 [Hbs2 [_ Hrun2]]]].
  assert (Hsame : process_all_text is_digit c1 = c1).
  { subst c1. apply process_all_text_idempotent. exact is_digit_ascii. }
  rewrite Hsame, Hbs in Hbs2. injection Hbs2 as <-.
  exists bs, w1. eexists. split; [exact Hrun|]. split; [exact Hrun2|].
  split; [exact Hf1|]. split; [|exact Hback].
  cbn [files lookup]. now rewrite path_eqb_refl.
Qed.

(** *** The issue date *)

Lemma match_at_split (s d : str) :
  match_at is_digit s = Some d ->
  exists b, s = fecfac ++ d ++ b /\ date_at is_digit (d ++ b) = Some d.
Proof.
  unfold match_at. destruct (startswith s fecfac) eqn:E; [|discriminate].
  apply startswith_iff in E. destruct E as [t ->].
  rewrite skipn_app, skipn_all, Nat.sub_diag. cbn [skipn app].
  intros H. destruct (date_at_prefix is_digit _ _ H) as [b ->].
  now exists b.
Qed.

(** X12. [issue_date] is the date of the leftmost place where "FecFac: "
    is followed by four digits, a hyphen, two digits, a hyphen and two
    digits: the text splits there, and at no earlier position does the
    pattern match; [None] means it matches nowhere. *)
Theorem issue_date_leftmost (c : str) :
  match re_search_fecfac is_digit c with
  | Some d =>
      exists a b,
        c = a ++ fecfac ++ d ++ b /\
        date_at is_digit (d ++ b) = Some d /\
        forall m, m < length a -> match_at is_digit (skipn m c) = None
  | None => forall m, match_at is_digit (skipn m c) = None
  end.
Proof.
  induction c as [|x t IH]; cbn [re_search_fecfac].
  - destruct (match_at is_digit []) as [d|] eqn:E.
    + destruct (match_at_split _ _ E) as [b [Hb Hd]].
      exists [], b. repeat split; [exact Hb | exact Hd |]. intros m Hm. inversion Hm.
    + intros m. now rewrite skipn_nil.
  - destruct (match_at is_digit (x :: t)) as [d|] eqn:E.
    + destruct (match_at_split _ _ E) as [b [Hb Hd]].
      exists [], b. repeat split; [exact Hb | exact Hd |]. intros m Hm. inversion Hm.
    + destruct (re_search_fecfac is_digit t) as [d|].
      * destruct IH as [a [b [Ht [Hd Hmin]]]].
        exists (x :: a), b. split; [now rewrite Ht|]. split; [exact Hd|].
        intros [|m] Hm; [exact E|]. cbn [skipn]. apply Hmin. cbn [length] in Hm. lia.
      * intros [|m]; [exact E | apply IH].
Qed.

(** *** The issue date is the one of the file *)

(** The characters a match of the issue-date pattern is made of. *)
Definition match_char (ch : char) : bool :=
  existsb (N.eqb ch) fecfac || date_char is_digit ch.

(** ASCII characters that are none of them. *)
Definition outsider (ch : char) : bool :=
  N.ltb ch 128 && negb (N.leb 48 ch && N.leb ch 57) && negb (N.eqb ch hyphen) &&
  negb (existsb (N.eqb ch) fecfac).

Lemma outsider_foreign (ch : char) : outsider ch = true -> match_char ch = false.
Proof.
  unfold outsider, match_char, date_char. rewrite !andb_true_iff.
  intros [[[Hlt Hd] Hh] Hf]. apply N.ltb_lt in Hlt.
  rewrite (is_digit_ascii ch Hlt).
  apply negb_true_iff in Hd, Hh, Hf. now rewrite Hd, Hh, Hf.
Qed.

Lemma date_at_front (d b b' : str) :
  length d = 10 -> date_at is_digit (d ++ b) = Some d ->
  date_at is_digit (d ++ b') = Some d.
Proof.
  destruct d as [|y1 [|y2 [|y3 [|y4 [|h1 [|m1 [|m2 [|h2 [|d1 [|d2 [|x d]]]]]]]]]]];
    try discriminate.
  intros _. cbn [app date_at]. destruct (_ && _); [reflexivity | discriminate].
Qed.

(** A match is a window of eighteen characters, and depends on nothing
    else. *)
Lemma match_at_window (s d : str) :
  match_at is_digit s = Some d ->
  exists m t, s = m ++ t /\ length m = 18 /\ forallb match_char m = true /\
              startswith m fecfac = true /\
              forall t', match_at is_digit (m ++ t') = Some d.
Proof.
  intros H. destruct (match_at_split s d H) as [b [Hs Hd]].
  destruct (date_at_shape is_digit _ _ Hd) as [Hlen Hshape].
  exists (fecfac ++ d), b. split; [now rewrite <- app_assoc|].
  split; [rewrite length_app, Hlen; reflexivity|]. split; [| split].
  - rewrite forallb_app. apply andb_true_iff. split.
    + unfold match_char. apply forallb_forall. intros x Hx.
      apply orb_true_iff. left. apply existsb_exists. exists x.
      split; [exact Hx | apply N.eqb_refl].
    + apply forallb_forall. intros x Hx. unfold match_char.
      rewrite Forall_forall in Hshape. rewrite (Hshape x Hx). apply orb_true_r.
  - apply startswith_app.
  - intros t'. unfold match_at. rewrite <- app_assoc, startswith_app.
    rewrite skipn_app, skipn_all, Nat.sub_diag. cbn [skipn app].
    now apply (date_at_front d b).
Qed.

Lemma window_inside (m t a rest : str) (f : char) :
  m ++ t = a ++ f :: rest -> forallb match_char m = true -> match_char f = false ->
  exists a', a = m ++ a'.
Proof.
  intros H Hm Hf.
  destruct (app_eq_app _ _ _ _ H) as [u [[Hm' Hr] | [Ha Ht]]].
  - destruct u as [|x u].
    + rewrite app_nil_r in Hm'. subst m. exists []. now rewrite app_nil_r.
    + exfalso. cbn [app] in Hr. injection Hr as Hx _. subst x.
      rewrite Hm', forallb_app in Hm. apply andb_true_iff in Hm.
      destruct Hm as [_ Hm]. cbn [forallb] in Hm. now rewrite Hf in Hm.
  - now exists u.
Qed.

(** A character that no match holds cuts the text for the pattern: what
    comes after it cannot complete a match begun before it. *)
Lemma match_at_foreign (a rest : str) (f : char) :
  match_char f = false ->
  match_at is_digit (a ++ f :: rest) = match_at is_digit a.
Proof.
  intros Hf.
  destruct (match_at is_digit (a ++ f :: rest)) as [d|] eqn:E1.
  - destruct (match_at_window _ _ E1) as [m [t [Hs [_ [Hm [_ Hany]]]]]].
    symmetry in Hs. destruct (window_inside m t a rest f Hs Hm Hf) as [a' ->].
    symmetry. apply Hany.
  - destruct (match_at is_digit a) as [d|] eqn:E2; [|reflexivity].
    destruct (match_at_window _ _ E2) as [m [t [Hs [_ [_ [_ Hany]]]]]].
    rewrite Hs, <- app_assoc, Hany in E1. discriminate.
Qed.

Lemma re_search_nil : re_search_fecfac is_digit [] = None.
Proof. reflexivity. Qed.

(** A stretch of text that ends in such a character and holds no
    "FecFac: " is passed over by the search. *)
Lemma re_search_past (q b : str) :
  q <> [] -> match_char (last q 0%N) = false -> str_in fecfac q = false ->
  re_search_fecfac is_digit (q ++ b) = re_search_fecfac is_digit b.
Proof.
  induction q as [|y q IH]; [contradiction|]. intros _ Hlast Hin.
  cbn [str_in] in Hin. apply orb_false_iff in Hin. destruct Hin as [Hst Hin].
  cbn [app re_search_fecfac].
  replace (match_at is_digit (y :: q ++ b)) with (@None str).
  - destruct q as [|z q']; [reflexivity|].
    apply IH; [discriminate | exact Hlast | exact Hin].
  - symmetry. destruct (match_at is_digit (y :: q ++ b)) as [d|] eqn:E; [|reflexivity].
    exfalso.
    destruct (match_at_window _ _ E) as [m [t [Hs [_ [Hm [Hfec _]]]]]].
    pose proof (@app_removelast_last char (y :: q) 0%N ltac:(discriminate)) as Hcut.
    remember (last (y :: q) 0%N) as f eqn:Ef.
    remember (removelast (y :: q)) as a0 eqn:Ea.
    clear Ef Ea.
    assert (Hs' : m ++ t = a0 ++ f :: b).
    { rewrite <- Hs. change (y :: q ++ b) with ((y :: q) ++ b).
      rewrite Hcut, <- app_assoc. reflexivity. }
    destruct (window_inside m t a0 b f Hs' Hm Hlast) as [a' Ha'].
    assert (Hpre : startswith (y :: q) fecfac = true).
    { apply startswith_iff. apply startswith_iff in Hfec. destruct Hfec as [u Hu].
      exists (u ++ a' ++ [f]).
      rewrite Hcut, Ha', Hu. now rewrite <- !app_assoc. }
    congruence.
Qed.

Definition first_match (gs : list str) : option str :=
  fold_right (fun g later => match re_search_fecfac is_digit g with
                             | Some d => Some d
                             | None => later
                             end) None gs.

(** [q] cannot take part in a match: it starts and ends with a character
    no match holds, and "FecFac: " is not in it. *)
Definition apart_from_dates (q : str) : bool :=
  match q with
  | [] => false
  | f :: _ => outsider f && outsider (last q 0%N) && negb (str_in fecfac q)
  end.

Lemma re_search_around (a q b : str) :
  apart_from_dates q = true ->
  re_search_fecfac is_digit (a ++ q ++ b)
  = match re_search_fecfac is_digit a with
    | Some d => Some d
    | None => re_search_fecfac is_digit b
    end.
Proof.
  unfold apart_from_dates. destruct q as [|f q']; [discriminate|].
  rewrite !andb_true_iff. intros [[Hf Hl] Hin].
  apply outsider_foreign in Hf, Hl. apply negb_true_iff in Hin.
  induction a as [|x a IH].
  - rewrite re_search_nil. cbn [app].
    change (f :: q' ++ b) with ((f :: q') ++ b).
    now apply re_search_past.
  - cbn [app re_search_fecfac].
    pose proof (match_at_foreign (x :: a) (q' ++ b) f Hf) as Hcut.
    cbn [app] in Hcut. rewrite Hcut.
    destruct (match_at is_digit (x :: a)); [reflexivity|].
    cbn [app] in IH. exact IH.
Qed.

Lemma re_search_join (q : str) (gs : list str) :
  apart_from_dates q = true ->
  re_search_fecfac is_digit (join q gs) = first_match gs.
Proof.
  intros Hq. induction gs as [|g rest IH]; [reflexivity|].
  destruct rest as [|g' rest'].
  - cbn [join first_match fold_right]. now destruct (re_search_fecfac is_digit g).
  - rewrite join_cons by discriminate. rewrite re_search_around by exact Hq.
    rewrite IH. reflexivity.
Qed.

(** A replacement between texts that cannot take part in a match leaves
    the issue date as it was. *)
Lemma re_search_replace (c p r : str) :
  apart_from_dates p = true -> apart_from_dates r = true ->
  re_search_fecfac is_digit (replace c p r) = re_search_fecfac is_digit c.
Proof.
  intros Hp Hr.
  assert (Hne : p <> []) by (destruct p; [discriminate | discriminate]).
  destruct (replace_pieces c p Hne) as [gs [_ [Hs [Hrep _]]]].
  rewrite Hrep, (re_search_join r gs Hr). rewrite Hs. symmetry. now apply re_search_join.
Qed.

Lemma issue_date_survives (c : str) :
  re_search_fecfac is_digit (field_rules_text c) = re_search_fecfac is_digit c.
Proof.
  unfold field_rules_text.
  rewrite numero_poliza_text_eq, re_search_replace by by_table.
  rewrite numero_contrato_text_eq.
  assert (H3 : re_search_fecfac is_digit
                 (modalidad_pago_text (codigo_prestador_text (cobertura_text c)))
               = re_search_fecfac is_digit c).
  { rewrite modalidad_pago_text_eq, re_search_replace by by_table.
    rewrite codigo_prestador_text_eq, re_search_replace by by_table.
    rewrite cobertura_text_eq.
    destruct (str_in evento_no_pbs_string c);
      [now rewrite re_search_replace by by_table|].
    destruct (str_in evento_pbs_string c); [|reflexivity].
    now rewrite re_search_replace by by_table. }
  destruct (str_in subsidiado_string _);
    [now rewrite re_search_replace by by_table|].
  destruct (str_in contributivo_string _); [|exact H3].
  now rewrite re_search_replace by by_table.
Qed.

(** X13. The whole pipeline on a document without a period block, with
    the anchor and an issue date: [process_all] returns, the five field
    rules leave the anchors and the date where the synthesizer finds them,
    and every anchor is then followed by one block whose start and end date
    are the first "FecFac: " date of the document as it was read; nothing is
    logged and no file is touched. *)
Theorem process_all_synthesis (st : state) (c d : str) :
  sees st c ->
  str_in invoice_period_open c = false ->
  str_in line_counter_numeric_string c = true ->
  re_search_fecfac is_digit c = Some d ->
  exists st' c',
    process_all is_digit st = (Returns tt, st') /\
    _content st' = Some c' /\
    every_occurrence line_counter_numeric_string
      (line_counter_numeric_string ++ nl ++
       period_block d (lit "12:00:00") d (lit "11:59:59"))
      (field_rules_text c) c' /\
    occurrences invoice_period_open c' = occurrences line_counter_numeric_string c /\
    re_search_fecfac is_digit (field_rules_text c) = Some d /\
    logged (env st') = logged (env st) /\
    files (env st') = files (env st).
Proof.
  intros Hs Hip Ha Hd.
  destruct (loads_sees (process_all is_digit) st c
              (process_all_loads_content is_digit) Hs) as [w' [Hrun [Hf [Hl _]]]].
  rewrite process_all_runs in Hrun.
  set (c5 := field_rules_text c) in *.
  assert (Hk : occurrences invoice_period_open c5 = occurrences invoice_period_open c).
  { subst c5. unfold field_rules_text.
    rewrite numero_poliza_keeps, numero_contrato_keeps, modalidad_pago_keeps,
      codigo_prestador_keeps, cobertura_keeps by by_table. reflexivity. }
  assert (Hn : occurrences line_counter_numeric_string c5
               = occurrences line_counter_numeric_string c).
  { subst c5. unfold field_rules_text.
    rewrite numero_poliza_keeps, numero_contrato_keeps, modalidad_pago_keeps,
      codigo_prestador_keeps, cobertura_keeps by by_table. reflexivity. }
  assert (Hip5 : str_in invoice_period_open c5 = false).
  { rewrite <- Hip. apply same_occurrences; [reflexivity | exact Hk]. }
  assert (Ha5 : str_in line_counter_numeric_string c5 = true).
  { rewrite <- Ha. apply same_occurrences; [reflexivity | exact Hn]. }
  assert (Hd5 : re_search_fecfac is_digit c5 = Some d).
  { subst c5. now rewrite issue_date_survives. }
  destruct (invoice_period_synthesis is_digit is_digit_ascii c5 d Hip5 Ha5 Hd5)
    as [H1 [H2 H3]].
  eexists. exists (process_all_text is_digit c).
  split; [exact Hrun|]. split; [reflexivity|].
  split; [exact H1|]. split; [unfold process_all_text; fold c5; congruence|].
  split; [exact Hd5|]. cbn [env]. rewrite H3, add_logs_nil. split; assumption.
Qed.

End Rules.

(** *** Sample runs *)

(** Two coverage placeholders, both event markers. *)
Definition sample_coverage : str :=
  cobertura_string ++ nl ++ lit "<ipt:Valor>Evento NO PBS</ipt:Valor>" ++ nl ++
  cobertura_string ++ nl ++ lit "<ipt:Valor>Evento PBS Contributivo</ipt:Valor>".

(** One placeholder of each rule without a context condition. *)
Definition sample_fixed : str :=
  codigo_prestador_string ++ nl ++ modalidad_pago_string ++ nl ++ numero_poliza_string.

(** A coverage and a contract placeholder and the subsidised-event line. *)
Definition sample_subsidiado : str :=
  cobertura_string ++ nl ++ numero_contrato_string ++ nl ++ evento_pbs_subsidiado_string.

Lemma cobertura_pipeline_witness :
  sees (loaded sample_coverage) sample_coverage /\
  str_in cobertura_string sample_coverage = true /\
  exists st' c',
    process_all ascii_digit (loaded sample_coverage) = (Returns tt, st') /\
    _content st' = Some c' /\
    str_in cobertura_string c' = false /\
    str_in cobertura_02 c' = true /\
    occurrences cobertura_02 c'
    = occurrences cobertura_02 sample_coverage
      + occurrences cobertura_string sample_coverage /\
    occurrences cobertura_01 c' = occurrences cobertura_01 sample_coverage.
Proof.
  split; [reflexivity|]. split; [vm_compute; reflexivity|].
  apply (cobertura_pipeline ascii_digit ascii_digit_ascii
           (loaded sample_coverage) sample_coverage).
  - reflexivity.
  - vm_compute; reflexivity.
Defined.

Lemma fixed_rules_pipeline_witness :
  sees (loaded sample_fixed) sample_fixed /\
  exists st' c',
    process_all ascii_digit (loaded sample_fixed) = (Returns tt, st') /\
    _content st' = Some c' /\
    (str_in codigo_prestador_string c' = false /\
     occurrences codigo_prestador_new c'
     = occurrences codigo_prestador_new sample_fixed
       + occurrences codigo_prestador_string sample_fixed) /\
    (str_in modalidad_pago_string c' = false /\
     occurrences modalidad_pago_new c'
     = occurrences modalidad_pago_new sample_fixed
       + occurrences modalidad_pago_string sample_fixed) /\
    (str_in numero_poliza_string c' = false /\
     occurrences numero_poliza_new c'
     = occurrences numero_poliza_new sample_fixed
       + occurrences numero_poliza_string sample_fixed).
Proof.
  split; [reflexivity|].
  apply (fixed_rules_pipeline ascii_digit ascii_digit_ascii
           (loaded sample_fixed) sample_fixed).
  reflexivity.
Defined.

Lemma evento_pbs_subsidiado_decides_witness :
  sees (loaded sample_subsidiado) sample_subsidiado /\
  str_in evento_pbs_subsidiado_string sample_subsidiado = true /\
  exists st' c',
    process_all ascii_digit (loaded sample_subsidiado) = (Returns tt, st') /\
    _content st' = Some c' /\
    str_in cobertura_string c' = false /\
    str_in numero_contrato_string c' = false /\
    occurrences contrato_10787 c'
    = occurrences contrato_10787 sample_subsidiado
      + occurrences numero_contrato_string sample_subsidiado /\
    occurrences contrato_3672 c' = occurrences contrato_3672 sample_subsidiado /\
    occurrences cobertura_01 c'
    = occurrences cobertura_01 sample_subsidiado
      + occurrences cobertura_string sample_subsidiado.
Proof.
  split; [reflexivity|]. split; [vm_compute; reflexivity|].
  apply (evento_pbs_subsidiado_decides ascii_digit ascii_digit_ascii
           (loaded sample_subsidiado) sample_subsidiado).
  - reflexivity.
  - vm_compute; reflexivity.
Defined.

Lemma path_without_name_witness :
  nameless (lit "./") = true /\
  save None (init (lit "./") (posix_world [])) = (Raises ValueError, init (lit "./") (posix_world [])) /\
  update_invoice ascii_digit (lit "./") (posix_world []) = (Raises IsADirectoryError, posix_world []).
Proof.
  split; [vm_compute; reflexivity|].
  apply (path_without_name ascii_digit (lit "./") (posix_world [])).
  vm_compute; reflexivity.
Defined.

(** A file that is not UTF-8, and the world after the failed read. *)
Definition undecodable_world : world :=
  posix_world [(make_path sample_path, [255]%N)].

Definition after_failed_read : world :=
  {| files := files undecodable_world; opened := [make_path sample_path];
     logged := [] |}.

Lemma update_invoice_read_raises_witness :
  read_text (make_path sample_path) undecodable_world
  = (Raises UnicodeDecodeError, after_failed_read) /\
  process_all ascii_digit (init sample_path undecodable_world)
  = (Raises UnicodeDecodeError,
     with_env after_failed_read (init sample_path undecodable_world)) /\
  update_invoice ascii_digit sample_path undecodable_world
  = (Raises UnicodeDecodeError, after_failed_read) /\
  files after_failed_read = files undecodable_world /\
  logged after_failed_read = logged undecodable_world.
Proof.
  split; [vm_compute; reflexivity|].
  apply (update_invoice_read_raises ascii_digit sample_path undecodable_world).
  vm_compute; reflexivity.
Defined.

Lemma update_invoice_effects_witness :
  sees (init sample_path crlf_world) [97; 10; 98]%N /\
  exists w',
    update_invoice ascii_digit sample_path crlf_world
    = (Returns (make_path sample_path), w') /\
    opened w' = opened crlf_world ++ [make_path sample_path] /\
    (logged w' = logged crlf_world \/
     logged w' = logged crlf_world ++ [(WARNING, warning_no_line_count)] \/
     logged w' = logged crlf_world ++ [(WARNING, warning_no_issue_date)]) /\
    forall q, path_eqb q (make_path sample_path) = false ->
              lookup q (files w') = lookup q (files crlf_world).
Proof.
  split; [vm_compute; reflexivity|].
  apply (update_invoice_effects ascii_digit sample_path crlf_world [97; 10; 98]%N).
  vm_compute; reflexivity.
Defined.

Lemma update_invoice_twice_witness :
  sees (init sample_path crlf_world) [97; 10; 98]%N /\
  exists bs w1 w2,
    update_invoice ascii_digit sample_path crlf_world
    = (Returns (make_path sample_path), w1) /\
    update_invoice ascii_digit sample_path w1 = (Returns (make_path sample_path), w2) /\
    lookup (make_path sample_path) (files w1) = Some bs /\
    lookup (make_path sample_path) (files w2) = Some bs /\
    utf8_decode bs = Some (process_all_text ascii_digit [97; 10; 98]%N).
Proof.
  split; [vm_compute; reflexivity|].
  apply (update_invoice_twice ascii_digit ascii_digit_ascii sample_path crlf_world).
  vm_compute; reflexivity.
Defined.

Lemma process_all_synthesis_witness :
  sees (loaded sample_both_markers) sample_both_markers /\
  str_in invoice_period_open sample_both_markers = false /\
  str_in line_counter_numeric_string sample_both_markers = true /\
  re_search_fecfac ascii_digit sample_both_markers = Some (lit "2025-07-29") /\
  exists st' c',
    process_all ascii_digit (loaded sample_both_markers) = (Returns tt, st') /\
    _content st' = Some c' /\
    every_occurrence line_counter_numeric_string
      (line_counter_numeric_string ++ nl ++
       period_block (lit "2025-07-29") (lit "12:00:00") (lit "2025-07-29") (lit "11:59:59"))
      (field_rules_text sample_both_markers) c' /\
    occurrences invoice_period_open c'
    = occurrences line_counter_numeric_string sample_both_markers /\
    re_search_fecfac ascii_digit (field_rules_text sample_both_markers)
    = Some (lit "2025-07-29") /\
    logged (env st') = logged (env (loaded sample_both_markers)) /\
    files (env st') = files (env (loaded sample_both_markers)).
Proof.
  split; [reflexivity|]. split; [vm_compute; reflexivity|].
  split; [vm_compute; reflexivity|]. split; [vm_compute; reflexivity|].
  apply (process_all_synthesis ascii_digit ascii_digit_ascii
           (loaded sample_both_markers) sample_both_markers (lit "2025-07-29")).
  - reflexivity.
  - vm_compute; reflexivity.
  - vm_compute; reflexivity.
  - vm_compute; reflexivity.
Defined.

End Pipeline.

(* ===================================================================== *)
(** ** The tree-based engine, step by step *)
(* ===================================================================== *)

Module TreeSteps.
Import PyStr Py ParserTree.
Local Open Scope py_scope.

Section Steps.

Context {api : BeautifulSoupAPI}.

(** [quiet k m]: [m] returns from every state, leaves the files alone,
    opens none, and logs at most [k] records, each the note that a period
    block was not found. *)
Definition quiet {A} (k : nat) (m : M A) : Prop :=
  forall st, exists a st' n,
    m st = (Returns a, st') /\ n <= k /\
    files (env st') = files (env st) /\
    opened (env st') = opened (env st) /\
    logged (env st') = logged (env st) ++ repeat (INFO, info_not_found) n.

Lemma quiet_ret {A} (a : A) : quiet 0 (ret a).
Proof. intros st. exists a, st, 0. cbn. now rewrite app_nil_r. Qed.

Lemma quiet_read {A} (f : Dom -> A) : quiet 0 (read f).
Proof. intros st. exists (f (store st)), st, 0. cbn. now rewrite app_nil_r. Qed.

Lemma quiet_change (f : Dom -> Dom) : quiet 0 (change f).
Proof. intros st. eexists. eexists. exists 0. cbn. now rewrite app_nil_r. Qed.

Lemma quiet_new_tag (x : Soup) (nm : str) :
  quiet 0 (fun st => let (t, d) := bs_new_tag x nm (store st) in
                     (Returns t, with_store d st)).
Proof.
  intros st. destruct (bs_new_tag x nm (store st)) as [t d].
  exists t. eexists. exists 0. cbn. now rewrite app_nil_r.
Qed.

Lemma quiet_log_info : quiet 1 (log_info info_not_found).
Proof.
  intros st. exists tt. eexists. exists 1.
  split; [reflexivity|]. cbn. repeat split. lia.
Qed.

Lemma quiet_bind {A B} (j k : nat) (m : M A) (f : A -> M B) :
  quiet j m -> (forall a, quiet k (f a)) -> quiet (j + k) (bind m f).
Proof.
  intros Hm Hf st. destruct (Hm st) as [a [st1 [n1 [E1 [L1 [F1 [O1 G1]]]]]]].
  destruct (Hf a st1) as [b [st2 [n2 [E2 [L2 [F2 [O2 G2]]]]]]].
  exists b, st2, (n1 + n2). unfold bind. rewrite E1. split; [exact E2|].
  split; [lia|]. split; [congruence|]. split; [congruence|].
  now rewrite G2, G1, repeat_app, app_assoc.
Qed.

Lemma quiet_mono {A} (j k : nat) (m : M A) : j <= k -> quiet j m -> quiet k m.
Proof.
  intros Hjk Hm st. destruct (Hm st) as [a [st' [n [E [L R]]]]].
  exists a, st', n. split; [exact E|]. split; [lia | exact R].
Qed.

Lemma quiet_if {A} (k : nat) (b : bool) (m1 m2 : M A) :
  quiet k m1 -> quiet k m2 -> quiet k (if b then m1 else m2).
Proof. now destruct b. Qed.

Ltac quiet0 :=
  repeat first
    [ apply quiet_ret | apply quiet_read | apply quiet_change | apply quiet_new_tag
    | apply (quiet_bind 0 0); [| intros ?]
    | apply quiet_if
    | match goal with
      | |- quiet 0 (match ?v with Some _ => _ | None => _ end) => destruct v
      end ].

Lemma new_tag_with_string_quiet (xml : Soup) (nm text : str) :
  quiet 0 (new_tag_with_string xml nm text).
Proof. unfold new_tag_with_string. quiet0. Qed.




(** The synthesizer of this engine returns for every list, touches no file,
    and logs nothing but its note, at most once for each document. *)
Lemma process_invoice_period_returns (descriptions : list (Tag * Soup)) :
  quiet (length descriptions) (process_invoice_period descriptions).
Proof.
  induction descriptions as [|[description nested_xml] rest IH].
  - apply quiet_ret.
  - cbn [process_invoice_period length].
    assert (Hrest : quiet (1 + length rest) (process_invoice_period rest))
      by (apply (quiet_mono (length rest)); [lia | exact IH]).
    apply (quiet_bind 0 (1 + length rest)); [apply quiet_read | intros [found|]].
    { exact Hrest. }
    apply (quiet_bind 1 (length rest)); [apply quiet_log_info | intros _].
    apply (quiet_bind 0 (length rest)); [apply quiet_read | intros [lc|]]; [|exact IH].
    apply (quiet_bind 0 (length rest)); [apply quiet_read | intros [idt|]]; [|exact IH].
    apply (quiet_bind 0 (length rest)); [apply quiet_read | intros issue_date].
    destruct (negb (nonempty issue_date)); [exact IH|].
    repeat first
      [ exact IH
      | apply (quiet_bind 0 (length rest));
        [ first [ apply quiet_new_tag | apply new_tag_with_string_quiet
                | apply quiet_change | apply quiet_read ]
        | intros ? ] ].
Qed.

(** A nested document the synthesizer has nothing to do with: it has a
    period block, or no anchor, or no issue date to copy. *)
Definition passed_over (nested_xml : Soup) (d : Dom) : bool :=
  is_some (bs_find nested_xml (lit "InvoicePeriod") d) ||
  negb (is_some (bs_find nested_xml (lit "LineCountNumeric") d)) ||
  match bs_find nested_xml (lit "IssueDate") d with
  | Some issue_date_tag => negb (nonempty (tag_string issue_date_tag d))
  | None => true
  end.

(** The documents without a period block. *)
Definition without_period (descriptions : list (Tag * Soup)) (d : Dom)
  : list (Tag * Soup) :=
  filter (fun dx => negb (is_some (bs_find (snd dx) (lit "InvoicePeriod") d)))
         descriptions.

Lemma passed_over_all (descriptions : list (Tag * Soup)) :
  forall st,
    Forall (fun dx => passed_over (snd dx) (store st) = true) descriptions ->
    exists w',
      process_invoice_period descriptions st = (Returns tt, with_env w' st) /\
      files w' = files (env st) /\ opened w' = opened (env st) /\
      logged w' = logged (env st) ++
                  repeat (INFO, info_not_found)
                         (length (without_period descriptions (store st))).
Proof.
  induction descriptions as [|[description nested_xml] rest IH]; intros st H.
  - exists (env st). cbn. rewrite app_nil_r. now destruct st.
  - apply Forall_cons_iff in H. destruct H as [Hx Hrest]. cbn [snd] in Hx.
    unfold passed_over in Hx.
    cbn [process_invoice_period without_period filter snd].
    unfold bind at 1. unfold read at 1.
    destruct (bs_find nested_xml (lit "InvoicePeriod") (store st)) as [found|].
    + cbn [is_some negb]. apply (IH st Hrest).
    + cbn [is_some negb orb length] in *.
      unfold bind at 1. unfold log_info at 1.
      set (st1 := with_env (log_record INFO info_not_found (env st)) st).
      assert (Hgo : exists w',
                 process_invoice_period rest st1 = (Returns tt, with_env w' st) /\
                 files w' = files (env st) /\ opened w' = opened (env st) /\
                 logged w' = logged (env st) ++
                             repeat (INFO, info_not_found)
                                    (S (length (without_period rest (store st))))).
      { destruct (IH st1 Hrest) as [w' [E [Hf [Ho Hl]]]].
        exists w'. split; [exact E|]. split; [exact Hf|]. split; [exact Ho|].
        rewrite Hl. cbn [st1 env with_env store logged log_record repeat].
        now rewrite <- app_assoc. }
      unfold bind at 1. unfold read at 1. change (store st1) with (store st).
      destruct (bs_find nested_xml (lit "LineCountNumeric") (store st)) as [lc|];
        [|exact Hgo].
      cbn [is_some negb orb] in Hx.
      unfold bind at 1. unfold read at 1. change (store st1) with (store st).
      destruct (bs_find nested_xml (lit "IssueDate") (store st)) as [idt|];
        [|exact Hgo].
      unfold bind at 1. unfold read at 1. change (store st1) with (store st).
      rewrite Hx. exact Hgo.
Qed.

(** X15. [process_invoice_period] returns for every list of nested
    documents, touches and opens no file, and logs nothing but the note that
    a period block was not found, at most once for each document.  Documents
    that have a period block, or lack the anchor or a non-empty issue date,
    are passed over: the tree is left as it was, and the note is logged
    exactly once for each of them that has no period block. *)
Theorem process_invoice_period_passes_over
    (descriptions : list (Tag * Soup)) (st : state) :
  (exists st' n,
     process_invoice_period descriptions st = (Returns tt, st') /\
     n <= length descriptions /\
     files (env st') = files (env st) /\ opened (env st') = opened (env st) /\
     logged (env st') = logged (env st) ++ repeat (INFO, info_not_found) n) /\
  (Forall (fun dx => passed_over (snd dx) (store st) = true) descriptions ->
   exists w',
     process_invoice_period descriptions st = (Returns tt, with_env w' st) /\
     files w' = files (env st) /\ opened w' = opened (env st) /\
     logged w' = logged (env st) ++
                 repeat (INFO, info_not_found)
                        (length (without_period descriptions (store st)))).
Proof.
  split; [| apply passed_over_all].
  destruct (process_invoice_period_returns descriptions st)
    as [[] [st' [n [E R]]]].
  now exists st', n.
Qed.

(** The extraction loop never fails: a nested text that does not parse is
    dropped ([except Exception: continue]). *)
Lemma description_loop_returns (tags : list Tag) :
  forall acc st, exists new st',
    description_loop tags acc st = (Returns (acc ++ new), st') /\
    env st' = env st /\ input_path st' = input_path st /\
    length new <= length tags /\
    forall t x, In (t, x) new -> In t tags.
Proof.
  induction tags as [|t rest IH]; intros acc st.
  - exists [], st. cbn [description_loop]. rewrite app_nil_r.
    split; [reflexivity|]. split; [reflexivity|]. split; [reflexivity|].
    split; [cbn; lia|]. intros ? ? [].
  - cbn [description_loop]. unfold bind at 1. unfold read at 1.
    destruct (nonempty (tag_string t (store st))).
    + unfold BeautifulSoup.
      destruct (bs_new LxmlXml _ (store st)) as [[parsed|e] d].
      * destruct (IH (acc ++ [(t, parsed)]) (with_store d st))
          as [new [st' [E [He [Hp [Hlen Hin]]]]]].
        exists ((t, parsed) :: new), st'. rewrite E, <- app_assoc.
        repeat split; try assumption.
        -- cbn. lia.
        -- intros t0 x [Heq | Hx]; [injection Heq as <- <-; now left|].
           right. now apply (Hin t0 x).
      * destruct (IH acc (with_store d st)) as [new [st' [E [He [Hp [Hlen Hin]]]]]].
        exists new, st'. repeat split; try assumption; [cbn; lia|].
        intros t0 x Hx. right. now apply (Hin t0 x).
    + destruct (IH acc st) as [new [st' [E [He [Hp [Hlen Hin]]]]]].
      exists new, st'. repeat split; try assumption; [cbn; lia|].
      intros t0 x Hx. right. now apply (Hin t0 x).
Qed.

(** X16. The loop of [_get_all_description_xmls], on the slice [[1:2]] of
    the matches: it returns whatever the matches are (an empty text is
    skipped, a parse failure is swallowed), leaves the world alone, and its
    result holds at most one nested document, that of the second match. *)
Theorem description_loop_second_only (tags : list Tag) (st : state) :
  exists results st',
    description_loop (slice_1_2 tags) [] st = (Returns results, st') /\
    env st' = env st /\
    length results <= 1 /\
    forall t x, In (t, x) results -> exists first rest, tags = first :: t :: rest.
Proof.
  destruct (description_loop_returns (slice_1_2 tags) [] st)
    as [new [st' [E [He [_ [Hlen Hin]]]]]].
  exists new, st'. cbn [app] in E. rewrite slice_1_2_second in Hlen, Hin.
  split; [exact E|]. split; [exact He|].
  destruct tags as [|first [|second rest]].
  - split; [cbn in Hlen; lia|]. intros t x H. destruct (Hin t x H).
  - split; [cbn in Hlen; lia|]. intros t x H. destruct (Hin t x H).
  - split; [exact Hlen|]. intros t x H.
    destruct (Hin t x H) as [<- | []]. now exists first, rest.
Qed.

(** *** The duplicated declaration line *)

Lemma after_first_newline_app (line rest : str) :
  forallb (fun ch => negb (N.eqb ch LF)) line = true ->
  after_first_newline (line ++ LF :: rest) = Some rest /\
  after_first_newline line = None.
Proof.
  induction line as [|c t IH]; cbn [forallb app after_first_newline].
  - intros _. now rewrite N.eqb_refl.
  - intros H. apply andb_true_iff in H. destruct H as [Hc Ht].
    apply negb_true_iff in Hc. rewrite Hc. now apply IH.
Qed.

(** X17. A serialized nested document that starts with ["<?xml"] loses
    its first line, up to and with the first newline, and nothing after it;
    when there is no newline at all it is kept whole. *)
Theorem strip_declaration_first_line (line rest : str) :
  startswith line (lit "<?xml") = true ->
  forallb (fun ch => negb (N.eqb ch LF)) line = true ->
  strip_declaration (line ++ LF :: rest) = rest /\
  strip_declaration line = line.
Proof.
  intros Hx Hl. destruct (after_first_newline_app line rest Hl) as [H1 H2].
  unfold strip_declaration. rewrite H1, H2, Hx.
  replace (startswith (line ++ LF :: rest) (lit "<?xml")) with true; [now split|].
  symmetry. apply startswith_iff. apply startswith_iff in Hx.
  destruct Hx as [t ->]. exists (t ++ LF :: rest). now rewrite <- app_assoc.
Qed.

(** *** Saving *)

Lemma default_name_valid (p : Path) (extra : str) :
  name p <> [] -> ~ In slash (name p) -> ~ In slash extra -> 2 <= length extra ->
  with_stem p (stem p ++ extra)
  = Returns {| root := root p;
               parts := removelast (parts p) ++ [stem p ++ extra ++ suffix p] |}.
Proof.
  intros Hn Hs He Hl. unfold with_stem, with_name.
  destruct (name p) as [|x nm] eqn:E; [contradiction|]. rewrite <- E in *.
  rewrite <- app_assoc.
  set (new := stem p ++ extra ++ suffix p).
  assert (Hlen : 2 <= length new) by (subst new; rewrite !length_app; lia).
  replace (str_eqb new []) with false.
  2:{ symmetry. destruct (str_eqb new []) eqn:F; [|reflexivity].
      apply str_eqb_eq in F. rewrite F in Hlen. cbn in Hlen. lia. }
  replace (str_eqb new [dot]) with false.
  2:{ symmetry. destruct (str_eqb new [dot]) eqn:F; [|reflexivity].
      apply str_eqb_eq in F. rewrite F in Hlen. cbn in Hlen. lia. }
  replace (existsb (N.eqb slash) new) with false; [reflexivity|].
  symmetry. destruct (existsb (N.eqb slash) new) eqn:F; [|reflexivity].
  apply existsb_exists in F. destruct F as [y [Hy Hys]].
  apply N.eqb_eq in Hys. subst y. exfalso. subst new.
  rewrite <- (stem_suffix p) in Hs.
  apply in_app_or in Hy. destruct Hy as [Hy | Hy].
  - apply Hs. apply in_or_app. now left.
  - apply in_app_or in Hy. destruct Hy as [Hy | Hy]; [now apply He|].
    apply Hs. apply in_or_app. now right.
Qed.

(** X18. [save] without an output path, in the tree-based engine: the
    target it derives is the input path with ["-modificado"] put between stem
    and suffix, so never the input path itself; and then it raises
    [AttributeError] at [self.soup.prettify], before anything is written. *)
Theorem tree_save_default_target (s : str) (d : Dom) (w : world) :
  name (make_path s) <> [] ->
  exists q,
    with_stem (make_path s) (stem (make_path s) ++ lit "-modificado") = Returns q /\
    name q = stem (make_path s) ++ lit "-modificado" ++ suffix (make_path s) /\
    root q = root (make_path s) /\
    removelast (parts q) = removelast (parts (make_path s)) /\
    path_eqb q (make_path s) = false /\
    save None (init s d w) = (Raises AttributeError, init s d w).
Proof.
  intros Hn.
  pose proof (name_in_parts _ Hn) as Hin.
  destruct (make_path_parts s _ Hin) as [_ [_ Hslash]].
  assert (Hw : with_stem (make_path s) (stem (make_path s) ++ lit "-modificado")
               = Returns {| root := root (make_path s);
                            parts := removelast (parts (make_path s)) ++
                                     [stem (make_path s) ++ lit "-modificado" ++
                                      suffix (make_path s)] |}).
  { apply default_name_valid; [exact Hn | exact Hslash | | cbn; lia].
    intros H. vm_compute in H. repeat (destruct H as [H | H]; [discriminate|]).
    exact H. }
  eexists. split; [exact Hw|]. cbn [root parts].
  split; [unfold name; cbn [parts]; now rewrite last_last|].
  split; [reflexivity|]. split; [now rewrite removelast_last|]. split.
  - unfold path_eqb. cbn [root parts].
    destruct (list_eq_dec (list_eq_dec N.eq_dec) _ (parts (make_path s))) as [E|];
      [| now rewrite andb_false_r].
    exfalso.
    assert (Hl : last (removelast (parts (make_path s)) ++
                       [stem (make_path s) ++ lit "-modificado" ++ suffix (make_path s)]) []
                 = name (make_path s)) by (now rewrite E).
    rewrite last_last in Hl. apply (f_equal (@length _)) in Hl.
    rewrite <- (stem_suffix (make_path s)) in Hl.
    rewrite !length_app in Hl.
    change (length (lit "-modificado")) with 11 in Hl. lia.
  - unfold save, init. cbn [input_path]. rewrite Hw. reflexivity.
Qed.

(** *** A file that cannot be read *)

Lemma read_text_raises_same (p : Path) (w w1 : world) (e : exn) :
  read_text p w = (Raises e, w1) ->
  exists w2, read_text p w1 = (Raises e, w2) /\
             files w2 = files w /\ logged w2 = logged w.
Proof.
  unfold read_text. destruct (name p).
  { intros H. injection H as <- <-. now exists w. }
  destruct (lookup p (files w)) as [data|] eqn:El.
  2:{ intros H. injection H as <- <-. rewrite El. now exists w. }
  destruct (utf8_decode data) eqn:Ed; [discriminate|].
  intros H. injection H as <- <-. cbn [files]. rewrite El, Ed.
  eexists. split; [reflexivity|]. now cbn.
Qed.

(** X19. [soup()] on a file that cannot be read: the first attempt raises,
    the handler opens the same file again and raises the same exception, which
    is the one that leaves [soup()]; no tree is stored and no file changes. *)
Theorem soup_unreadable_raises (st : state) (e : exn) (w1 : world) :
  _content st = None ->
  read_text (input_path st) (env st) = (Raises e, w1) ->
  exists st',
    soup st = (Raises e, st') /\
    _soup st' = _soup st /\ store st' = store st /\
    files (env st') = files (env st) /\ logged (env st') = logged (env st).
Proof.
  intros Hc Hr. destruct (read_text_raises_same _ _ _ _ Hr) as [w2 [Hr2 [Hf Hl]]].
  exists (with_env w2 (with_env w1 st)).
  unfold soup. rewrite Hc. unfold bind, try_except, open_and_parse.
  rewrite Hr. cbn [input_path env with_env]. rewrite Hr2.
  repeat split; assumption.
Qed.

End Steps.

(** *** Sample runs *)

Lemma strip_declaration_first_line_witness :
  startswith (lit "<?xml version='1.0'?>") (lit "<?xml") = true /\
  forallb (fun ch => negb (N.eqb ch LF)) (lit "<?xml version='1.0'?>") = true /\
  strip_declaration (lit "<?xml version='1.0'?>" ++ LF :: lit "<Invoice/>" ++ LF :: lit "<x/>")
  = lit "<Invoice/>" ++ LF :: lit "<x/>" /\
  strip_declaration (lit "<?xml version='1.0'?>") = lit "<?xml version='1.0'?>".
Proof.
  split; [vm_compute; reflexivity|]. split; [vm_compute; reflexivity|].
  apply (strip_declaration_first_line (lit "<?xml version='1.0'?>")
           (lit "<Invoice/>" ++ LF :: lit "<x/>")).
  - vm_compute; reflexivity.
  - vm_compute; reflexivity.
Defined.

Lemma tree_save_default_target_witness :
  name (make_path ParserV2.sample_path)
  = lit "LGFM1538339_ad09000732230162500177923.xml" /\
  exists q,
    with_stem (make_path ParserV2.sample_path)
      (stem (make_path ParserV2.sample_path) ++ lit "-modificado") = Returns q /\
    name q = lit "LGFM1538339_ad09000732230162500177923-modificado.xml" /\
    path_eqb q (make_path ParserV2.sample_path) = false /\
    @save text_api None sample_tree_state = (Raises AttributeError, sample_tree_state).
Proof.
  split; [vm_compute; reflexivity|].
  destruct (@tree_save_default_target text_api ParserV2.sample_path tt
              (ParserV2.posix_world [(make_path ParserV2.sample_path, [97; 10; 98]%N)]))
    as [q [H1 [H2 [_ [_ [H3 H4]]]]]].
  - vm_compute; discriminate.
  - exists q. split; [exact H1|]. split; [|split; [exact H3 | exact H4]].
    rewrite H2. vm_compute; reflexivity.
Defined.

Definition missing_tree_state : @state text_api :=
  @init text_api ParserV2.sample_path tt (ParserV2.posix_world []).

Lemma soup_unreadable_raises_witness :
  @_content text_api missing_tree_state = None /\
  read_text (@input_path text_api missing_tree_state) (@env text_api missing_tree_state)
  = (Raises FileNotFoundError, ParserV2.posix_world []) /\
  exists st',
    @soup text_api missing_tree_state = (Raises FileNotFoundError, st') /\
    @_soup text_api st' = None /\
    files (@env text_api st') = [].
Proof.
  split; [reflexivity|]. split; [vm_compute; reflexivity|].
  destruct (@soup_unreadable_raises text_api missing_tree_state FileNotFoundError
              (ParserV2.posix_world []) eq_refl)
    as [st' [H1 [H2 [_ [H3 _]]]]].
  - vm_compute; reflexivity.
  - exists st'. split; [exact H1|]. split; [exact H2 | exact H3].
Defined.




(** Two nested documents in which nothing is found: both are passed over,
    and the note is logged twice. *)
Lemma process_invoice_period_passes_over_witness :
  exists w',
    @process_invoice_period text_api [(lit "a", lit "x"); (lit "b", lit "y")]
       sample_tree_state
    = (Returns tt, @with_env text_api w' sample_tree_state) /\
    files w' = files (@env text_api sample_tree_state) /\
    opened w' = opened (@env text_api sample_tree_state) /\
    logged w' = [(INFO, info_not_found); (INFO, info_not_found)].
Proof.
  destruct (@process_invoice_period_passes_over text_api
              [(lit "a", lit "x"); (lit "b", lit "y")] sample_tree_state)
    as [_ H].
  apply H. repeat constructor.
Defined.

End TreeSteps.

(* ===================================================================== *)
(** ** The mail side: [src/gmail.py] and [src/models/google.py] *)
(* ===================================================================== *)

Module Mail.
Import PyStr Py.
Local Open Scope py_scope.

(** *** The template of [send_email] *)

Definition dollar : char := 36%N.
Definition lbrace : char := 123%N.
Definition rbrace : char := 125%N.

(** [[a-zA-Z0-9_]] *)
Definition is_var_char (c : char) : bool :=
  ((97 <=? c) && (c <=? 122) || (65 <=? c) && (c <=? 90) ||
   (48 <=? c) && (c <=? 57) || (c =? 95))%N.

(** The longest run of name characters at the head of [s]. *)
Fixpoint var_run (s : str) : str :=
  match s with
  | c :: t => if is_var_char c then c :: var_run t else []
  | [] => []
  end.

(** [\$\{([a-zA-Z0-9_]+)\}] at the head of [s], group 1.  The class holds
    no brace, so the greedy run is the only one that can be followed by the
    closing brace. *)
Definition var_at (s : str) : option str :=
  match s with
  | a :: b :: t =>
      if N.eqb a dollar && N.eqb b lbrace then
        match var_run t with
        | [] => None
        | x :: nm =>
            if startswith (skipn (length (x :: nm)) t) [rbrace]
            then Some (x :: nm) else None
        end
      else None
  | _ => None
  end.

(** [body_vars], a dictionary from names to values, each value seen through
    [str()]. *)
Definition body_vars := str -> option str.

(** [replace_var]: [str(body_vars.get(var_name, f"${{{var_name}}}"))] *)
Definition replace_var (vars : body_vars) (var_name : str) : str :=
  match vars var_name with
  | Some v => v
  | None => [dollar; lbrace] ++ var_name ++ [rbrace]
  end.

(** [re.sub(pattern, replace_var, s)]: scan from the left; at a match emit
    the replacement and jump over the match, otherwise copy one
    character. *)
Fixpoint re_sub (vars : body_vars) (skip : nat) (s : str) : str :=
  match s with
  | [] => []
  | c :: t =>
      match skip with
      | S k => re_sub vars k t
      | O =>
          match var_at s with
          | Some nm => replace_var vars nm ++ re_sub vars (length nm + 2) t
          | None => c :: re_sub vars 0 t
          end
      end
  end.

(** [html_body] *)
Definition render (vars : body_vars) (html_content : str) : str :=
  re_sub vars 0 html_content.

(** A placeholder, as it stands in a template. *)
Definition placeholder (nm : str) : str := [dollar; lbrace] ++ nm ++ [rbrace].

Definition var_name_ok (nm : str) : bool := nonemptyb nm && forallb is_var_char nm.

(** *** The invoice number and the name of the attachment *)

Definition semicolon : char := 59%N.

(** [nro_factura]: [subject.split(";")[2]], [None] without a subject or
    when the subject has fewer than three fields. *)
Definition nro_factura (subject : option str) : option str :=
  match subject with
  | Some (c :: s) => nth_error (split_on semicolon (c :: s)) 2
  | _ => None
  end.

(** [p / s] *)
Definition joinpath (p : Path) (s : str) : Path :=
  if startswith s [slash] then make_path s
  else {| root := root p; parts := parts p ++ parts (make_path s) |}.

Section Attachment.

(** [LOGI_NIT], from the configuration. *)
Variable LOGI_NIT : str.

(** [zip_name]: an empty invoice number counts as none. *)
Definition zip_name (subject : option str) : option str :=
  match nro_factura subject with
  | Some (c :: n) => Some ((c :: n) ++ lit "_" ++ LOGI_NIT ++ lit ".zip")
  | _ => None
  end.

(** [CONFIG.DIRECTORIES.TEMP] *)
Definition TEMP : Path := make_path (lit "/tmp").

(** The path [download_attachment] writes the attachment to. *)
Definition attachment_path (subject : option str) : option Path :=
  option_map (joinpath TEMP) (zip_name subject).

End Attachment.

(** *** [send_email] *)

(** [p.exists()]: a path without a final component is a directory. *)
Definition path_exists (p : Path) (w : world) : bool :=
  match name p with
  | [] => true
  | _ :: _ => match lookup p (files w) with Some _ => true | None => false end
  end.

(** [open(p, 'rb')] and [f.read()] *)
Definition read_bytes (p : Path) (w : world) : outcome (list byte) * world :=
  match name p with
  | [] => (Raises IsADirectoryError, w)
  | _ :: _ =>
      match lookup p (files w) with
      | None => (Raises FileNotFoundError, w)
      | Some data =>
          (Returns data,
           {| files := files w; opened := opened w ++ [p]; logged := logged w |})
      end
  end.

(** The headers [send_email] sets: [cc] and [bcc] only when they are given
    and not empty. *)
Definition headers (to subject : str) (cc bcc : option str) : list (str * str) :=
  [(lit "to", to); (lit "subject", subject)] ++
  match cc with Some (c :: v) => [(lit "cc", c :: v)] | _ => [] end ++
  match bcc with Some (c :: v) => [(lit "bcc", c :: v)] | _ => [] end.

Section SendEmail.

(** The [email.mime] classes build and serialize the message; what they
    compute, and whether they raise, is the library's business. *)
Variable Message : Type.
(** [MIMEMultipart()], the headers, [attach(MIMEText(html_body, "html"))] *)
Variable mime_message : list (str * str) -> str -> outcome Message.
(** [MIMEApplication(data, Name=name)], [Content-Disposition], [attach] *)
Variable mime_attach : Message -> list byte -> str -> outcome Message.
(** [base64.urlsafe_b64encode(message.as_bytes()).decode()] *)
Variable raw_message : Message -> outcome str.

(** [self.send(body)]: the call of the mail service, with its retries. *)
Variable send : str -> method world unit.

(** [BASE_DIR], the directory of the checkout. *)
Variable BASE_DIR : Path.

Definition default_template : Path :=
  joinpath (joinpath (joinpath BASE_DIR (lit "src")) (lit "resources"))
           (lit "error_con_factura.html").

Definition send_email (to subject : str) (vars : body_vars) (cc bcc : option str)
    (template_path : option str) (attachment_file : option Path) : method world unit :=
  fun w =>
    let template_file :=
      match template_path with
      | None => default_template
      | Some s => make_path s
      end in
    if negb (path_exists template_file w) then (Raises FileNotFoundError, w)
    else
      match read_text template_file w with
      | (Raises e, w1) => (Raises e, w1)
      | (Returns html_content, w1) =>
          let html_body := render vars html_content in
          match mime_message (headers to subject cc bcc) html_body with
          | Raises e => (Raises e, w1)
          | Returns message =>
              match attachment_file with
              | None => (Raises AttributeError, w1)   (* None.exists() *)
              | Some f =>
                  let attached :=
                    if path_exists f w1 then
                      match read_bytes f w1 with
                      | (Returns data, w2) => (mime_attach message data (name f), w2)
                      | (Raises e, w2) => (Raises e, w2)
                      end
                    else (Returns message, w1) in
                  match attached with
                  | (Raises e, w2) => (Raises e, w2)
                  | (Returns message', w2) =>
                      match raw_message message' with
                      | Raises e => (Raises e, w2)
                      | Returns raw => send raw w2
                      end
                  end
              end
          end
      end.

(** X20. [send_email] called without an attachment (the default) never
    reaches [self.send]: it raises, for the missing or unreadable template,
    for whatever the message classes raise, and otherwise [AttributeError] at
    [attachment_file.exists()], [attachment_file] being [None].  This holds
    whatever [send] would do; the files and the log are as they were. *)
Theorem send_email_without_attachment
    (to subject : str) (vars : body_vars) (cc bcc : option str)
    (template_path : option str) (w : world) :
  exists e w',
    send_email to subject vars cc bcc template_path None w = (Raises e, w') /\
    files w' = files w /\ logged w' = logged w.
Proof.
  unfold send_email. cbv zeta.
  set (template_file := match template_path with
                        | None => default_template
                        | Some s => make_path s
                        end).
  destruct (path_exists template_file w).
  2:{ exists FileNotFoundError, w. cbn [negb]. repeat split. }
  cbn [negb].
  destruct (read_text template_file w) as [[html_content|e] w1] eqn:R.
  - destruct (ParserTree.read_text_returns _ _ _ _ R) as [Hf [_ Hl]].
    destruct (mime_message (headers to subject cc bcc) (render vars html_content))
      as [message|e].
    + exists AttributeError, w1. repeat split; assumption.
    + exists e, w1. repeat split; assumption.
  - destruct (Pipeline.read_text_raises _ _ _ _ R) as [Hf [Hl He]].
    exists e, w1. repeat split; assumption.
Qed.

End SendEmail.

(** *** Facts about the template *)

Lemma re_sub_skip (vars : body_vars) (k : nat) (s : str) :
  re_sub vars k s = re_sub vars 0 (skipn k s).
Proof.
  revert s. induction k as [|k IH]; intros s; [reflexivity|].
  destruct s as [|c t]; [reflexivity|]. cbn [re_sub skipn]. apply IH.
Qed.

Lemma var_run_spec (s : str) :
  forallb is_var_char (var_run s) = true /\
  exists rest, s = var_run s ++ rest /\
               match rest with c :: _ => is_var_char c = false | [] => True end.
Proof.
  induction s as [|c t [IH1 [rest [IH2 IH3]]]]; cbn [var_run].
  - split; [reflexivity|]. now exists [].
  - destruct (is_var_char c) eqn:E.
    + split; [cbn; now rewrite E|]. exists rest. split; [cbn; now f_equal | exact IH3].
    + split; [reflexivity|]. exists (c :: t). now split.
Qed.

Lemma var_run_app (nm rest : str) :
  forallb is_var_char nm = true ->
  match rest with c :: _ => is_var_char c = false | [] => True end ->
  var_run (nm ++ rest) = nm.
Proof.
  intros Hnm Hrest. induction nm as [|c t IH]; cbn [app var_run].
  - destruct rest as [|c r]; [reflexivity|]. cbn. now rewrite Hrest.
  - cbn in Hnm. apply andb_true_iff in Hnm. destruct Hnm as [Hc Ht].
    rewrite Hc. f_equal. now apply IH.
Qed.

(** A match, taken apart. *)
Lemma var_at_split (s nm : str) :
  var_at s = Some nm ->
  var_name_ok nm = true /\ exists rest, s = placeholder nm ++ rest.
Proof.
  unfold var_at. destruct s as [|a [|b t]]; try discriminate.
  destruct (N.eqb a dollar && N.eqb b lbrace) eqn:E; [|discriminate].
  apply andb_true_iff in E. destruct E as [Ea Eb].
  apply N.eqb_eq in Ea, Eb. subst a b.
  destruct (var_run_spec t) as [Hall [rest [Ht _]]].
  destruct (var_run t) as [|x r] eqn:Er; [discriminate|].
  destruct (startswith (skipn (length (x :: r)) t) [rbrace]) eqn:Es; [|discriminate].
  intros H. injection H as <-. split.
  - unfold var_name_ok. now rewrite Hall.
  - rewrite Ht in Es. rewrite skipn_app, skipn_all, Nat.sub_diag in Es.
    cbn [skipn app] in Es. apply startswith_iff in Es. destruct Es as [u Hu].
    exists u. unfold placeholder. rewrite Ht, Hu. cbn [app].
    now rewrite <- app_assoc.
Qed.

Lemma var_at_placeholder (nm rest : str) :
  var_name_ok nm = true -> var_at (placeholder nm ++ rest) = Some nm.
Proof.
  unfold var_name_ok. intros H. apply andb_true_iff in H. destruct H as [Hne Hall].
  unfold placeholder, var_at. cbn [app]. rewrite !N.eqb_refl. cbn [andb].
  rewrite <- app_assoc. rewrite (var_run_app nm ([rbrace] ++ rest) Hall eq_refl).
  destruct nm as [|x r]; [discriminate|].
  rewrite skipn_app, skipn_all, Nat.sub_diag. cbn [skipn app startswith].
  now rewrite N.eqb_refl.
Qed.

(** Text that starts with a dollar sign cannot complete a match begun
    before it. *)
Lemma var_at_before_dollar (a rest : str) :
  a <> [] -> var_at (a ++ dollar :: rest) = var_at a.
Proof.
  intros Ha. unfold var_at.
  destruct a as [|c [|b t]]; [contradiction | |].
  - cbn [app]. replace (N.eqb dollar lbrace) with false by reflexivity.
    now rewrite andb_false_r.
  - cbn [app]. destruct (N.eqb c dollar && N.eqb b lbrace); [|reflexivity].
    destruct (var_run_spec t) as [Hall [r [Ht Hr]]].
    assert (Hrun : var_run (t ++ dollar :: rest) = var_run t).
    { rewrite Ht at 1. rewrite <- app_assoc. apply var_run_app; [exact Hall|].
      destruct r as [|x r']; [reflexivity | exact Hr]. }
    rewrite Hrun. destruct (var_run t) as [|x nm] eqn:Er; [reflexivity|].
    rewrite Ht. rewrite <- app_assoc.
    rewrite !skipn_app, skipn_all, Nat.sub_diag. cbn [skipn app].
    destruct r as [|y r']; [reflexivity|]. reflexivity.
Qed.

Lemma var_at_length (s nm : str) : var_at s = Some nm -> length nm + 3 <= length s.
Proof.
  intros H. destruct (var_at_split s nm H) as [_ [rest ->]].
  unfold placeholder. rewrite !length_app. cbn [length]. lia.
Qed.

Lemma re_sub_before_dollar (vars : body_vars) (a rest : str) :
  forall k,
    re_sub vars k (a ++ dollar :: rest)
    = re_sub vars k a ++ re_sub vars (k - length a) (dollar :: rest).
Proof.
  induction a as [|c t IH]; intros k.
  - cbn [app length re_sub]. now rewrite Nat.sub_0_r.
  - destruct k as [|k].
    + cbn [app re_sub].
      change (c :: t ++ dollar :: rest) with ((c :: t) ++ dollar :: rest).
      rewrite var_at_before_dollar by discriminate.
      destruct (var_at (c :: t)) as [nm|] eqn:E.
      * rewrite IH, <- app_assoc. f_equal. f_equal.
        apply var_at_length in E. cbn [length] in E.
        replace (length nm + 2 - length t) with 0 by lia. reflexivity.
      * rewrite IH. cbn [Nat.sub app]. reflexivity.
    + cbn [app re_sub length Nat.sub]. apply IH.
Qed.

Lemma placeholder_length (nm : str) : length (placeholder nm) = length nm + 3.
Proof. unfold placeholder. rewrite !length_app. cbn [length]. lia. Qed.

Lemma re_sub_match (vars : body_vars) (s nm : str) :
  var_at s = Some nm ->
  re_sub vars 0 s = replace_var vars nm ++ re_sub vars 0 (skipn (length nm + 3) s).
Proof.
  intros H. destruct s as [|c t]; [discriminate|].
  cbn [re_sub]. rewrite H. f_equal. rewrite re_sub_skip. f_equal.
  replace (length nm + 3) with (S (length nm + 2)) by lia. reflexivity.
Qed.

Lemma skipn_placeholder (nm rest : str) :
  skipn (length nm + 3) (placeholder nm ++ rest) = rest.
Proof.
  rewrite <- placeholder_length.
  now rewrite skipn_app, skipn_all, Nat.sub_diag.
Qed.

(** X21. Each placeholder is rendered on its own: the text before it and
    the text after it are rendered as if they stood alone, and between them
    goes the value bound to the name, or the placeholder itself when the name
    is not bound; the value put in is not scanned again. *)
Theorem render_placeholder (vars : body_vars) (a nm b : str) :
  var_name_ok nm = true ->
  render vars (a ++ placeholder nm ++ b)
  = render vars a ++ replace_var vars nm ++ render vars b.
Proof.
  intros Hnm. unfold render.
  assert (Hd : placeholder nm ++ b = dollar :: (lbrace :: nm ++ [rbrace]) ++ b)
    by reflexivity.
  rewrite Hd, re_sub_before_dollar, <- Hd. cbn [Nat.sub]. f_equal.
  rewrite (re_sub_match vars _ nm) by now apply var_at_placeholder.
  now rewrite skipn_placeholder.
Qed.

Lemma re_sub_unbound (s : str) : forall k, re_sub (fun _ => None) k s = skipn k s.
Proof.
  remember (length s) as n eqn:Hn. revert s Hn.
  induction n as [n IH] using lt_wf_ind. intros s Hn k.
  rewrite re_sub_skip.
  assert (Hle : length (skipn k s) <= n) by (rewrite length_skipn; lia).
  remember (skipn k s) as u eqn:Hu. clear Hu.
  destruct (var_at u) as [nm|] eqn:E.
  - rewrite (re_sub_match _ _ _ E).
    destruct (var_at_split _ _ E) as [_ [rest ->]].
    rewrite skipn_placeholder.
    rewrite length_app, placeholder_length in Hle.
    rewrite (IH (length rest)) with (s := rest) (k := 0); [| lia | reflexivity].
    reflexivity.
  - destruct u as [|c t]; [reflexivity|]. cbn [re_sub]. rewrite E. f_equal.
    cbn [length] in Hle.
    now rewrite (IH (length t)) with (s := t) (k := 0); [| lia | reflexivity].
Qed.

Lemma re_sub_no_dollar (vars : body_vars) (s : str) :
  forallb (fun c => negb (N.eqb c dollar)) s = true -> re_sub vars 0 s = s.
Proof.
  induction s as [|c t IH]; [reflexivity|]. cbn [forallb re_sub].
  intros H. apply andb_true_iff in H. destruct H as [Hc Ht].
  apply negb_true_iff in Hc.
  replace (var_at (c :: t)) with (@None str).
  - now rewrite IH.
  - unfold var_at. destruct t as [|b t']; [reflexivity|]. now rewrite Hc.
Qed.

(** X22. With no name bound, rendering gives the template back, whatever
    the template is: every placeholder is replaced by itself.  And whatever
    is bound, a template without a dollar sign is given back as it is. *)
Theorem render_without_bindings (html_content : str) :
  render (fun _ => None) html_content = html_content /\
  forall vars,
    forallb (fun c => negb (N.eqb c dollar)) html_content = true ->
    render vars html_content = html_content.
Proof.
  split.
  - unfold render. now rewrite re_sub_unbound.
  - intros vars H. now apply re_sub_no_dollar.
Qed.

(** *** Facts about the subject line *)

Lemma split_on_nonempty (sep : char) (s : str) : split_on sep s <> [].
Proof.
  destruct s as [|c t]; cbn [split_on]; [discriminate|].
  destruct (N.eqb c sep); [discriminate|].
  destruct (split_on sep t); discriminate.
Qed.

Lemma split_on_join (sep : char) (s : str) : join [sep] (split_on sep s) = s.
Proof.
  induction s as [|c t IH]; [reflexivity|]. cbn [split_on].
  pose proof (split_on_nonempty sep t) as Hne.
  destruct (N.eqb c sep) eqn:E.
  - apply N.eqb_eq in E. subst c.
    rewrite join_cons by exact Hne. now rewrite IH.
  - destruct (split_on sep t) as [|g rest]; [contradiction|].
    destruct rest as [|g' rest'].
    + cbn [join] in *. now rewrite <- IH.
    + rewrite join_cons in * by discriminate. now rewrite <- IH.
Qed.

Lemma split_on_length (sep : char) (s : str) :
  length (split_on sep s) = S (count_occ N.eq_dec s sep).
Proof.
  induction s as [|c t IH]; [reflexivity|]. cbn [split_on count_occ].
  destruct (N.eqb c sep) eqn:E.
  - apply N.eqb_eq in E. subst c. destruct (N.eq_dec sep sep); [|contradiction].
    cbn [length]. now rewrite IH.
  - apply N.eqb_neq in E. destruct (N.eq_dec c sep); [contradiction|].
    destruct (split_on sep t); [discriminate | exact IH].
Qed.

(** X23. [nro_factura] is the third field of the subject, fields being
    what lies between semicolons: the subject splits into a first field, a
    semicolon, a second field, a semicolon, and the invoice number, which
    runs to the next semicolon or to the end; with fewer than two semicolons
    in the subject there is no invoice number. *)
Theorem nro_factura_third_field (subject : str) :
  match nro_factura (Some subject) with
  | Some x =>
      exists a b rest,
        subject = a ++ [semicolon] ++ b ++ [semicolon] ++ x ++ rest /\
        ~ In semicolon a /\ ~ In semicolon b /\ ~ In semicolon x /\
        (rest = [] \/ exists r, rest = semicolon :: r)
  | None => count_occ N.eq_dec subject semicolon < 2
  end.
Proof.
  destruct subject as [|c s]; [cbn; lia|].
  unfold nro_factura.
  pose proof (split_on_join semicolon (c :: s)) as Hj.
  pose proof (split_on_no_sep semicolon (c :: s)) as Hno.
  pose proof (split_on_length semicolon (c :: s)) as Hlen.
  destruct (split_on semicolon (c :: s)) as [|a [|b [|x more]]];
    cbn [nth_error length] in *; try lia.
  apply Forall_cons_iff in Hno. destruct Hno as [Ha Hno].
  apply Forall_cons_iff in Hno. destruct Hno as [Hb Hno].
  apply Forall_cons_iff in Hno. destruct Hno as [Hx _].
  rewrite !join_cons in Hj by discriminate.
  destruct more as [|y more'].
  - exists a, b, []. cbn [join] in Hj. rewrite app_nil_r.
    repeat split; try assumption; [now rewrite Hj | now left].
  - rewrite join_cons in Hj by discriminate.
    exists a, b, ([semicolon] ++ join [semicolon] (y :: more')).
    repeat split; try assumption; [now rewrite Hj|].
    right. now eexists.
Qed.

(** *** Where the attachment goes *)

Lemma split_on_whole (sep : char) (s : str) :
  ~ In sep s -> split_on sep s = [s].
Proof.
  induction s as [|c t IH]; [reflexivity|]. intros H. cbn [split_on].
  replace (N.eqb c sep) with false.
  - rewrite IH; [reflexivity|]. intros Hin. apply H. now right.
  - symmetry. apply N.eqb_neq. intros ->. apply H. now left.
Qed.

Lemma rfind_dot_none (e : str) : ~ In dot e -> rfind_dot e = (-1)%Z.
Proof.
  induction e as [|c t IH]; [reflexivity|]. intros H. cbn [rfind_dot].
  rewrite IH by (intros Hin; apply H; now right). cbn [Z.leb Z.compare].
  replace (N.eqb c dot) with false; [reflexivity|].
  symmetry. apply N.eqb_neq. intros ->. apply H. now left.
Qed.

Lemma rfind_dot_last (y e : str) :
  ~ In dot e -> rfind_dot (y ++ dot :: e) = Z.of_nat (length y).
Proof.
  intros He. induction y as [|c t IH]; cbn [app rfind_dot length].
  - rewrite (rfind_dot_none e He). cbn [Z.leb Z.compare]. now rewrite N.eqb_refl.
  - rewrite IH. replace (Z.leb 0 (Z.of_nat (length t))) with true
      by (symmetry; apply Z.leb_le; lia).
    lia.
Qed.

Section AttachmentFacts.

Variable LOGI_NIT : str.

(** X24. Where [download_attachment] writes: with an invoice number [x]
    in the subject the attachment is named [x_<NIT>.zip]; when neither [x]
    nor the NIT holds a slash the file lies directly in [/tmp] under that
    name, with suffix [.zip]; when [x] starts with a slash the joined path is
    absolute and [/tmp] is dropped from it. *)
Theorem attachment_path_cases (subject : option str) (x : str) :
  nro_factura subject = Some x ->
  x <> [] ->
  zip_name LOGI_NIT subject = Some (x ++ lit "_" ++ LOGI_NIT ++ lit ".zip") /\
  (~ In slash x -> ~ In slash LOGI_NIT ->
   exists p,
     attachment_path LOGI_NIT subject = Some p /\
     root p = [slash] /\
     parts p = [lit "tmp"; x ++ lit "_" ++ LOGI_NIT ++ lit ".zip"] /\
     suffix p = lit ".zip") /\
  (startswith x [slash] = true ->
   attachment_path LOGI_NIT subject
   = Some (make_path (x ++ lit "_" ++ LOGI_NIT ++ lit ".zip"))).
Proof.
  intros Hn Hx.
  assert (Hz : zip_name LOGI_NIT subject = Some (x ++ lit "_" ++ LOGI_NIT ++ lit ".zip")).
  { unfold zip_name. rewrite Hn. destruct x; [contradiction | reflexivity]. }
  split; [exact Hz|]. unfold attachment_path. rewrite Hz. cbn [option_map].
  set (z := x ++ lit "_" ++ LOGI_NIT ++ lit ".zip").
  split.
  - intros Hsx Hsn.
    assert (Hsz : ~ In slash z).
    { subst z. intros H. apply in_app_or in H. destruct H as [H | H]; [now apply Hsx|].
      apply in_app_or in H. destruct H as [H | H].
      { vm_compute in H. destruct H as [H | H]; [discriminate | exact H]. }
      apply in_app_or in H. destruct H as [H | H]; [now apply Hsn|].
      vm_compute in H. repeat (destruct H as [H | H]; [discriminate|]). exact H. }
    assert (Hlen : 6 <= length z).
    { subst z. rewrite !length_app. destruct x; [contradiction|].
      change (length (lit ".zip")) with 4. change (length (lit "_")) with 1.
      cbn [length]. lia. }
    assert (Hparts : parts (make_path z) = [z]).
    { unfold make_path. cbn [parts]. rewrite (split_on_whole slash z Hsz).
      cbn [filter].
      replace (str_eqb z []) with false.
      2:{ symmetry. destruct (str_eqb z []) eqn:F; [|reflexivity].
          apply str_eqb_eq in F. rewrite F in Hlen. cbn in Hlen. lia. }
      replace (str_eqb z [dot]) with false; [reflexivity|].
      symmetry. destruct (str_eqb z [dot]) eqn:F; [|reflexivity].
      apply str_eqb_eq in F. rewrite F in Hlen. cbn in Hlen. lia. }
    assert (Hstart : startswith z [slash] = false).
    { destruct (startswith z [slash]) eqn:F; [|reflexivity].
      apply startswith_iff in F. destruct F as [t Ht].
      exfalso. apply Hsz. rewrite Ht. now left. }
    eexists. split; [reflexivity|]. unfold joinpath. rewrite Hstart, Hparts.
    split; [reflexivity|]. split; [reflexivity|].
    unfold suffix, name. cbn [parts]. rewrite last_last.
    assert (Hcut : z = (x ++ lit "_" ++ LOGI_NIT) ++ dot :: lit "zip")
      by (subst z; now rewrite <- !app_assoc).
    assert (Hy : 1 <= length (x ++ lit "_" ++ LOGI_NIT)).
    { rewrite length_app. destruct x; [contradiction | cbn [length]; lia]. }
    rewrite Hcut. clear Hcut.
    remember (x ++ lit "_" ++ LOGI_NIT) as y eqn:Ey. clear Ey.
    rewrite rfind_dot_last.
    2:{ intros H. vm_compute in H. repeat (destruct H as [H | H]; [discriminate|]).
        exact H. }
    rewrite Nat2Z.id, length_app.
    change (length (dot :: lit "zip")) with 4.
    replace (Z.ltb 0 (Z.of_nat (length y))) with true
      by (symmetry; apply Z.ltb_lt; lia).
    replace (Z.ltb (Z.of_nat (length y)) (Z.of_nat (length y + 4) - 1)) with true
      by (symmetry; apply Z.ltb_lt; lia).
    cbn [andb]. now rewrite skipn_app, skipn_all, Nat.sub_diag.
  - intros Hs. unfold joinpath.
    replace (startswith z [slash]) with true; [reflexivity|].
    symmetry. apply startswith_iff. apply startswith_iff in Hs.
    destruct Hs as [t ->]. subst z. eexists. now rewrite <- app_assoc.
Qed.

End AttachmentFacts.

(** *** Sample messages *)

Definition sample_subject : str := lit "900073223;LOGIFARMA SAS;LGFM1538339;01;CAJACOPI".

Lemma attachment_path_cases_witness :
  nro_factura (Some sample_subject) = Some (lit "LGFM1538339") /\
  zip_name (lit "900073223") (Some sample_subject)
  = Some (lit "LGFM1538339_900073223.zip") /\
  exists p,
    attachment_path (lit "900073223") (Some sample_subject) = Some p /\
    parts p = [lit "tmp"; lit "LGFM1538339_900073223.zip"] /\
    suffix p = lit ".zip".
Proof.
  split; [vm_compute; reflexivity|].
  destruct (attachment_path_cases (lit "900073223") (Some sample_subject)
              (lit "LGFM1538339")) as [Hz [Hp _]].
  - vm_compute; reflexivity.
  - discriminate.
  - split; [exact Hz|]. destruct Hp as [p [H1 [_ [H2 H3]]]].
    + intros H. vm_compute in H. repeat (destruct H as [H | H]; [discriminate|]). exact H.
    + intros H. vm_compute in H. repeat (destruct H as [H | H]; [discriminate|]). exact H.
    + exists p. split; [exact H1|]. split; [exact H2 | exact H3].
Defined.

Lemma render_placeholder_witness :
  var_name_ok (lit "nro_factura") = true /\
  render (fun nm => if str_eqb nm (lit "nro_factura") then Some (lit "LGFM1") else None)
    (lit "Factura " ++ placeholder (lit "nro_factura") ++ lit " de ${cliente}")
  = lit "Factura LGFM1 de ${cliente}".
Proof.
  split; [vm_compute; reflexivity|].
  rewrite (render_placeholder
             (fun nm => if str_eqb nm (lit "nro_factura") then Some (lit "LGFM1") else None)
             (lit "Factura ") (lit "nro_factura") (lit " de ${cliente}")).
  - vm_compute; reflexivity.
  - vm_compute; reflexivity.
Defined.

End Mail.

(* ===================================================================== *)
(** ** The folder of a month: [src/drive.py] *)
(* ===================================================================== *)

From Stdlib Require DecimalZ.

Module Drive.
Import PyStr Py.

(** The decimal digits of a number, most significant first. *)
Fixpoint digits (d : Decimal.uint) : str :=
  match d with
  | Decimal.Nil => []
  | Decimal.D0 d => 48%N :: digits d
  | Decimal.D1 d => 49%N :: digits d
  | Decimal.D2 d => 50%N :: digits d
  | Decimal.D3 d => 51%N :: digits d
  | Decimal.D4 d => 52%N :: digits d
  | Decimal.D5 d => 53%N :: digits d
  | Decimal.D6 d => 54%N :: digits d
  | Decimal.D7 d => 55%N :: digits d
  | Decimal.D8 d => 56%N :: digits d
  | Decimal.D9 d => 57%N :: digits d
  end.

Definition minus : char := 45%N.
Definition zero : char := 48%N.

(** [f"{n}"] for an [int]. *)
Definition format_d (n : Z) : str :=
  match Z.to_int n with
  | Decimal.Pos d => digits d
  | Decimal.Neg d => minus :: digits d
  end.

(** [f"{n:0{width}d}"]: the sign first, then zeros up to the width, then
    the digits. *)
Definition format_0d (width : nat) (n : Z) : str :=
  match Z.to_int n with
  | Decimal.Pos d => repeat zero (width - length (digits d)) ++ digits d
  | Decimal.Neg d => minus :: repeat zero (width - 1 - length (digits d)) ++ digits d
  end.

(** [get_facturas_mes_name]: [f"FacturasCajacopi_{ano}{mes:02d}"] *)
Definition get_facturas_mes_name (mes ano : Z) : str :=
  lit "FacturasCajacopi_" ++ format_d ano ++ format_0d 2 mes.

(** *** Facts about the digits *)

Lemma digits_inj (d e : Decimal.uint) : digits d = digits e -> d = e.
Proof.
  revert e. induction d; intros e H; destruct e; cbn [digits] in H;
    try discriminate; try reflexivity;
    injection H as H'; f_equal; now apply IHd.
Qed.

Lemma digits_no_minus (d : Decimal.uint) : ~ In minus (digits d).
Proof.
  induction d; cbn [digits]; [intros [] | ..];
    (intros [H | H]; [discriminate | now apply IHd]).
Qed.

Lemma format_d_inj (m n : Z) : format_d m = format_d n -> m = n.
Proof.
  unfold format_d. intros H.
  rewrite <- (DecimalZ.of_to m), <- (DecimalZ.of_to n).
  destruct (Z.to_int m) as [d|d], (Z.to_int n) as [e|e].
  - now rewrite (digits_inj d e H).
  - exfalso. apply (digits_no_minus d). rewrite H. now left.
  - exfalso. apply (digits_no_minus e). rewrite <- H. now left.
  - injection H as H. now rewrite (digits_inj d e H).
Qed.

Definition months : list Z := [1; 2; 3; 4; 5; 6; 7; 8; 9; 10; 11; 12]%Z.

Lemma month_in (mes : Z) : (1 <= mes <= 12)%Z -> In mes months.
Proof.
  intros H. unfold months.
  assert (mes = 1 \/ mes = 2 \/ mes = 3 \/ mes = 4 \/ mes = 5 \/ mes = 6 \/
          mes = 7 \/ mes = 8 \/ mes = 9 \/ mes = 10 \/ mes = 11 \/ mes = 12)%Z
    as C by lia.
  cbn [In]. repeat (destruct C as [C | C]; [subst; auto 13|]). subst; auto 13.
Qed.

(** Every month is written with two digits, and no two months alike. *)
Lemma months_two_digits :
  forallb (fun m => Nat.eqb (length (format_0d 2 m)) 2) months = true /\
  forallb (fun m =>
             forallb (fun n => negb (str_eqb (format_0d 2 m) (format_0d 2 n)) || Z.eqb m n)
                     months) months = true.
Proof. split; vm_compute; reflexivity. Qed.

Lemma app_same_tail_length {A} (a a' m m' : list A) :
  a ++ m = a' ++ m' -> length m = length m' -> a = a' /\ m = m'.
Proof.
  intros H Hl.
  assert (Ha : length a = length a').
  { apply (f_equal (@length _)) in H. rewrite !length_app in H. lia. }
  revert a' H Ha. induction a as [|x a IH]; intros [|y a'] H Ha; try discriminate.
  - now split.
  - cbn [app] in H. injection H as -> H. destruct (IH a' H) as [-> ->].
    + cbn in Ha. lia.
    + now split.
Qed.

(** X25. The folder names of the months tell the months apart: for
    calendar months, two names are the same only when the year and the month
    are; the month always takes two digits, and the year its own digits, with
    its sign when it is negative. *)
Theorem facturas_mes_name_injective (mes ano mes' ano' : Z) :
  (1 <= mes <= 12)%Z -> (1 <= mes' <= 12)%Z ->
  get_facturas_mes_name mes ano = get_facturas_mes_name mes' ano' ->
  ano = ano' /\ mes = mes'.
Proof.
  intros Hm Hm' H. apply month_in in Hm, Hm'.
  destruct months_two_digits as [Hlen Hdiff].
  rewrite forallb_forall in Hlen, Hdiff.
  pose proof (Hlen _ Hm) as L. pose proof (Hlen _ Hm') as L'.
  apply Nat.eqb_eq in L, L'.
  unfold get_facturas_mes_name in H. apply app_inv_head in H.
  apply app_same_tail_length in H; [|congruence].
  destruct H as [Ha Hmes]. split; [now apply format_d_inj|].
  specialize (Hdiff _ Hm). rewrite forallb_forall in Hdiff.
  specialize (Hdiff _ Hm'). rewrite Hmes in Hdiff.
  rewrite (proj2 (str_eqb_eq _ _) eq_refl) in Hdiff. cbn [negb orb] in Hdiff.
  now apply Z.eqb_eq.
Qed.

Lemma facturas_mes_name_injective_witness :
  (1 <= 7 <= 12)%Z /\
  get_facturas_mes_name 7 2025 = lit "FacturasCajacopi_202507" /\
  get_facturas_mes_name 7 2025 = get_facturas_mes_name 7 2025 /\
  2025%Z = 2025%Z /\ 7%Z = 7%Z.
Proof.
  split; [lia|]. split; [vm_compute; reflexivity|]. split; [reflexivity|].
  apply (facturas_mes_name_injective 7 2025 7 2025); [lia | lia | reflexivity].
Defined.

End Drive.
